(** * DML generation of the syncer (syncer/dml.go)

    A shallow embedding of the statement and key generators of
    [syncer/dml.go] and the properties of its specification.

    Conventions of the embedding.
    - An [interface{}] row value is the tagged union [Value]; the untyped
      [nil] is [VNil].  Fixed-width integers carry a [Z]; conversions write
      their wrap-around out.  [int] and [uint] are 64 bits wide.
    - A Go slice is the list of its elements.  Where the source returns the
      literal [nil] (index selection, the outputs of a failed batch) the
      slice is an [option], [None] being [nil].
    - [map[string][]*column] is a [gmap string (list column)].  A [range]
      over a map visits every entry once, in an order the language leaves
      unspecified and that may change from one [range] to the next: each
      [range] statement draws a seed that picks one permutation of the
      entries ([range_order]).
    - An index expression out of range panics; a panic is the [Panic]
      outcome of the monad [M]. *)

From Stdlib Require Import ZArith Lia Ascii.
From stdpp Require Import base option list strings pretty gmap.

Open Scope Z_scope.
Open Scope string_scope.
Open Scope list_scope.

(** ** Values *)

Inductive Value : Type :=
| VNil
| VBool (b : bool)
| VInt (v : Z)
| VInt8 (v : Z)
| VInt16 (v : Z)
| VInt32 (v : Z)
| VInt64 (v : Z)
| VUint (v : Z)
| VUint8 (v : Z)
| VUint16 (v : Z)
| VUint32 (v : Z)
| VUint64 (v : Z)
| VFloat32 (bits : Z)
| VFloat64 (bits : Z)
| VString (s : string)
| VBytes (s : string)
| VOther (tag : string).

(** [data == nil] on an interface value. *)
Definition isNil (v : Value) : bool :=
  match v with VNil => true | _ => false end.

(** Modelled from the spec: the declaration of the struct [column] is not in
    dml.go; these are the fields dml.go reads (spec, data model: name,
    ordinal position, declared type name, unsigned flag, not-null flag). *)
Record column : Type := Column {
  idx : nat;
  name : string;
  NotNull : bool;
  unsigned : bool;
  tp : string
}.

(** ** Outcomes: a result or a run-time panic *)

Inductive res (A : Type) : Type :=
| Ret (a : A)
| Panic (msg : string).
Arguments Ret {A} a.
Arguments Panic {A} msg.

Definition res_bind {A B} (m : res A) (f : A → res B) : res B :=
  match m with Ret a => f a | Panic msg => Panic msg end.

Notation "x ←? m ; k" := (res_bind m (λ x, k))
  (at level 20, m at level 100, k at level 200, only parsing, right associativity).
Notation "' p ←? m ; k" := (res_bind m (λ x, match x with p => k end))
  (at level 20, p pattern, m at level 100, k at level 200, only parsing, right associativity).

(** [l[i]] *)
Definition index {A} (l : list A) (i : nat) : res A :=
  match l !! i with
  | Some a => Ret a
  | None => Panic "index out of range"
  end.

(** ** The strings package *)

Definition lower_ascii (c : Ascii.ascii) : Ascii.ascii :=
  let n := Ascii.N_of_ascii c in
  if ((65 <=? n) && (n <=? 90))%N then Ascii.ascii_of_N (n + 32) else c.

(** Whether every byte of [s] is an ASCII byte. *)
Fixpoint isASCII (s : string) : bool :=
  match s with
  | EmptyString => true
  | String c s' => (Ascii.N_of_ascii c <? 128)%N && isASCII s'
  end.

(** [strings.ToLower].  On a string of ASCII bytes the letters A to Z are
    lowered and every other byte is kept.  On a string with other bytes Go
    lowers rune by rune with the Unicode case tables: the two runes outside
    ASCII that these lower to an ASCII letter, U+0130 (to i) and U+212A
    (to k), are lowered here in their UTF-8 encoding, the bytes C4 B0 and
    E2 84 AA.  The tables themselves are not embedded: every other byte
    outside ASCII is kept, where Go writes the lowered rune, or U+FFFD for a
    byte that is not UTF-8, in both cases bytes outside ASCII.  A pattern of
    ASCII letters, the only use the program makes of the result, is thus
    met here exactly when it is met in Go's result. *)
Fixpoint ToLower (s : string) : string :=
  match s with
  | EmptyString => EmptyString
  | String c s' =>
      let n := Ascii.N_of_ascii c in
      match s' with
      | String c1 s1 =>
          let n1 := Ascii.N_of_ascii c1 in
          if ((n =? 196) && (n1 =? 176))%N then String "i" (ToLower s1)
          else
            match s1 with
            | String c2 s2 =>
                if ((n =? 226) && (n1 =? 132) && (Ascii.N_of_ascii c2 =? 170))%N
                then String "k" (ToLower s2)
                else String (lower_ascii c) (ToLower s')
            | EmptyString => String (lower_ascii c) (ToLower s')
            end
      | EmptyString => String (lower_ascii c) (ToLower s')
      end
  end.

Fixpoint HasPrefix (s p : string) : bool :=
  match p, s with
  | EmptyString, _ => true
  | String _ _, EmptyString => false
  | String a p', String b s' => bool_decide (a = b) && HasPrefix s' p'
  end.

(** [strings.Contains] *)
Fixpoint Contains (s substr : string) : bool :=
  HasPrefix s substr ||
  match s with
  | EmptyString => false
  | String _ s' => Contains s' substr
  end.

(** [strings.Join] *)
Fixpoint Join (elems : list string) (sep : string) : string :=
  match elems with
  | [] => ""
  | [e] => e
  | e :: rest => e +:+ sep +:+ Join rest sep
  end.

(** ** Unsigned casting *)

(** [binary.LittleEndian.PutUint32] into a fresh 4-byte buffer. *)
Definition PutUint32 (v : Z) : list Z :=
  [ Z.land v 255;
    Z.land (Z.shiftr v 8) 255;
    Z.land (Z.shiftr v 16) 255;
    Z.land (Z.shiftr v 24) 255 ].

Definition to_uint8 (v : Z) : Z := v mod 2 ^ 8.
Definition to_uint16 (v : Z) : Z := v mod 2 ^ 16.
Definition to_uint32 (v : Z) : Z := v mod 2 ^ 32.
Definition to_uint64 (v : Z) : Z := v mod 2 ^ 64.

(** [strconv.FormatUint(v, 10)] and [strconv.FormatInt(v, 10)] *)
Definition FormatUint (v : Z) : string := pretty (Z.to_N v).
Definition FormatInt (v : Z) : string := pretty v.

Definition castUnsigned (data : Value) (unsigned : bool) (tp : string) : Value :=
  if negb unsigned then data
  else
    match data with
    | VInt v => VUint (to_uint64 v)
    | VInt8 v => VUint8 (to_uint8 v)
    | VInt16 v => VUint16 (to_uint16 v)
    | VInt32 v =>
        if Contains (ToLower tp) "mediumint" then
          let data := PutUint32 (to_uint32 v) in
          VUint32
            (Z.lor (Z.lor (to_uint32 (data !!! 0%nat))
                          (to_uint32 (Z.shiftl (to_uint32 (data !!! 1%nat)) 8)))
                   (to_uint32 (Z.shiftl (to_uint32 (data !!! 2%nat)) 16)))
        else VUint32 (to_uint32 v)
    | VInt64 v => VString (FormatUint (to_uint64 v))
    | _ => data
    end.

(** ** Slices that may be nil *)

Definition slice (A : Type) : Type := option (list A).

Definition elems {A} (s : slice A) : list A :=
  match s with Some l => l | None => [] end.

(** [len(s)] *)
Definition len {A} (s : slice A) : nat := length (elems s).

(** ** Loops over a slice

    [for i, a := range l { out = append(out, body(i, a)) }], where the body
    may panic. *)

Fixpoint forRange_from {A B} (i : nat) (l : list A) (body : nat → A → res B)
  : res (list B) :=
  match l with
  | [] => Ret []
  | a :: l' =>
      b ←? body i a;
      bs ←? forRange_from (S i) l' body;
      Ret (b :: bs)
  end.

Definition forRange {A B} (l : list A) (body : nat → A → res B) : res (list B) :=
  forRange_from 0 l body.

(** ** Iteration over a map

    [range_order seed l] is the permutation of [l] that the seed picks;
    every seed picks a permutation and every permutation is picked by some
    seed (lemmas [range_order_perm], [range_order_complete]). *)

Definition range_order {A} (seed : nat) (l : list A) : list A :=
  default l (permutations l !! seed).

(** The scheduler state: the seeds of the [range] statements still to come
    (seed 0 once the list is used up). *)
Definition Sched : Type := list nat.

Definition M (A : Type) : Type := Sched → res (A * Sched).

Definition mret {A} (a : A) : M A := λ seeds, Ret (a, seeds).

Definition mbind' {A B} (m : M A) (f : A → M B) : M B :=
  λ seeds,
    match m seeds with
    | Ret (a, seeds') => f a seeds'
    | Panic msg => Panic msg
    end.

Definition liftRes {A} (r : res A) : M A :=
  λ seeds, match r with Ret a => Ret (a, seeds) | Panic msg => Panic msg end.

Notation "x ←$ m ; k" := (mbind' m (λ x, k))
  (at level 20, m at level 100, k at level 200, only parsing, right associativity).
Notation "' p ←$ m ; k" := (mbind' m (λ x, match x with p => k end))
  (at level 20, p pattern, m at level 100, k at level 200, only parsing, right associativity).

(** [for name, v := range m]: the entries in the order of the next seed. *)
Definition range {V} (m : gmap string V) : M (list (string * V)) :=
  λ seeds,
    match seeds with
    | [] => Ret (range_order 0 (map_to_list m), [])
    | seed :: seeds' => Ret (range_order seed (map_to_list m), seeds')
    end.

(** ** Index selection *)

(** The inner loop of [getSpecifiedIndexColumn]: is [fn] true of some column
    (the loop breaks at the first one). *)
Fixpoint anyColumn (fn : column → res bool) (indexCols : list column) : res bool :=
  match indexCols with
  | [] => Ret false
  | col :: rest =>
      b ←? fn col;
      if b then Ret true else anyColumn fn rest
  end.

(** The outer loop of [getSpecifiedIndexColumn] over the visited entries. *)
Fixpoint scanIndexes (entries : list (string * list column))
    (fn : column → res bool) : res (slice column) :=
  match entries with
  | [] => Ret None
  | (_, indexCols) :: rest =>
      if (length indexCols =? 0)%nat then scanIndexes rest fn
      else
        notFit ←? anyColumn fn indexCols;
        if negb notFit then Ret (Some indexCols) else scanIndexes rest fn
  end.

Definition getSpecifiedIndexColumn (indexColumns : gmap string (list column))
    (fn : column → res bool) : M (slice column) :=
  entries ←$ range indexColumns;
  liftRes (scanIndexes entries fn).

(** The call of [log.Error] on an empty primary index has no effect on the
    result. *)
Definition findFitIndex (indexColumns : gmap string (list column)) : M (slice column) :=
  let fn := λ c : column, Ret (negb (NotNull c)) in
  match indexColumns !! "primary" with
  | Some cols =>
      if (length cols =? 0)%nat then getSpecifiedIndexColumn indexColumns fn
      else mret (Some cols)
  | None => getSpecifiedIndexColumn indexColumns fn
  end.

Definition getAvailableIndexColumn (indexColumns : gmap string (list column))
    (data : list Value) : M (slice column) :=
  let fn := λ c : column, d ←? index data (idx c); Ret (isNil d) in
  getSpecifiedIndexColumn indexColumns fn.

Definition getColumnData (columns : list column) (indexColumns : list column)
    (data : list Value) : res (list column * list Value) :=
  values ←? forRange indexColumns (λ _ column, index data (idx column));
  Ret (indexColumns, values).

(** ** Clause text *)

Definition genWhere (columns : list column) (data : list Value) : res string :=
  parts ←? forRange columns (λ i c,
    d ←? index data i;
    let kvSplit := if isNil d then "IS" else "=" in
    if (i =? length columns - 1)%nat
    then Ret ("`" +:+ name c +:+ "` " +:+ kvSplit +:+ " ?")
    else Ret ("`" +:+ name c +:+ "` " +:+ kvSplit +:+ " ? AND "));
  Ret (Join parts "").

Definition genKVs (columns : list column) : string :=
  Join (imap (λ i c,
    if (i =? length columns - 1)%nat
    then "`" +:+ name c +:+ "` = ?"
    else "`" +:+ name c +:+ "` = ?, ") columns) "".

Definition genColumnList (columns : list column) : string :=
  Join (imap (λ i c,
    if negb (i =? length columns - 1)%nat
    then "`" +:+ name c +:+ "`" +:+ ","
    else "`" +:+ name c +:+ "`") columns) "".

Definition genColumnPlaceholders (length : nat) : string :=
  Join (replicate length "?") ",".

Definition genDeleteSQL (schema table : string) (value : list Value)
    (columns : list column) (indexColumns : slice column)
  : res (string * list Value) :=
  '(whereColumns, whereValues) ←?
    (if (0 <? len indexColumns)%nat
     then getColumnData columns (elems indexColumns) value
     else Ret (columns, value));
  where_ ←? genWhere whereColumns whereValues;
  let sql := "DELETE FROM `" +:+ schema +:+ "`.`" +:+ table +:+ "` WHERE "
             +:+ where_ +:+ " LIMIT 1;" in
  Ret (sql, whereValues).

(** The loop [for i := range data { value = append(value,
    castUnsigned(data[i], columns[i].unsigned, columns[i].tp)) }] of the
    three batch generators. *)
Definition castValues (columns : list column) (data : list Value) : res (list Value) :=
  forRange data (λ i d,
    c ←? index columns i;
    Ret (castUnsigned d (unsigned c) (tp c))).

Definition replaceSQL (schema table columnList columnPlaceholders : string) : string :=
  "REPLACE INTO `" +:+ schema +:+ "`.`" +:+ table +:+ "` (" +:+ columnList
  +:+ ") VALUES (" +:+ columnPlaceholders +:+ ");".

(** What a batch generator returns: statements, keys, values and the error,
    each [None] when the source returns [nil] for it. *)
Definition Output : Type :=
  slice string * slice (list string) * slice (list Value) * option string.

Definition mismatch (what : string) (ncolumns ndata : nat) : string :=
  what +:+ " mismatch in length: " +:+ pretty ncolumns +:+ " (columns) vs "
  +:+ pretty ndata +:+ " (data)".

Section Generators.

(** The formatting functions of the Go library that dml.go calls on values
    it does not inspect further: [strconv.FormatFloat(v, 'f', -1, bitSize)]
    on the bits of a float, and [fmt.Sprintf("%v", v)]. *)
Variable FormatFloat : Z → Z → string.
Variable Sprint_v : Value → string.

Definition columnValue (value : Value) (unsigned : bool) (tp : string) : string :=
  let castValue := castUnsigned value unsigned tp in
  match castValue with
  | VNil => "null"
  | VBool v => if v then "1" else "0"
  | VInt v => FormatInt v
  | VInt8 v => FormatInt v
  | VInt16 v => FormatInt v
  | VInt32 v => FormatInt v
  | VInt64 v => FormatInt v
  | VUint8 v => FormatUint v
  | VUint16 v => FormatUint v
  | VUint32 v => FormatUint v
  | VUint64 v => FormatUint v
  | VFloat32 v => FormatFloat v 32
  | VFloat64 v => FormatFloat v 64
  | VString v => v
  | VBytes v => v
  | VUint _ | VOther _ => Sprint_v castValue
  end.

Definition genKeyList (columns : list column) (dataSeq : list Value) : res string :=
  values ←? forRange dataSeq (λ i data,
    c ←? index columns i;
    Ret (columnValue data (unsigned c) (tp c)));
  Ret (Join values ",").

(** The body of the loop of [genMultipleKeys] over the visited entries. *)
Fixpoint genMultipleKeys_loop (columns : list column) (value : list Value)
    (entries : list (string * list column)) : res (list string) :=
  match entries with
  | [] => Ret []
  | (_, indexCols) :: rest =>
      '(cols, vals) ←? getColumnData columns indexCols value;
      key ←? genKeyList cols vals;
      keys ←? genMultipleKeys_loop columns value rest;
      Ret (key :: keys)
  end.

Definition genMultipleKeys (columns : list column) (value : list Value)
    (indexColumns : gmap string (list column)) : M (list string) :=
  entries ←$ range indexColumns;
  liftRes (genMultipleKeys_loop columns value entries).

Section Batch.

Variables (schema table : string).
Variable columns : list column.
Variable indexColumns : gmap string (list column).

Fixpoint genInsertSQLs_loop (columnList columnPlaceholders : string)
    (dataSeq : list (list Value))
    (sqls : list string) (keys : list (list string)) (values : list (list Value))
  : M Output :=
  match dataSeq with
  | [] => mret (Some sqls, Some keys, Some values, None)
  | data :: rest =>
      if negb (length data =? length columns)%nat then
        mret (None, None, None,
              Some (mismatch "insert columns and data" (length columns) (length data)))
      else
        value ←$ liftRes (castValues columns data);
        let sql := replaceSQL schema table columnList columnPlaceholders in
        ks ←$ genMultipleKeys columns value indexColumns;
        genInsertSQLs_loop columnList columnPlaceholders rest
          (sqls ++ [sql]) (keys ++ [ks]) (values ++ [value])
  end.

Definition genInsertSQLs (dataSeq : list (list Value)) : M Output :=
  let columnList := genColumnList columns in
  let columnPlaceholders := genColumnPlaceholders (length columns) in
  genInsertSQLs_loop columnList columnPlaceholders dataSeq [] [] [].

Fixpoint genUpdateSQLs_loop (safeMode : bool) (columnList columnPlaceholders : string)
    (data : list (list Value)) (defaultIndexColumns : slice column)
    (sqls : list string) (keys : list (list string)) (values : list (list Value))
  : M Output :=
  match data with
  | [] => mret (Some sqls, Some keys, Some values, None)
  | [_] => liftRes (Panic "index out of range")
  | oldData :: changedData :: rest =>
      if negb (length oldData =? length changedData)%nat then
        mret (None, None, None,
              Some (mismatch "update data" (length oldData) (length changedData)))
      else if negb (length oldData =? length columns)%nat then
        mret (None, None, None,
              Some (mismatch "update columns and data" (length columns) (length oldData)))
      else
        oldValues ←$ liftRes (castValues columns oldData);
        changedValues ←$ liftRes (castValues columns changedData);
        defaultIndexColumns ←$
          (if (len defaultIndexColumns =? 0)%nat
           then getAvailableIndexColumn indexColumns oldValues
           else mret defaultIndexColumns);
        ks1 ←$ genMultipleKeys columns oldValues indexColumns;
        ks2 ←$ genMultipleKeys columns changedValues indexColumns;
        let ks := ks1 ++ ks2 in
        if safeMode then
          '(sql, value) ←$
            liftRes (genDeleteSQL schema table oldValues columns defaultIndexColumns);
          let sqls := sqls ++ [sql] in
          let values := values ++ [value] in
          let keys := keys ++ [ks] in
          let sql := replaceSQL schema table columnList columnPlaceholders in
          genUpdateSQLs_loop safeMode columnList columnPlaceholders rest
            defaultIndexColumns (sqls ++ [sql]) (keys ++ [ks]) (values ++ [changedValues])
        else
          updates ←$ liftRes (forRange oldValues (λ j _,
            c ←? index columns j;
            v ←? index changedValues j;
            Ret (c, v)));
          let updateColumns := updates.*1 in
          let updateValues := updates.*2 in
          if (length updateColumns =? 0)%nat then
            genUpdateSQLs_loop safeMode columnList columnPlaceholders rest
              defaultIndexColumns sqls keys values
          else
            let kvs := genKVs updateColumns in
            let value := updateValues in
            '(whereColumns, whereValues) ←$ liftRes
              (if (0 <? len defaultIndexColumns)%nat
               then getColumnData columns (elems defaultIndexColumns) oldValues
               else Ret (columns, oldValues));
            where_ ←$ liftRes (genWhere whereColumns whereValues);
            let value := value ++ whereValues in
            let sql := "UPDATE `" +:+ schema +:+ "`.`" +:+ table +:+ "` SET " +:+ kvs
                       +:+ " WHERE " +:+ where_ +:+ " LIMIT 1;" in
            genUpdateSQLs_loop safeMode columnList columnPlaceholders rest
              defaultIndexColumns (sqls ++ [sql]) (keys ++ [ks]) (values ++ [value])
  end.

Definition genUpdateSQLs (data : list (list Value)) (safeMode : bool) : M Output :=
  let columnList := genColumnList columns in
  let columnPlaceholders := genColumnPlaceholders (length columns) in
  defaultIndexColumns ←$ findFitIndex indexColumns;
  genUpdateSQLs_loop safeMode columnList columnPlaceholders data
    defaultIndexColumns [] [] [].

Fixpoint genDeleteSQLs_loop (dataSeq : list (list Value))
    (defaultIndexColumns : slice column)
    (sqls : list string) (keys : list (list string)) (values : list (list Value))
  : M Output :=
  match dataSeq with
  | [] => mret (Some sqls, Some keys, Some values, None)
  | data :: rest =>
      if negb (length data =? length columns)%nat then
        mret (None, None, None,
              Some (mismatch "delete columns and data" (length columns) (length data)))
      else
        value ←$ liftRes (castValues columns data);
        defaultIndexColumns ←$
          (if (len defaultIndexColumns =? 0)%nat
           then getAvailableIndexColumn indexColumns value
           else mret defaultIndexColumns);
        ks ←$ genMultipleKeys columns value indexColumns;
        '(sql, value) ←$
          liftRes (genDeleteSQL schema table value columns defaultIndexColumns);
        genDeleteSQLs_loop rest defaultIndexColumns
          (sqls ++ [sql]) (keys ++ [ks]) (values ++ [value])
  end.

Definition genDeleteSQLs (dataSeq : list (list Value)) : M Output :=
  defaultIndexColumns ←$ findFitIndex indexColumns;
  genDeleteSQLs_loop dataSeq defaultIndexColumns [] [] [].

End Batch.
End Generators.

(** ** Ordinals in range *)

Definition columns_in_range (n : nat) (cols : list column) : Prop :=
  Forall (λ c, (idx c < n)%nat) cols.

Definition indexes_in_range (n : nat) (indexColumns : gmap string (list column)) : Prop :=
  map_Forall (λ _ cols, columns_in_range n cols) indexColumns.

Definition entries_in_range (n : nat) (entries : list (string * list column)) : Prop :=
  Forall (λ e, columns_in_range n e.2) entries.

(** ** Selection predicates *)

(** The two predicates of the source. *)
Definition fitFn : column → res bool := λ c, Ret (negb (NotNull c)).
Definition availableFn (data : list Value) : column → res bool :=
  λ c, d ←? index data (idx c); Ret (isNil d).

(** An index qualifies for [fn] when it has a column and [fn] is false of
    each of its columns. *)
Definition qualifies (fn : column → res bool) (cols : list column) : Prop :=
  cols ≠ [] ∧ Forall (λ c, fn c = Ret false) cols.

(** Among the indexes of a catalog at most one column list satisfies [P]. *)
Definition at_most_one (P : list column → Prop)
    (indexColumns : gmap string (list column)) : Prop :=
  ∀ name1 name2 cols1 cols2,
    indexColumns !! name1 = Some cols1 → indexColumns !! name2 = Some cols2 →
    P cols1 → P cols2 → cols1 = cols2.

(** Schema fit: a column, and every column declared not null. *)
Definition schemaFit (cols : list column) : Prop :=
  cols ≠ [] ∧ Forall (λ c, NotNull c = true) cols.

(** Available in a row: a column, and every column holding a non-nil value
    of the row. *)
Definition rowAvailable (data : list Value) (cols : list column) : Prop :=
  cols ≠ [] ∧ Forall (λ c, ∃ d, data !! idx c = Some d ∧ d ≠ VNil) cols.

#[global] Instance column_inhabited : Inhabited column :=
  populate (Column 0 "" false false "").
#[global] Instance Value_inhabited : Inhabited Value := populate VNil.

(** ** Clauses, as the specification words them

    One predicate per column, [`name` op ?], joined by a separator; the
    operator of the specification is "IS" for a nil bound value and "="
    otherwise. *)

Definition predicate (op : string) (c : column) : string :=
  "`" +:+ name c +:+ "` " +:+ op +:+ " ?".

Definition nullAwareOp (d : Value) : string := if isNil d then "IS" else "=".

Definition clause (op : Value → string) (sep : string)
    (columns : list column) (data : list Value) : string :=
  Join (zip_with (λ c d, predicate (op d) c) columns data) sep.

(** ** Update batches, as the specification words them

    An update batch is a sequence of before/after pairs; the source receives
    it flattened, the before-state of a pair at an even position and its
    after-state at the next one. *)

Definition flattenPairs (pairs : list (list Value * list Value)) : list (list Value) :=
  flat_map (λ p, [p.1; p.2]) pairs.

(** What the translation of one update pair rests on: the casted before- and
    after-state, the columns and values of the WHERE clause, and the
    identity keys. *)
Record pairRun : Type := PairRun {
  oldValues : list Value;
  changedValues : list Value;
  whereColumns : list column;
  whereValues : list Value;
  pairKeys : list string
}.

Definition deleteText (schema table : string) (f : pairRun) : string :=
  "DELETE FROM `" +:+ schema +:+ "`.`" +:+ table +:+ "` WHERE "
  +:+ clause nullAwareOp " AND " (whereColumns f) (whereValues f) +:+ " LIMIT 1;".

Definition updateText (schema table : string) (columns : list column) (f : pairRun)
  : string :=
  "UPDATE `" +:+ schema +:+ "`.`" +:+ table +:+ "` SET "
  +:+ clause (λ _, "=") ", " columns (changedValues f)
  +:+ " WHERE " +:+ clause nullAwareOp " AND " (whereColumns f) (whereValues f)
  +:+ " LIMIT 1;".

(** The statements, keys and values of one pair: in safe mode a DELETE and
    a REPLACE under the same keys, otherwise one UPDATE, or nothing when the
    SET list is empty. *)
Definition pairSQLs (schema table : string) (columns : list column) (safeMode : bool)
    (f : pairRun) : list string :=
  if safeMode then
    [deleteText schema table f;
     replaceSQL schema table (genColumnList columns)
       (genColumnPlaceholders (length columns))]
  else if (length columns =? 0)%nat then []
  else [updateText schema table columns f].

Definition pairKeyLists (columns : list column) (safeMode : bool) (f : pairRun)
  : list (list string) :=
  if safeMode then [pairKeys f; pairKeys f]
  else if (length columns =? 0)%nat then []
  else [pairKeys f].

Definition pairValues (columns : list column) (safeMode : bool) (f : pairRun)
  : list (list Value) :=
  if safeMode then [whereValues f; changedValues f]
  else if (length columns =? 0)%nat then []
  else [changedValues f ++ whereValues f].

(** A selection is nil or an index of the catalog that has a column. *)
Definition selected (indexColumns : gmap string (list column)) (d : slice column) : Prop :=
  d = None ∨ ∃ name c cols, indexColumns !! name = Some (c :: cols) ∧ d = Some (c :: cols).

Definition noFitIndex (indexColumns : gmap string (list column)) : Prop :=
  ∀ name cols, indexColumns !! name = Some cols → ¬ schemaFit cols.

Definition noAvailableIndex (indexColumns : gmap string (list column))
    (value : list Value) : Prop :=
  ∀ name cols, indexColumns !! name = Some cols → ¬ rowAvailable value cols.

(** What the loops of the batch generators keep of [defaultIndexColumns]
    from one row to the next: a selection, nil only when the catalog has no
    schema-fit index. *)
Definition carried (indexColumns : gmap string (list column)) (d : slice column) : Prop :=
  selected indexColumns d ∧ (d = None → noFitIndex indexColumns).

(** The index in effect for a row: a selection, nil only when the catalog
    has no schema-fit index and no index is available in the row. *)
Definition inEffect (indexColumns : gmap string (list column)) (value : list Value)
    (d : slice column) : Prop :=
  selected indexColumns d
  ∧ (d = None → noFitIndex indexColumns ∧ noAvailableIndex indexColumns value).

(** The basis of a WHERE clause: the columns of the index in effect with the
    values of the row at their ordinals, or every column with the whole row
    when no index is in effect. *)
Definition whereBasis (columns : list column) (d : slice column) (value : list Value)
    (wc : list column) (wv : list Value) : Prop :=
  if (0 <? len d)%nat
  then wc = elems d ∧ Forall2 (λ c v, value !! idx c = Some v) wc wv
  else wc = columns ∧ wv = value.

(** [f] describes a translation of the pair [p]. *)
Definition pairRunOf (FormatFloat : Z → Z → string) (Sprint_v : Value → string)
    (columns : list column) (indexColumns : gmap string (list column))
    (p : list Value * list Value) (f : pairRun) : Prop :=
  castValues columns p.1 = Ret (oldValues f)
  ∧ castValues columns p.2 = Ret (changedValues f)
  ∧ (∃ d, inEffect indexColumns (oldValues f) d
          ∧ whereBasis columns d (oldValues f) (whereColumns f) (whereValues f))
  ∧ (∃ k1 k2 s1 s1' s2 s2',
       genMultipleKeys FormatFloat Sprint_v columns (oldValues f) indexColumns s1
         = Ret (k1, s1')
       ∧ genMultipleKeys FormatFloat Sprint_v columns (changedValues f) indexColumns s2
         = Ret (k2, s2')
       ∧ pairKeys f = k1 ++ k2).





(** The outcome of a batch with a structural mismatch: the error and nil
    statements, keys and values. *)
Definition isMismatch (out : Output) : Prop :=
  ∃ msg, out = (None, None, None, Some msg).

(** ** Sample tables

    The table of the specification's end-to-end examples, and tables with
    two unique keys and no primary key. *)

Definition col_id : column := Column 0 "id" true true "int(11) unsigned".
Definition col_name : column := Column 1 "name" false false "varchar(20)".
Definition t_columns : list column := [col_id; col_name].
Definition t_indexes : gmap string (list column) := {[ "primary" := [col_id] ]}.

(** Two nullable columns, each under a unique key. *)
Definition col_a : column := Column 0 "a" false false "int(11)".
Definition col_b : column := Column 1 "b" false false "int(11)".
Definition ab_columns : list column := [col_a; col_b].
Definition ab_indexes : gmap string (list column) :=
  {[ "ua" := [col_a]; "ub" := [col_b] ]}.

(** Two not-null columns, each under a unique key. *)
Definition col_x : column := Column 0 "x" true false "int(11)".
Definition col_y : column := Column 1 "y" true false "int(11)".
Definition xy_columns : list column := [col_x; col_y].
Definition xy_indexes : gmap string (list column) :=
  {[ "ux" := [col_x]; "uy" := [col_y] ]}.

(** An empty primary key next to a unique key. *)
Definition empty_primary_indexes : gmap string (list column) :=
  {[ "primary" := []; "ux" := [col_x] ]}.

(** Formatting functions for the runs of the samples, which hold no float
    and no value of another kind. *)
Definition sampleFormatFloat : Z → Z → string := λ _ _, "float".
Definition sampleSprint_v : Value → string := λ _, "value".

(** ** Keys, entry by entry *)

(** The key of one index, as the body of the loop of [genMultipleKeys]
    computes it. *)
Definition keyOf (FormatFloat : Z → Z → string) (Sprint_v : Value → string)
    (columns : list column) (value : list Value) (indexCols : list column)
  : res string :=
  '(cols, vals) ←? getColumnData columns indexCols value;
  genKeyList FormatFloat Sprint_v cols vals.

(** Every column of every index is the column of the catalog at its
    ordinal. *)
Definition indexes_of_catalog (columns : list column)
    (indexColumns : gmap string (list column)) : Prop :=
  map_Forall (λ _ cols, Forall (λ c, columns !! idx c = Some c) cols) indexColumns.

(** ** Resolving index column names *)

(** [findColumn]: the first column of that name, [None] for the nil
    pointer. *)
Fixpoint findColumn (columns : list column) (indexColumn : string) : option column :=
  match columns with
  | [] => None
  | column :: rest =>
      if bool_decide (name column = indexColumn) then Some column
      else findColumn rest indexColumn
  end.

(** The inner loop of [findColumns]: the columns found for the names of one
    index, the names not found left out. *)
Fixpoint findColumns_cols (columns : list column) (indexCols : list string)
  : list column :=
  match indexCols with
  | [] => []
  | colName :: rest =>
      match findColumn columns colName with
      | Some column => column :: findColumns_cols columns rest
      | None => findColumns_cols columns rest
      end
  end.

(** The outer loop of [findColumns] over the visited entries, writing
    [result[keyName] = cols]. *)
Fixpoint findColumns_loop (columns : list column)
    (entries : list (string * list string)) (result : gmap string (list column))
  : gmap string (list column) :=
  match entries with
  | [] => result
  | (keyName, indexCols) :: rest =>
      findColumns_loop columns rest
        (<[keyName := findColumns_cols columns indexCols]> result)
  end.

Definition findColumns (columns : list column)
    (indexColumns : gmap string (list string)) : M (gmap string (list column)) :=
  entries ←$ range indexColumns;
  mret (findColumns_loop columns entries ∅).

(** A catalog whose columns sit at their ordinals. *)
Definition catalog_ordered (columns : list column) : Prop :=
  ∀ i c, columns !! i = Some c → idx c = i.

(** ** Outputs of the batch generators *)

(** Statements, keys and values of equal length, with no error. *)
Definition alignedOutput (out : Output) : Prop :=
  ∃ sqls keys values,
    out = (Some sqls, Some keys, Some values, None)
    ∧ length sqls = length keys ∧ length keys = length values.

(** What the translation of one row of a delete batch rests on: the casted
    row, the index in effect, the columns and values of the WHERE clause and
    the keys. *)
Record rowRun : Type := RowRun {
  rowValue : list Value;
  rowIndex : slice column;
  rowWhereColumns : list column;
  rowWhereValues : list Value;
  rowKeys : list string
}.

Definition deleteRunOf (FormatFloat : Z → Z → string) (Sprint_v : Value → string)
    (columns : list column) (indexColumns : gmap string (list column))
    (data : list Value) (r : rowRun) : Prop :=
  castValues columns data = Ret (rowValue r)
  ∧ inEffect indexColumns (rowValue r) (rowIndex r)
  ∧ whereBasis columns (rowIndex r) (rowValue r) (rowWhereColumns r) (rowWhereValues r)
  ∧ length (rowWhereColumns r) = length (rowWhereValues r)
  ∧ ∃ s s',
      genMultipleKeys FormatFloat Sprint_v columns (rowValue r) indexColumns s
      = Ret (rowKeys r, s').

Definition deleteStmt (schema table : string) (r : rowRun) : string :=
  "DELETE FROM `" +:+ schema +:+ "`.`" +:+ table +:+ "` WHERE "
  +:+ clause nullAwareOp " AND " (rowWhereColumns r) (rowWhereValues r)
  +:+ " LIMIT 1;".

(** The indexes in effect from row to row, [d] being the one before the
    first row: once it is not nil it stays the same. *)
Fixpoint sticky (d : slice column) (ds : list (slice column)) : Prop :=
  match ds with
  | [] => True
  | d1 :: rest => (d ≠ None → d1 = d) ∧ sticky d1 rest
  end.

(** ** Counting in statement text *)

(** The number of occurrences of a character in a text. *)
Fixpoint countChar (c : Ascii.ascii) (s : string) : nat :=
  match s with
  | EmptyString => 0
  | String a s' => (if bool_decide (a = c) then 1 else 0) + countChar c s'
  end.

(** Index names before resolution, one of them with a column the catalog
    does not have. *)
Definition t_index_names : gmap string (list string) :=
  {[ "primary" := ["id"]; "uk" := ["name"; "missing"] ]}.

(** ** Column mapping *)

(** [l[i] = x] *)
Definition assign {A} (l : list A) (i : nat) (x : A) : res (list A) :=
  if (i <? length l)%nat then Ret (<[i := x]> l) else Panic "index out of range".

Section Mapping.

(** The error values, [errors.Trace] and the positions that
    [HandleRowValue] returns beside the row and that [mappingDML] drops: the
    column-mapping package is not part of this repository. *)
Variable error : Type.
Variable Trace : error → error.
Variable Aux : Type.

(** [HandleRowValue(schema, table, columns, row)] of a column mapping. *)
Definition Mapping : Type :=
  string → string → list string → list Value → list Value * Aux * option error.

Fixpoint mappingDML_loop (h : Mapping) (schema table : string) (columns : list string)
    (i : nat) (data : list (list Value)) (rows : list (list Value))
  : res (slice (list Value) * option error) :=
  match data with
  | [] => Ret (Some rows, None)
  | row :: rest =>
      let '(mapped, _, err) := h schema table columns row in
      rows ←? assign rows i mapped;
      match err with
      | Some e => Ret (None, Some (Trace e))
      | None => mappingDML_loop h schema table columns (S i) rest rows
      end
  end.

(** [columnMapping] is the field of the syncer, [None] when it is nil. *)
Definition mappingDML (columnMapping : option Mapping) (schema table : string)
    (columns : list string) (data : list (list Value))
  : res (slice (list Value) * option error) :=
  match columnMapping with
  | None => Ret (Some data, None)
  | Some h =>
      let rows := replicate (length data) [] in
      mappingDML_loop h schema table columns 0 data rows
  end.

End Mapping.

(** A mapping that fails on empty rows and prefixes the others with nil. *)
Definition sampleMapping : Mapping string unit :=
  λ _ _ _ row,
    match row with
    | [] => ([], tt, Some "empty row")
    | _ => (VNil :: row, tt, None)
    end.

(** * Properties *)

(** ** Outcomes and loops *)

Lemma index_lt {A} (l : list A) (i : nat) :
  (i < length l)%nat → ∃ a, index l i = Ret a ∧ l !! i = Some a.
Proof.
  intros Hi. destruct (lookup_lt_is_Some_2 l i Hi) as [a Ha].
  exists a. unfold index. by rewrite Ha.
Qed.

Lemma index_Ret {A} (l : list A) (i : nat) (a : A) :
  index l i = Ret a ↔ l !! i = Some a.
Proof.
  unfold index. destruct (l !! i); split; intros H; by simplify_eq.
Qed.

Section forRange_facts.
Context {A B : Type}.
Implicit Types (l : list A) (body : nat → A → res B).

Lemma forRange_from_length i l body bs :
  forRange_from i l body = Ret bs → length bs = length l.
Proof.
  revert i bs. induction l as [|a l IH]; intros i bs; simpl.
  - intros. by simplify_eq.
  - destruct (body i a) as [b|]; simpl; [|done].
    destruct (forRange_from (S i) l body) as [bs'|] eqn:E; simpl; [|done].
    intros. simplify_eq. simpl. f_equal. by eapply IH.
Qed.

Lemma forRange_from_total i l body :
  (∀ j a, l !! j = Some a → ∃ b, body (i + j)%nat a = Ret b) →
  ∃ bs, forRange_from i l body = Ret bs.
Proof.
  revert i. induction l as [|a l IH]; intros i Hbody; simpl.
  - by eexists.
  - destruct (Hbody 0%nat a eq_refl) as [b Hb].
    rewrite Nat.add_0_r in Hb. rewrite Hb. simpl.
    destruct (IH (S i)) as [bs Hbs].
    { intros j a' Hj. destruct (Hbody (S j) a' Hj) as [b' Hb'].
      exists b'. by replace (S i + j)%nat with (i + S j)%nat by lia. }
    rewrite Hbs. simpl. by eexists.
Qed.

Lemma forRange_from_ext i l body (g : nat → A → B) :
  (∀ j a, l !! j = Some a → body (i + j)%nat a = Ret (g (i + j)%nat a)) →
  forRange_from i l body = Ret (imap (λ j, g (i + j)%nat) l).
Proof.
  revert i. induction l as [|a l IH]; intros i Hbody; simpl; [done|].
  pose proof (Hbody 0%nat a eq_refl) as Hb.
  rewrite Nat.add_0_r in Hb. rewrite Hb. simpl.
  rewrite (IH (S i)).
  - simpl. rewrite Nat.add_0_r. do 2 f_equal.
    apply imap_ext. intros j a' _. simpl.
    by replace (S (i + j))%nat with (i + S j)%nat by lia.
  - intros j a' Hj. replace (S i + j)%nat with (i + S j)%nat by lia.
    by apply (Hbody (S j)).
Qed.

Lemma forRange_length l body bs :
  forRange l body = Ret bs → length bs = length l.
Proof. apply forRange_from_length. Qed.

Lemma forRange_total l body :
  (∀ j a, l !! j = Some a → ∃ b, body j a = Ret b) →
  ∃ bs, forRange l body = Ret bs.
Proof. intros H. by apply forRange_from_total. Qed.

Lemma forRange_ext l body (g : nat → A → B) :
  (∀ j a, l !! j = Some a → body j a = Ret (g j a)) →
  forRange l body = Ret (imap g l).
Proof. intros H. by apply (forRange_from_ext 0 l body g). Qed.
End forRange_facts.

(** ** The visiting order of a map *)

Lemma range_order_perm {A} (seed : nat) (l : list A) : range_order seed l ≡ₚ l.
Proof.
  unfold range_order. destruct (permutations l !! seed) as [l'|] eqn:E; simpl; [|done].
  symmetry. apply permutations_Permutation. by eapply list_elem_of_lookup_2.
Qed.

Lemma range_order_complete {A} (l l' : list A) :
  l' ≡ₚ l → ∃ seed, range_order seed l = l'.
Proof.
  intros Hp. symmetry in Hp. apply permutations_Permutation in Hp.
  apply list_elem_of_lookup_1 in Hp as [i Hi].
  exists i. unfold range_order. by rewrite Hi.
Qed.

Lemma range_visits {V} (m : gmap string V) (seeds : Sched) :
  ∃ entries seeds',
    range m seeds = Ret (entries, seeds') ∧ entries ≡ₚ map_to_list m.
Proof.
  destruct seeds as [|seed seeds]; simpl; do 2 eexists; split; try done;
    apply range_order_perm.
Qed.

(** Each order of the entries is the one some scheduler picks. *)
Lemma range_any_order {V} (m : gmap string V) (entries : list (string * V)) :
  entries ≡ₚ map_to_list m →
  ∃ seed, ∀ seeds, range m (seed :: seeds) = Ret (entries, seeds).
Proof.
  intros Hp. destruct (range_order_complete _ _ Hp) as [seed Hseed].
  exists seed. intros seeds. simpl. by rewrite Hseed.
Qed.

(** ** Ordinals in range *)

Lemma indexes_in_range_entries n indexColumns entries :
  indexes_in_range n indexColumns →
  entries ≡ₚ map_to_list indexColumns →
  entries_in_range n entries.
Proof.
  intros Hm Hp. unfold entries_in_range. rewrite Hp.
  apply map_Forall_to_list in Hm.
  eapply Forall_impl; [exact Hm|]. by intros [??].
Qed.

(** ** Unsigned casting *)

Ltac split_ltb :=
  repeat match goal with
         | |- context [(?a <? ?b)%Z] => destruct (Z.ltb_spec a b); try lia
         end.

(** Putting the three low bytes of a little-endian buffer back together
    gives the value modulo [2^24]. *)
Lemma low_three_bytes (x : Z) :
  Z.lor (Z.lor (to_uint32 (Z.land x 255))
               (to_uint32 (Z.shiftl (to_uint32 (Z.land (Z.shiftr x 8) 255)) 8)))
        (to_uint32 (Z.shiftl (to_uint32 (Z.land (Z.shiftr x 16) 255)) 16))
  = x mod 2 ^ 24.
Proof.
  unfold to_uint32. change 255 with (Z.ones 8).
  apply Z.bits_inj'. intros n Hn.
  rewrite !Z.lor_spec, !Z.testbit_mod_pow2 by lia.
  rewrite !Z.shiftl_spec by lia.
  rewrite !Z.testbit_mod_pow2 by lia.
  rewrite !Z.land_spec.
  destruct (Z.ltb_spec n 8); [|destruct (Z.ltb_spec n 16); [|destruct (Z.ltb_spec n 24)]].
  - rewrite !(Z.testbit_neg_r _ (n - 8)), !(Z.testbit_neg_r _ (n - 16)) by lia.
    rewrite Z.testbit_ones_nonneg by lia.
    split_ltb. destruct (Z.testbit x n); reflexivity.
  - rewrite !(Z.testbit_neg_r _ (n - 16)) by lia.
    rewrite !Z.shiftr_spec by lia.
    rewrite !Z.testbit_ones_nonneg by lia.
    replace (n - 8 + 8) with n by lia.
    split_ltb. destruct (Z.testbit x n); reflexivity.
  - rewrite !Z.shiftr_spec by lia.
    rewrite !Z.testbit_ones_nonneg by lia.
    replace (n - 8 + 8) with n by lia. replace (n - 16 + 16) with n by lia.
    split_ltb. destruct (Z.testbit x n); reflexivity.
  - rewrite !Z.shiftr_spec by lia.
    rewrite !Z.testbit_ones_nonneg by lia.
    split_ltb.
    all: rewrite ?andb_false_r; try reflexivity.
Qed.

Lemma mod_24_of_uint32 (v : Z) : to_uint32 v mod 2 ^ 24 = v mod 2 ^ 24.
Proof.
  unfold to_uint32. apply Z.bits_inj'. intros n Hn.
  rewrite !Z.testbit_mod_pow2 by lia.
  split_ltb; reflexivity.
Qed.

(** C2: for a 32-bit value of an unsigned column whose type name contains
    "mediumint" in any letter case, [castUnsigned] returns the unsigned
    24-bit number held by the three low bytes of the value, that is the value
    modulo [2^24]; at -4692783 this is 12084433 and not 4290274513. *)
Theorem castUnsigned_mediumint_low_bytes (v : Z) (tp : string) :
  Contains (ToLower tp) "mediumint" = true →
  castUnsigned (VInt32 v) true tp = VUint32 (v mod 2 ^ 24)
  ∧ (v = -4692783 →
     castUnsigned (VInt32 v) true tp = VUint32 12084433
     ∧ castUnsigned (VInt32 v) true tp ≠ VUint32 4290274513).
Proof.
  intros Htp.
  assert (castUnsigned (VInt32 v) true tp = VUint32 (v mod 2 ^ 24)) as Hcast.
  { unfold castUnsigned. simpl negb. cbv iota. rewrite Htp.
    unfold PutUint32. cbn [lookup_total list_lookup_total].
    f_equal. rewrite low_three_bytes. apply mod_24_of_uint32. }
  split; [exact Hcast|].
  intros ->. rewrite Hcast. split; [reflexivity|]. intros H. by inversion H.
Qed.

Lemma castUnsigned_mediumint_low_bytes_witness :
  Contains (ToLower "MEDIUMINT(8) unsigned") "mediumint" = true
  ∧ castUnsigned (VInt32 (-4692783)) true "MEDIUMINT(8) unsigned" = VUint32 12084433.
Proof.
  split; [reflexivity|].
  apply (castUnsigned_mediumint_low_bytes (-4692783) "MEDIUMINT(8) unsigned");
    reflexivity.
Defined.

(** ** Index selection *)

Lemma anyColumn_false (fn : column → res bool) (cols : list column) :
  anyColumn fn cols = Ret false ↔ Forall (λ c, fn c = Ret false) cols.
Proof.
  induction cols as [|c cols IH]; simpl.
  - split; [constructor|done].
  - destruct (fn c) as [[]|] eqn:E; simpl.
    + split; [done|]. intros H. inversion H; congruence.
    + rewrite IH. split; [by constructor|]. intros H. by inversion H.
    + split; [done|]. intros H. inversion H; congruence.
Qed.

Lemma anyColumn_total (fn : column → res bool) (cols : list column) :
  Forall (λ c, ∃ b, fn c = Ret b) cols → ∃ b, anyColumn fn cols = Ret b.
Proof.
  induction 1 as [|c cols [b Hb] _ IH]; simpl; [by eexists|].
  rewrite Hb. simpl. destruct b; [by eexists|done].
Qed.

Lemma scanIndexes_Some fn entries cols :
  scanIndexes entries fn = Ret (Some cols) →
  qualifies fn cols ∧ ∃ name, (name, cols) ∈ entries.
Proof.
  induction entries as [|[name indexCols] entries IH]; simpl; [done|].
  destruct (Nat.eqb_spec (length indexCols) 0) as [Hlen|Hlen].
  - intros H. destruct (IH H) as [? [name' ?]].
    split; [done|]. exists name'. by right.
  - destruct (anyColumn fn indexCols) as [[]|] eqn:E; simpl; [| |done].
    + intros H. destruct (IH H) as [? [name' ?]].
      split; [done|]. exists name'. by right.
    + intros [= <-]. split.
      * split; [by destruct indexCols|]. by apply anyColumn_false.
      * exists name. by left.
Qed.

Lemma scanIndexes_None fn entries name cols :
  scanIndexes entries fn = Ret None →
  (name, cols) ∈ entries → ¬ qualifies fn cols.
Proof.
  induction entries as [|[name' indexCols] entries IH]; simpl.
  - intros _ H. by apply elem_of_nil in H.
  - intros Hscan Hin [Hne Hall]. apply elem_of_cons in Hin as [Heq|Hin].
    + injection Heq as <- <-.
      destruct (Nat.eqb_spec (length cols) 0) as [Hlen|Hlen].
      { by destruct cols. }
      apply anyColumn_false in Hall. rewrite Hall in Hscan. by simpl in Hscan.
    + destruct (Nat.eqb_spec (length indexCols) 0) as [Hlen|Hlen].
      { by apply IH. }
      destruct (anyColumn fn indexCols) as [[]|]; simpl in Hscan; [|done..].
      by apply IH.
Qed.

Lemma scanIndexes_total fn entries :
  Forall (λ e, Forall (λ c, ∃ b, fn c = Ret b) e.2) entries →
  ∃ r, scanIndexes entries fn = Ret r.
Proof.
  induction 1 as [|[name indexCols] entries Hfn _ IH]; simpl; [by eexists|].
  destruct (length indexCols =? 0)%nat; [done|].
  destruct (anyColumn_total fn indexCols Hfn) as [b ->]. simpl.
  destruct b; simpl; [done|by eexists].
Qed.

Lemma scanIndexes_order_irrelevant fn indexColumns entries1 entries2 r1 r2 :
  at_most_one (qualifies fn) indexColumns →
  entries1 ≡ₚ map_to_list indexColumns →
  entries2 ≡ₚ map_to_list indexColumns →
  scanIndexes entries1 fn = Ret r1 →
  scanIndexes entries2 fn = Ret r2 →
  r1 = r2.
Proof.
  intros Hone Hp1 Hp2 H1 H2.
  destruct r1 as [cols1|], r2 as [cols2|]; [| | |done].
  - apply scanIndexes_Some in H1 as [Hq1 [n1 Hin1]].
    apply scanIndexes_Some in H2 as [Hq2 [n2 Hin2]].
    rewrite Hp1 in Hin1. rewrite Hp2 in Hin2.
    apply elem_of_map_to_list in Hin1, Hin2.
    f_equal. by eapply Hone.
  - apply scanIndexes_Some in H1 as [Hq1 [n1 Hin1]].
    rewrite Hp1, <- Hp2 in Hin1.
    by destruct (scanIndexes_None _ _ _ _ H2 Hin1).
  - apply scanIndexes_Some in H2 as [Hq2 [n2 Hin2]].
    rewrite Hp2, <- Hp1 in Hin2.
    by destruct (scanIndexes_None _ _ _ _ H1 Hin2).
Qed.

Lemma getSpecifiedIndexColumn_inv indexColumns fn seeds r seeds' :
  getSpecifiedIndexColumn indexColumns fn seeds = Ret (r, seeds') →
  ∃ entries, entries ≡ₚ map_to_list indexColumns ∧ scanIndexes entries fn = Ret r.
Proof.
  unfold getSpecifiedIndexColumn, mbind', liftRes.
  destruct (range_visits indexColumns seeds) as (entries & s & -> & Hp).
  destruct (scanIndexes entries fn) as [r'|] eqn:E; [|done].
  intros. simplify_eq. by exists entries.
Qed.

Lemma getSpecifiedIndexColumn_total indexColumns fn seeds :
  map_Forall (λ _ cols, Forall (λ c, ∃ b, fn c = Ret b) cols) indexColumns →
  ∃ r seeds', getSpecifiedIndexColumn indexColumns fn seeds = Ret (r, seeds').
Proof.
  intros Hfn. unfold getSpecifiedIndexColumn, mbind', liftRes.
  destruct (range_visits indexColumns seeds) as (entries & s & -> & Hp).
  destruct (scanIndexes_total fn entries) as [r ->]; [|by do 2 eexists].
  rewrite Hp. apply map_Forall_to_list in Hfn.
  eapply Forall_impl; [exact Hfn|]. by intros [??].
Qed.

Lemma fitFn_total (indexColumns : gmap string (list column)) :
  map_Forall (λ _ cols, Forall (λ c, ∃ b, fitFn c = Ret b) cols) indexColumns.
Proof.
  intros name cols _. apply Forall_forall. intros c _. by eexists.
Qed.

Lemma availableFn_total indexColumns data :
  indexes_in_range (length data) indexColumns →
  map_Forall (λ _ cols, Forall (λ c, ∃ b, availableFn data c = Ret b) cols) indexColumns.
Proof.
  intros Hr name cols Hcols. specialize (Hr name cols Hcols). simpl in Hr.
  eapply Forall_impl; [exact Hr|]. intros c Hc. simpl in Hc.
  destruct (index_lt data (idx c) Hc) as (d & Hd & _).
  unfold availableFn. rewrite Hd. simpl. by eexists.
Qed.

Lemma qualifies_fitFn cols : qualifies fitFn cols ↔ schemaFit cols.
Proof.
  unfold qualifies, schemaFit, fitFn. apply and_iff_compat_l.
  apply Forall_proper; [|done]. intros c.
  destruct (NotNull c); simpl; split; intros H; by simplify_eq.
Qed.

Lemma qualifies_availableFn data cols :
  qualifies (availableFn data) cols ↔ rowAvailable data cols.
Proof.
  unfold qualifies, rowAvailable, availableFn. apply and_iff_compat_l.
  apply Forall_proper; [|done]. intros c. unfold index.
  destruct (data !! idx c) as [d|]; simpl.
  - split.
    + intros H. exists d. split; [done|]. intros ->. by simplify_eq.
    + intros (d' & Hd & Hne). simplify_eq. by destruct d'.
  - split; [done|]. by intros (d' & Hd & _).
Qed.

Lemma findFitIndex_unfold indexColumns :
  findFitIndex indexColumns =
    match indexColumns !! "primary" with
    | Some cols =>
        if (length cols =? 0)%nat then getSpecifiedIndexColumn indexColumns fitFn
        else mret (Some cols)
    | None => getSpecifiedIndexColumn indexColumns fitFn
    end.
Proof. reflexivity. Qed.

Lemma findFitIndex_total indexColumns seeds :
  ∃ r seeds', findFitIndex indexColumns seeds = Ret (r, seeds').
Proof.
  rewrite findFitIndex_unfold.
  destruct (indexColumns !! "primary") as [cols|];
    [destruct (length cols =? 0)%nat|];
    try (apply getSpecifiedIndexColumn_total, fitFn_total).
  by do 2 eexists.
Qed.

(** C9: index selection returns nil or an index with at least one column:
    [findFitIndex] returns, and what it and [getAvailableIndexColumn] return
    is nil or a non-empty column list (an empty primary index and other
    empty entries are passed over); a DELETE built on a selected index binds
    one value per column of the index, at least one. *)
Theorem selected_index_has_a_column
    (indexColumns : gmap string (list column)) (data : list Value) (seeds : Sched) :
  (∃ r seeds', findFitIndex indexColumns seeds = Ret (r, seeds')
               ∧ (r = None ∨ ∃ c cols, r = Some (c :: cols)))
  ∧ (∀ r seeds', getAvailableIndexColumn indexColumns data seeds = Ret (r, seeds')
                 → r = None ∨ ∃ c cols, r = Some (c :: cols))
  ∧ (∀ schema table columns c cols sql whereValues,
       genDeleteSQL schema table data columns (Some (c :: cols)) = Ret (sql, whereValues)
       → length whereValues = S (length cols)).
Proof.
  assert (∀ fn r seeds', getSpecifiedIndexColumn indexColumns fn seeds = Ret (r, seeds')
                         → r = None ∨ ∃ c cols, r = Some (c :: cols)) as Hsel.
  { intros fn r seeds' H.
    apply getSpecifiedIndexColumn_inv in H as (entries & _ & Hscan).
    destruct r as [cols|]; [|by left]. right.
    apply scanIndexes_Some in Hscan as [[Hne _] _].
    destruct cols as [|c cols]; [done|]. by do 2 eexists. }
  split; [|split].
  - destruct (findFitIndex_total indexColumns seeds) as (r & seeds' & Hr).
    exists r, seeds'. split; [done|].
    rewrite findFitIndex_unfold in Hr.
    destruct (indexColumns !! "primary") as [cols|]; [|by eapply Hsel].
    destruct cols as [|c cols]; simpl in Hr; [by eapply Hsel|].
    unfold mret in Hr. simplify_eq. right. by do 2 eexists.
  - intros r seeds' H. by eapply Hsel.
  - intros schema table columns c cols sql whereValues.
    unfold genDeleteSQL. simpl.
    destruct (getColumnData columns (c :: cols) data) as [[wc wv]|] eqn:E; simpl; [|done].
    destruct (genWhere wc wv); simpl; [|done]. intros [= _ <-].
    unfold getColumnData in E.
    destruct (forRange (c :: cols) _) as [vs|] eqn:Evs; simpl in E; [|done].
    injection E as _ <-. by apply forRange_length in Evs.
Qed.

Lemma selected_index_has_a_column_witness :
  findFitIndex empty_primary_indexes [] = Ret (Some [col_x], [])
  ∧ (Some [col_a] = None ∨ ∃ c cols, Some [col_a] = Some (c :: cols))
  ∧ length [VInt32 7] = 1%nat.
Proof.
  destruct (selected_index_has_a_column ab_indexes [VInt32 7; VNil] [])
    as (_ & Havail & Hdel).
  split; [reflexivity|]. split.
  - apply (Havail (Some [col_a]) []). reflexivity.
  - apply (Hdel "db" "t" ab_columns col_a []
             "DELETE FROM `db`.`t` WHERE `a` = ? LIMIT 1;" [VInt32 7]).
    reflexivity.
Defined.

(** ** Projection of a row on an index *)

Lemma getColumnData_inv columns indexCols data cols vals :
  getColumnData columns indexCols data = Ret (cols, vals) →
  cols = indexCols ∧ length vals = length indexCols.
Proof.
  unfold getColumnData.
  destruct (forRange indexCols _) as [vs|] eqn:E; simpl; [|done].
  intros [= <- <-]. split; [done|]. by apply forRange_length in E.
Qed.

Lemma getColumnData_total columns indexCols data :
  columns_in_range (length data) indexCols →
  ∃ vals, getColumnData columns indexCols data = Ret (indexCols, vals).
Proof.
  intros Hr. unfold getColumnData.
  destruct (forRange_total indexCols (λ _ column, index data (idx column)))
    as [vs ->]; [|by eexists].
  intros j c Hj.
  assert (idx c < length data)%nat as Hc.
  { eapply (Forall_lookup_1 _ _ _ _ Hr Hj). }
  destruct (index_lt data (idx c) Hc) as (d & Hd & _). by exists d.
Qed.

(** The values only: every ordinal of the index names a position of the
    row. *)
Lemma getColumnData_values columns indexCols data :
  columns_in_range (length data) indexCols →
  ∃ vals, getColumnData columns indexCols data = Ret (indexCols, vals)
          ∧ Forall2 (λ c d, data !! idx c = Some d) indexCols vals.
Proof.
  intros Hr. unfold getColumnData.
  induction Hr as [|c cols Hc Hr IH].
  - exists []. split; [done|constructor].
  - destruct IH as (vals & IH & Hvals).
    destruct (index_lt data (idx c) Hc) as (d & Hd & Hd').
    exists (d :: vals). unfold forRange in *. simpl. rewrite Hd. simpl.
    destruct (forRange_from 0 cols _) as [vs|] eqn:E0; simpl in IH; [|done].
    injection IH as ->.
    assert (forRange_from 1 cols (λ _ column, index data (idx column)) = Ret vals) as ->.
    { clear -E0. revert E0. generalize 0%nat at 1. generalize 1%nat.
      revert vals. induction cols as [|c cols IH]; intros vals i j; simpl; [done|].
      destruct (index data (idx c)); simpl; [|done].
      destruct (forRange_from (S j) cols _) as [vs|] eqn:E; simpl; [|done].
      intros [= <-]. by rewrite (IH vs (S i) (S j) E). }
    simpl. split; [done|by constructor].
Qed.

Section KeyFacts.

Variable FF : Z → Z → string.
Variable SV : Value → string.

Lemma genKeyList_total columns dataSeq :
  (length dataSeq ≤ length columns)%nat →
  ∃ key, genKeyList FF SV columns dataSeq = Ret key.
Proof.
  intros Hlen. unfold genKeyList.
  destruct (forRange_total dataSeq (λ i data,
    c ←? index columns i; Ret (columnValue FF SV data (unsigned c) (tp c))))
    as [vs ->]; [|by eexists].
  intros j d Hj. apply lookup_lt_Some in Hj.
  destruct (index_lt columns j) as (c & -> & _); [lia|]. by eexists.
Qed.

Lemma genMultipleKeys_loop_length columns value entries keys :
  genMultipleKeys_loop FF SV columns value entries = Ret keys →
  length keys = length entries.
Proof.
  revert keys. induction entries as [|[nm indexCols] entries IH]; intros keys; simpl.
  - by intros [= <-].
  - destruct (getColumnData columns indexCols value) as [[cols vals]|]; simpl; [|done].
    destruct (genKeyList FF SV cols vals); simpl; [|done].
    destruct (genMultipleKeys_loop FF SV columns value entries) as [ks|]; simpl; [|done].
    intros [= <-]. simpl. f_equal. by apply IH.
Qed.

Lemma genMultipleKeys_loop_total columns value entries :
  entries_in_range (length value) entries →
  ∃ keys, genMultipleKeys_loop FF SV columns value entries = Ret keys.
Proof.
  induction 1 as [|[nm indexCols] entries Hr _ [keys IH]]; simpl; [by eexists|].
  destruct (getColumnData_total columns indexCols value Hr) as [vals Hvals].
  rewrite Hvals. simpl.
  apply getColumnData_inv in Hvals as [_ Hlen].
  destruct (genKeyList_total indexCols vals) as [key ->]; [lia|]. simpl.
  rewrite IH. simpl. by eexists.
Qed.

Lemma genMultipleKeys_inv columns value indexColumns seeds keys seeds' :
  genMultipleKeys FF SV columns value indexColumns seeds = Ret (keys, seeds') →
  ∃ entries, entries ≡ₚ map_to_list indexColumns
             ∧ genMultipleKeys_loop FF SV columns value entries = Ret keys.
Proof.
  unfold genMultipleKeys, mbind', liftRes.
  destruct (range_visits indexColumns seeds) as (entries & s & -> & Hp).
  destruct (genMultipleKeys_loop FF SV columns value entries) eqn:E; [|done].
  intros [= <- <-]. by exists entries.
Qed.

Lemma genMultipleKeys_total columns value indexColumns seeds :
  indexes_in_range (length value) indexColumns →
  ∃ keys seeds', genMultipleKeys FF SV columns value indexColumns seeds = Ret (keys, seeds').
Proof.
  intros Hr. unfold genMultipleKeys, mbind', liftRes.
  destruct (range_visits indexColumns seeds) as (entries & s & -> & Hp).
  destruct (genMultipleKeys_loop_total columns value entries) as [keys ->];
    [by eapply indexes_in_range_entries|by do 2 eexists].
Qed.

(** C5: [genMultipleKeys] returns one key per declared index, whatever the
    row and the catalog: a result it returns has as many keys as the catalog
    has indexes, and it returns one whenever the ordinals of the index
    columns are positions of the row.  The index selected for the statement
    is no argument of the function. *)
Theorem genMultipleKeys_one_key_per_index
    (columns : list column) (value : list Value)
    (indexColumns : gmap string (list column)) (seeds : Sched) :
  (∀ keys seeds',
     genMultipleKeys FF SV columns value indexColumns seeds = Ret (keys, seeds') →
     length keys = size indexColumns)
  ∧ (indexes_in_range (length value) indexColumns →
     ∃ keys seeds',
       genMultipleKeys FF SV columns value indexColumns seeds = Ret (keys, seeds')
       ∧ length keys = size indexColumns).
Proof.
  assert (∀ keys seeds',
     genMultipleKeys FF SV columns value indexColumns seeds = Ret (keys, seeds') →
     length keys = size indexColumns) as Hlen.
  { intros keys seeds' H.
    apply genMultipleKeys_inv in H as (entries & Hp & Hloop).
    apply genMultipleKeys_loop_length in Hloop. rewrite Hloop, Hp.
    apply length_map_to_list. }
  split; [exact Hlen|].
  intros Hr. destruct (genMultipleKeys_total columns value indexColumns seeds Hr)
    as (keys & seeds' & H).
  exists keys, seeds'. split; [done|]. by eapply Hlen.
Qed.

(** C10: when every column of every declared index has an ordinal below the
    length of the row, projecting the row by ordinal never leaves the row:
    [getColumnData] on each index, [getAvailableIndexColumn] and
    [genMultipleKeys] return a result and do not panic. *)
Theorem projection_stays_in_range
    (columns : list column) (data : list Value)
    (indexColumns : gmap string (list column)) (seeds : Sched) :
  indexes_in_range (length data) indexColumns →
  (∀ name indexCols, indexColumns !! name = Some indexCols →
     ∃ vals, getColumnData columns indexCols data = Ret (indexCols, vals)
             ∧ Forall2 (λ c d, data !! idx c = Some d) indexCols vals)
  ∧ (∃ r seeds', getAvailableIndexColumn indexColumns data seeds = Ret (r, seeds'))
  ∧ (∃ keys seeds',
       genMultipleKeys FF SV columns data indexColumns seeds = Ret (keys, seeds')).
Proof.
  intros Hr. split; [|split].
  - intros nm indexCols Hin. apply getColumnData_values. by apply (Hr nm).
  - apply getSpecifiedIndexColumn_total. by apply availableFn_total.
  - by apply genMultipleKeys_total.
Qed.

End KeyFacts.

Ltac solve_in_range :=
  apply map_Forall_to_list; vm_compute map_to_list;
  repeat (first [apply Forall_nil_2 | apply Forall_cons_2]); simpl; lia.

Lemma genMultipleKeys_one_key_per_index_witness :
  indexes_in_range (length [VInt32 1; VNil]) ab_indexes
  ∧ (∃ keys seeds',
       genMultipleKeys sampleFormatFloat sampleSprint_v ab_columns [VInt32 1; VNil]
         ab_indexes [1%nat] = Ret (keys, seeds')
       ∧ length keys = size ab_indexes)
  ∧ length ["null"; "1"] = size ab_indexes.
Proof.
  assert (indexes_in_range (length [VInt32 1; VNil]) ab_indexes) as Hr
    by solve_in_range.
  destruct (genMultipleKeys_one_key_per_index sampleFormatFloat sampleSprint_v
              ab_columns [VInt32 1; VNil] ab_indexes [1%nat]) as [Hlen Hruns].
  split; [exact Hr|]. split; [exact (Hruns Hr)|].
  apply (Hlen ["null"; "1"] []). reflexivity.
Defined.

Lemma projection_stays_in_range_witness :
  indexes_in_range (length [VInt32 1; VNil]) ab_indexes
  ∧ (∃ r seeds', getAvailableIndexColumn ab_indexes [VInt32 1; VNil] [] = Ret (r, seeds'))
  ∧ (∃ vals, getColumnData ab_columns [col_b] [VInt32 1; VNil] = Ret ([col_b], vals)
             ∧ Forall2 (λ c d, [VInt32 1; VNil] !! idx c = Some d) [col_b] vals).
Proof.
  assert (indexes_in_range (length [VInt32 1; VNil]) ab_indexes) as Hr
    by solve_in_range.
  destruct (projection_stays_in_range sampleFormatFloat sampleSprint_v
              ab_columns [VInt32 1; VNil] ab_indexes [] Hr) as (Hcols & Havail & _).
  split; [exact Hr|]. split; [exact Havail|].
  apply (Hcols "ub"). reflexivity.
Defined.

(** ** Selection and the order of visit *)

Lemma getSpecifiedIndexColumn_order_irrelevant
    (indexColumns : gmap string (list column)) fn seeds1 seeds2 :
  map_Forall (λ _ cols, Forall (λ c, ∃ b, fn c = Ret b) cols) indexColumns →
  at_most_one (qualifies fn) indexColumns →
  ∃ r s1 s2,
    getSpecifiedIndexColumn indexColumns fn seeds1 = Ret (r, s1)
    ∧ getSpecifiedIndexColumn indexColumns fn seeds2 = Ret (r, s2).
Proof.
  intros Htotal Hone.
  destruct (getSpecifiedIndexColumn_total indexColumns fn seeds1 Htotal) as (r1 & s1 & H1).
  destruct (getSpecifiedIndexColumn_total indexColumns fn seeds2 Htotal) as (r2 & s2 & H2).
  exists r1, s1, s2. split; [done|].
  pose proof H1 as H1'. pose proof H2 as H2'.
  apply getSpecifiedIndexColumn_inv in H1' as (entries1 & Hp1 & Hscan1).
  apply getSpecifiedIndexColumn_inv in H2' as (entries2 & Hp2 & Hscan2).
  by rewrite (scanIndexes_order_irrelevant fn indexColumns entries1 entries2 r1 r2).
Qed.

Lemma at_most_one_iff (P Q : list column → Prop)
    (indexColumns : gmap string (list column)) :
  (∀ cols, P cols ↔ Q cols) → at_most_one Q indexColumns → at_most_one P indexColumns.
Proof.
  intros HPQ Hone n1 n2 cols1 cols2 H1 H2 HP1 HP2.
  eapply Hone; eauto; by apply HPQ.
Qed.

(** C8, amended: two invocations over the same catalog (and row) select the
    same index when the selection does not depend on the order in which the
    indexes are visited: schema-fit selection when a non-empty primary index
    is declared or at most one index is schema fit, row-available selection
    when at most one index is available in the row. *)
Theorem selection_deterministic_when_unambiguous
    (indexColumns : gmap string (list column)) (data : list Value)
    (seeds1 seeds2 : Sched) :
  ((∃ c cols, indexColumns !! "primary" = Some (c :: cols))
   ∨ at_most_one schemaFit indexColumns →
   ∃ r s1 s2,
     findFitIndex indexColumns seeds1 = Ret (r, s1)
     ∧ findFitIndex indexColumns seeds2 = Ret (r, s2))
  ∧ (indexes_in_range (length data) indexColumns →
     at_most_one (rowAvailable data) indexColumns →
     ∃ r s1 s2,
       getAvailableIndexColumn indexColumns data seeds1 = Ret (r, s1)
       ∧ getAvailableIndexColumn indexColumns data seeds2 = Ret (r, s2)).
Proof.
  split.
  - intros Hcase. rewrite findFitIndex_unfold.
    assert (at_most_one schemaFit indexColumns →
            ∃ r s1 s2,
              getSpecifiedIndexColumn indexColumns fitFn seeds1 = Ret (r, s1)
              ∧ getSpecifiedIndexColumn indexColumns fitFn seeds2 = Ret (r, s2)) as Hscan.
    { intros Hone. apply getSpecifiedIndexColumn_order_irrelevant; [apply fitFn_total|].
      eapply at_most_one_iff; [apply qualifies_fitFn|done]. }
    destruct (indexColumns !! "primary") as [[|c cols]|] eqn:Hprim; simpl.
    + destruct Hcase as [(c' & cols' & ?)|Hone]; [done|by apply Hscan].
    + by exists (Some (c :: cols)), seeds1, seeds2.
    + destruct Hcase as [(c' & cols' & ?)|Hone]; [done|by apply Hscan].
  - intros Hr Hone.
    apply getSpecifiedIndexColumn_order_irrelevant; [by apply availableFn_total|].
    eapply at_most_one_iff; [apply qualifies_availableFn|done].
Qed.

(** C8 as stated fails: over one catalog with two schema-fit indexes and no
    primary index, and one row in which both are available, two orders of
    visit select different indexes. *)
Lemma selection_depends_on_order_of_visit :
  findFitIndex xy_indexes [0%nat] = Ret (Some [col_y], [])
  ∧ findFitIndex xy_indexes [1%nat] = Ret (Some [col_x], [])
  ∧ getAvailableIndexColumn xy_indexes [VInt32 1; VInt32 2] [0%nat]
    = Ret (Some [col_y], [])
  ∧ getAvailableIndexColumn xy_indexes [VInt32 1; VInt32 2] [1%nat]
    = Ret (Some [col_x], [])
  ∧ Some [col_y] ≠ Some [col_x].
Proof. do 4 (split; [reflexivity|]). intros H. by inversion H. Qed.

Lemma lookup_ab_indexes name cols :
  ab_indexes !! name = Some cols → cols = [col_a] ∨ cols = [col_b].
Proof.
  intros H. apply elem_of_map_to_list in H.
  vm_compute map_to_list in H.
  repeat (apply elem_of_cons in H as [H|H]; [injection H as -> ->; auto|]).
  by apply elem_of_nil in H.
Qed.

Lemma selection_deterministic_when_unambiguous_witness :
  (∃ r s1 s2,
     findFitIndex t_indexes [0%nat] = Ret (r, s1)
     ∧ findFitIndex t_indexes [1%nat] = Ret (r, s2))
  ∧ (∃ r s1 s2,
       getAvailableIndexColumn ab_indexes [VInt32 1; VNil] [0%nat] = Ret (r, s1)
       ∧ getAvailableIndexColumn ab_indexes [VInt32 1; VNil] [1%nat] = Ret (r, s2)).
Proof.
  split.
  - apply (selection_deterministic_when_unambiguous t_indexes [] [0%nat] [1%nat]).
    left. exists col_id, []. reflexivity.
  - apply (selection_deterministic_when_unambiguous ab_indexes [VInt32 1; VNil]
             [0%nat] [1%nat]).
    + solve_in_range.
    + intros n1 n2 cols1 cols2 H1 H2 [_ Ha1] [_ Ha2].
      apply lookup_ab_indexes in H1 as [->| ->], H2 as [->| ->]; try reflexivity.
      * apply Forall_inv in Ha2 as (d & Hd & Hne). simpl in Hd. by simplify_eq.
      * apply Forall_inv in Ha1 as (d & Hd & Hne). simpl in Hd. by simplify_eq.
Defined.

(** ** Clause text *)

Lemma append_assoc (a b c : string) : (a +:+ b) +:+ c = a +:+ (b +:+ c).
Proof.
  induction a as [|x a IH]; [done|].
  change (String x ((a +:+ b) +:+ c) = String x (a +:+ b +:+ c)).
  by f_equal.
Qed.

Lemma predicate_app (op : string) (c : column) (s : string) :
  "`" +:+ name c +:+ "` " +:+ op +:+ " ?" +:+ s = predicate op c +:+ s.
Proof.
  unfold predicate. by rewrite !append_assoc.
Qed.

Lemma Join_cons_ne (a : string) (l : list string) (sep : string) :
  l ≠ [] → Join (a :: l) sep = a +:+ sep +:+ Join l sep.
Proof. by destruct l. Qed.

(** Writing the separator after each part but the last and concatenating is
    joining with the separator. *)
Lemma Join_trailing (sep : string) (parts : list string) (k : nat) :
  Join (imap (λ i p, if (k + i =? k + length parts - 1)%nat then p else p +:+ sep)
             parts) ""
  = Join parts sep.
Proof.
  revert k. induction parts as [|p parts IH]; intros k; [done|].
  destruct (decide (parts = [])) as [->|Hne].
  - simpl. by replace (k + 0 =? k + 1 - 1)%nat with true
      by (symmetry; apply Nat.eqb_eq; lia).
  - assert (0 < length parts)%nat as Hlen by (destruct parts; simpl; [done|lia]).
    rewrite imap_cons.
    replace (k + 0 =? k + length (p :: parts) - 1)%nat with false
      by (symmetry; apply Nat.eqb_neq; simpl; lia).
    rewrite !Join_cons_ne; [|done|].
    2:{ intros Hnil. apply (f_equal length) in Hnil.
        rewrite length_imap in Hnil. simpl in Hnil. lia. }
    rewrite append_assoc. do 2 f_equal.
    rewrite <- (IH (S k)). change ("" +:+ ?x) with x. f_equal.
    apply imap_ext. intros i x _. simpl.
    by replace (k + S i =? k + S (length parts) - 1)%nat
      with (S (k + i) =? S (k + length parts) - 1)%nat
      by (apply eq_true_iff_eq; rewrite !Nat.eqb_eq; lia).
Qed.

Lemma genWhere_clause (columns : list column) (data : list Value) :
  (length columns ≤ length data)%nat →
  genWhere columns data = Ret (clause nullAwareOp " AND " columns data).
Proof.
  intros Hlen. unfold genWhere.
  rewrite (forRange_ext columns _ (λ i c,
    let p := predicate (nullAwareOp (default VNil (data !! i))) c in
    if (i =? length columns - 1)%nat then p else p +:+ " AND ")).
  - simpl. f_equal. unfold clause. rewrite <- (Join_trailing " AND " _ 0). f_equal.
    apply list_eq. intros i. rewrite !list_lookup_imap, lookup_zip_with.
    rewrite length_zip_with, Nat.min_l by done.
    destruct (columns !! i) as [c|] eqn:Hc; simpl; [|done].
    apply lookup_lt_Some in Hc.
    destruct (lookup_lt_is_Some_2 data i) as [d Hd]; [lia|].
    by rewrite Hd.
  - intros j c Hc. apply lookup_lt_Some in Hc.
    destruct (index_lt data j) as (d & -> & Hd); [lia|]. rewrite Hd. simpl.
    destruct (j =? length columns - 1)%nat; f_equal.
    exact (predicate_app (nullAwareOp d) c " AND ").
Qed.

Lemma genKVs_clause (columns : list column) (data : list Value) :
  (length columns ≤ length data)%nat →
  genKVs columns = clause (λ _, "=") ", " columns data.
Proof.
  intros Hlen. unfold genKVs, clause.
  rewrite <- (Join_trailing ", " _ 0). f_equal.
  apply list_eq. intros i. rewrite !list_lookup_imap, lookup_zip_with.
  rewrite length_zip_with, Nat.min_l by done.
  destruct (columns !! i) as [c|] eqn:Hc; simpl; [|done].
  apply lookup_lt_Some in Hc.
  destruct (lookup_lt_is_Some_2 data i) as [d Hd]; [lia|].
  rewrite Hd. simpl. f_equal.
  destruct (i =? length columns - 1)%nat; [done|].
  exact (predicate_app "=" c ", ").
Qed.

(** C7, amended: the WHERE clause is one predicate per column joined by
    " AND ", with "IS" exactly for the columns whose bound value is nil and
    "=" for the others; the SET clause is one assignment per column joined by
    ", ", with "=" for every column whatever its bound value. *)
Theorem where_null_aware_set_plain (columns : list column) (data : list Value) :
  (length columns ≤ length data)%nat →
  genWhere columns data = Ret (clause nullAwareOp " AND " columns data)
  ∧ genKVs columns = clause (λ _, "=") ", " columns data
  ∧ (∀ d, (nullAwareOp d = "IS" ↔ d = VNil) ∧ (nullAwareOp d = "=" ↔ d ≠ VNil)).
Proof.
  intros Hlen. split; [by apply genWhere_clause|]. split; [by apply genKVs_clause|].
  intros d. unfold nullAwareOp. destruct d; simpl; split; split; done.
Qed.

Lemma where_null_aware_set_plain_witness :
  (length t_columns ≤ length [VUint32 5; VNil])%nat
  ∧ genWhere t_columns [VUint32 5; VNil] = Ret "`id` = ? AND `name` IS ?"
  ∧ genKVs t_columns = "`id` = ?, `name` = ?".
Proof.
  assert (length t_columns ≤ length [VUint32 5; VNil])%nat as Hlen by (simpl; lia).
  destruct (where_null_aware_set_plain t_columns [VUint32 5; VNil] Hlen)
    as (Hwhere & Hset & _).
  split; [exact Hlen|]. split; [exact Hwhere|exact Hset].
Defined.

(** C7 as stated fails on the SET clause: for a column bound to nil the
    clause of [genKVs] has "=", where the claim has "IS"; the non-safe update
    of the name to nil shows it in a statement. *)
Lemma set_clause_not_null_aware :
  genKVs [col_name] = "`name` = ?"
  ∧ clause nullAwareOp ", " [col_name] [VNil] = "`name` IS ?"
  ∧ genKVs [col_name] ≠ clause nullAwareOp ", " [col_name] [VNil]
  ∧ genUpdateSQLs sampleFormatFloat sampleSprint_v "db" "t" t_columns t_indexes
      [[VInt32 5; VString "alice"]; [VInt32 5; VNil]] false []
    = Ret (Some ["UPDATE `db`.`t` SET `id` = ?, `name` = ? WHERE `id` = ? LIMIT 1;"],
           Some [["5"; "5"]], Some [[VUint32 5; VNil; VUint32 5]], None, []).
Proof. do 2 (split; [reflexivity|]). split; [|reflexivity]. intros H. by inversion H. Qed.

(** ** Batches *)

(** The column list of a catalog and the text of the REPLACE INTO statement
    built with it. *)
Lemma genColumnList_Join (columns : list column) :
  genColumnList columns = Join ((λ c, "`" +:+ name c +:+ "`") <$> columns) ",".
Proof.
  unfold genColumnList.
  rewrite <- (Join_trailing "," _ 0). f_equal.
  rewrite imap_fmap. apply imap_ext. intros i c _. simpl.
  rewrite length_fmap.
  destruct (i =? length columns - 1)%nat; simpl; [done|].
  by rewrite !append_assoc.
Qed.

Lemma replaceSQL_text (schema table : string) (columns : list column) :
  replaceSQL schema table (genColumnList columns)
    (genColumnPlaceholders (length columns))
  = "REPLACE INTO `" +:+ schema +:+ "`.`" +:+ table +:+ "` ("
    +:+ Join ((λ c, "`" +:+ name c +:+ "`") <$> columns) ","
    +:+ ") VALUES (" +:+ Join (replicate (length columns) "?") "," +:+ ");".
Proof. unfold replaceSQL. by rewrite genColumnList_Join. Qed.

Lemma mbind_Ret {A B} (m : M A) (f : A → M B) seeds a seeds' :
  m seeds = Ret (a, seeds') → mbind' m f seeds = f a seeds'.
Proof. intros H. unfold mbind'. by rewrite H. Qed.

Lemma mbind_liftRes {A B} (r : res A) (f : A → M B) seeds a :
  r = Ret a → mbind' (liftRes r) f seeds = f a seeds.
Proof. by intros ->. Qed.

Lemma castValues_total (columns : list column) (data : list Value) :
  length data = length columns →
  ∃ vs, castValues columns data = Ret vs ∧ length vs = length columns.
Proof.
  intros Hlen. unfold castValues.
  destruct (forRange_total data (λ i d,
    c ←? index columns i; Ret (castUnsigned d (unsigned c) (tp c)))) as [vs Hvs].
  - intros j d Hj. apply lookup_lt_Some in Hj.
    destruct (index_lt columns j) as (c & -> & _); [lia|]. by eexists.
  - exists vs. split; [done|]. apply forRange_length in Hvs. lia.
Qed.

(** The loop that fills [updateColumns] and [updateValues] copies the whole
    catalog and the whole after-state. *)
Lemma update_targets (columns : list column) (oldValues changedValues : list Value) :
  length oldValues = length columns →
  length changedValues = length columns →
  forRange oldValues (λ j _,
    c ←? index columns j; v ←? index changedValues j; Ret (c, v))
  = Ret (zip columns changedValues).
Proof.
  intros Hold Hnew.
  rewrite (forRange_ext oldValues _ (λ j _, (columns !!! j, changedValues !!! j))).
  - f_equal. apply list_eq. intros i. rewrite list_lookup_imap.
    rewrite lookup_zip_with.
    destruct (oldValues !! i) as [o|] eqn:Ho; simpl.
    + apply lookup_lt_Some in Ho.
      destruct (lookup_lt_is_Some_2 columns i) as [c Hc]; [lia|].
      destruct (lookup_lt_is_Some_2 changedValues i) as [v Hv]; [lia|].
      rewrite Hc, Hv. simpl.
      by rewrite (list_lookup_total_correct _ _ _ Hc),
                 (list_lookup_total_correct _ _ _ Hv).
    + apply lookup_ge_None in Ho.
      rewrite (proj2 (lookup_ge_None columns i)); [done|lia].
  - intros j o Ho. apply lookup_lt_Some in Ho.
    destruct (index_lt columns j) as (c & -> & Hc); [lia|].
    destruct (index_lt changedValues j) as (v & -> & Hv); [lia|]. simpl.
    by rewrite (list_lookup_total_correct _ _ _ Hc),
               (list_lookup_total_correct _ _ _ Hv).
Qed.

Section BatchFacts.

Variable FF : Z → Z → string.
Variable SV : Value → string.
Variables (schema table : string).
Variable columns : list column.
Variable indexColumns : gmap string (list column).
Hypothesis Hrange : indexes_in_range (length columns) indexColumns.

Lemma selected_in_range (d : slice column) :
  selected indexColumns d → columns_in_range (length columns) (elems d).
Proof.
  intros [->|(nm & c & cols & Hin & ->)]; simpl; [constructor|]. by apply (Hrange nm).
Qed.

Lemma selected_len (d : slice column) :
  selected indexColumns d → (len d =? 0)%nat = true ↔ d = None.
Proof.
  intros [->|(nm & c & cols & Hin & ->)]; simpl; split; done.
Qed.

Lemma getSpecifiedIndexColumn_selected fn seeds r seeds' :
  getSpecifiedIndexColumn indexColumns fn seeds = Ret (r, seeds') →
  selected indexColumns r
  ∧ (r = None → ∀ name cols, indexColumns !! name = Some cols → ¬ qualifies fn cols).
Proof.
  intros H. apply getSpecifiedIndexColumn_inv in H as (entries & Hp & Hscan).
  destruct r as [cols|].
  - split; [|done]. right.
    apply scanIndexes_Some in Hscan as [[Hne _] [nm Hin]].
    rewrite Hp in Hin. apply elem_of_map_to_list in Hin.
    destruct cols as [|c cols]; [done|]. by exists nm, c, cols.
  - split; [by left|]. intros _ nm cols Hin.
    eapply scanIndexes_None; [exact Hscan|].
    rewrite Hp. by apply elem_of_map_to_list.
Qed.

Lemma findFitIndex_carried seeds :
  ∃ d seeds', findFitIndex indexColumns seeds = Ret (d, seeds')
              ∧ carried indexColumns d.
Proof.
  destruct (findFitIndex_total indexColumns seeds) as (d & seeds' & Hd).
  exists d, seeds'. split; [done|].
  assert (∀ r s, getSpecifiedIndexColumn indexColumns fitFn seeds = Ret (r, s) →
                 carried indexColumns r) as Hscan.
  { intros r s Hr. apply getSpecifiedIndexColumn_selected in Hr as [Hsel Hnone].
    split; [done|]. intros Hnil nm cols Hin Hfit.
    apply (Hnone Hnil nm cols Hin). by apply qualifies_fitFn. }
  rewrite findFitIndex_unfold in Hd.
  destruct (indexColumns !! "primary") as [[|c cols]|] eqn:Hprim; simpl in Hd;
    [by eapply Hscan| |by eapply Hscan].
  unfold mret in Hd. injection Hd as <- <-.
  split; [|done]. right. by exists "primary", c, cols.
Qed.

(** The index in effect after the fallback of a row. *)
Lemma fallback_in_effect (d : slice column) (value : list Value) seeds :
  length value = length columns →
  carried indexColumns d →
  ∃ d' seeds',
    (if (len d =? 0)%nat then getAvailableIndexColumn indexColumns value else mret d)
      seeds = Ret (d', seeds')
    ∧ inEffect indexColumns value d'
    ∧ carried indexColumns d'.
Proof.
  intros Hlen [Hsel Hnofit].
  destruct (len d =? 0)%nat eqn:Hzero.
  - apply (selected_len d Hsel) in Hzero. specialize (Hnofit Hzero).
    destruct (getSpecifiedIndexColumn_total indexColumns (availableFn value) seeds)
      as (d' & seeds' & Hd').
    { apply availableFn_total. by rewrite Hlen. }
    exists d', seeds'. split; [done|].
    apply getSpecifiedIndexColumn_selected in Hd' as [Hsel' Hnone].
    split; [|by split]. split; [done|]. intros Hnil. split; [done|].
    intros nm cols Hin Havail. apply (Hnone Hnil nm cols Hin).
    by apply qualifies_availableFn.
  - exists d, seeds. split; [done|].
    assert (d ≠ None) as Hsome.
    { intros Hnil. apply (selected_len d Hsel) in Hnil. congruence. }
    by repeat split.
Qed.

Lemma where_basis_total (d : slice column) (value : list Value) :
  length value = length columns →
  selected indexColumns d →
  ∃ wc wv,
    (if (0 <? len d)%nat then getColumnData columns (elems d) value
     else Ret (columns, value)) = Ret (wc, wv)
    ∧ whereBasis columns d value wc wv
    ∧ length wc = length wv.
Proof.
  intros Hlen Hd. unfold whereBasis. destruct (0 <? len d)%nat.
  - destruct (getColumnData_values columns (elems d) value) as (wv & Hwv & Hall).
    { rewrite Hlen. by apply selected_in_range. }
    exists (elems d), wv. split; [done|]. split; [done|].
    by eapply Forall2_length.
  - exists columns, value. by rewrite Hlen.
Qed.

Lemma genDeleteSQL_run (d : slice column) (value : list Value) :
  length value = length columns →
  selected indexColumns d →
  ∃ wc wv,
    genDeleteSQL schema table value columns d
    = Ret ("DELETE FROM `" +:+ schema +:+ "`.`" +:+ table +:+ "` WHERE "
           +:+ clause nullAwareOp " AND " wc wv +:+ " LIMIT 1;", wv)
    ∧ whereBasis columns d value wc wv.
Proof.
  intros Hlen Hd.
  destruct (where_basis_total d value Hlen Hd) as (wc & wv & Hdata & Hbasis & Hwlen).
  exists wc, wv. split; [|done].
  unfold genDeleteSQL. rewrite Hdata. simpl.
  rewrite genWhere_clause by lia. done.
Qed.

End BatchFacts.

Section LoopFacts.

Variable FF : Z → Z → string.
Variable SV : Value → string.
Variables (schema table : string).
Variable columns : list column.
Variable indexColumns : gmap string (list column).
Hypothesis Hrange : indexes_in_range (length columns) indexColumns.

Lemma genUpdateSQLs_loop_prefix (safeMode : bool)
    (pairs : list (list Value * list Value)) (rest : list (list Value)) :
  Forall (λ p, length p.1 = length columns ∧ length p.2 = length columns) pairs →
  ∀ d sqls keys values seeds,
    carried indexColumns d →
    ∃ runs d' seeds',
      Forall2 (pairRunOf FF SV columns indexColumns) pairs runs
      ∧ carried indexColumns d'
      ∧ genUpdateSQLs_loop FF SV schema table columns indexColumns safeMode
          (genColumnList columns) (genColumnPlaceholders (length columns)) (flattenPairs pairs ++ rest) d sqls keys values seeds
        = genUpdateSQLs_loop FF SV schema table columns indexColumns safeMode
            (genColumnList columns) (genColumnPlaceholders (length columns)) rest d'
            (sqls ++ flat_map (pairSQLs schema table columns safeMode) runs)
            (keys ++ flat_map (pairKeyLists columns safeMode) runs)
            (values ++ flat_map (pairValues columns safeMode) runs) seeds'.
Proof.
  induction 1 as [|[old changed] pairs [Hold Hnew] _ IH]; intros d sqls keys values seeds Hd.
  - exists [], d, seeds. simpl. rewrite !app_nil_r.
    split; [constructor|]. by split.
  - simpl in Hold, Hnew.
    change (flattenPairs ((old, changed) :: pairs) ++ rest)
      with (old :: changed :: (flattenPairs pairs ++ rest)).
    cbn [genUpdateSQLs_loop].
    rewrite Hold, Hnew, Nat.eqb_refl. cbn [negb].
    destruct (castValues_total columns old Hold) as (oldV & HoldV & HoldL).
    destruct (castValues_total columns changed Hnew) as (newV & HnewV & HnewL).
    rewrite (mbind_liftRes _ _ _ _ HoldV), (mbind_liftRes _ _ _ _ HnewV).
    destruct (fallback_in_effect columns indexColumns Hrange d oldV seeds HoldL Hd)
      as (d1 & seeds1 & Hd1 & Heff1 & Hcar1).
    pose proof (proj1 Hcar1) as Hsel1.
    rewrite (mbind_Ret _ _ _ _ _ Hd1).
    destruct (genMultipleKeys_total FF SV columns oldV indexColumns seeds1)
      as (k1 & seeds2 & Hk1); [by rewrite HoldL|].
    rewrite (mbind_Ret _ _ _ _ _ Hk1).
    destruct (genMultipleKeys_total FF SV columns newV indexColumns seeds2)
      as (k2 & seeds3 & Hk2); [by rewrite HnewL|].
    rewrite (mbind_Ret _ _ _ _ _ Hk2).
    destruct (where_basis_total columns indexColumns Hrange d1 oldV HoldL Hsel1)
      as (wc & wv & Hdata & Hbasis & Hwlen).
    assert (pairRunOf FF SV columns indexColumns (old, changed)
              (PairRun oldV newV wc wv (k1 ++ k2))) as Hrun.
    { repeat split; simpl; try done.
      - by exists d1.
      - by exists k1, k2, seeds1, seeds2, seeds2, seeds3. }
    clear Heff1.
    destruct safeMode.
    + assert (genDeleteSQL schema table oldV columns d1
              = Ret (deleteText schema table (PairRun oldV newV wc wv (k1 ++ k2)), wv))
        as Hdel.
      { unfold genDeleteSQL. rewrite Hdata. simpl.
        by rewrite genWhere_clause by lia. }
      rewrite (mbind_liftRes _ _ _ _ Hdel). cbv beta iota.
      edestruct (IH d1) as (runs & d' & seeds' & Hruns & Hsel' & Heq); [exact Hcar1|].
      exists (PairRun oldV newV wc wv (k1 ++ k2) :: runs), d', seeds'.
      split; [by constructor|]. split; [done|].
      rewrite Heq. simpl. by rewrite <- !app_assoc.
    + rewrite (mbind_liftRes _ _ _ _ (update_targets columns oldV newV HoldL HnewL)).
      rewrite fst_zip, snd_zip by lia.
      destruct (Nat.eqb_spec (length columns) 0) as [Hzero|Hpos].
      * edestruct (IH d1) as (runs & d' & seeds' & Hruns & Hsel' & Heq); [exact Hcar1|].
        exists (PairRun oldV newV wc wv (k1 ++ k2) :: runs), d', seeds'.
        split; [by constructor|]. split; [done|].
        rewrite Heq. unfold pairSQLs, pairKeyLists, pairValues. simpl.
        destruct (Nat.eqb_spec (length columns) 0); [done|lia].
      * rewrite (mbind_liftRes _ _ _ _ Hdata). cbv beta iota.
        rewrite (mbind_liftRes _ _ _ _ (genWhere_clause wc wv ltac:(lia))).
        edestruct (IH d1) as (runs & d' & seeds' & Hruns & Hsel' & Heq); [exact Hcar1|].
        exists (PairRun oldV newV wc wv (k1 ++ k2) :: runs), d', seeds'.
        split; [by constructor|]. split; [done|].
        rewrite Heq. unfold pairSQLs, pairKeyLists, pairValues, updateText. simpl.
        destruct (Nat.eqb_spec (length columns) 0); [lia|].
        rewrite <- (genKVs_clause columns newV) by lia.
        by rewrite <- !app_assoc.
Qed.

Lemma genInsertSQLs_loop_prefix (good rest : list (list Value)) :
  Forall (λ data, length data = length columns) good →
  ∀ sqls keys values seeds,
    ∃ sqls' keys' values' seeds',
      genInsertSQLs_loop FF SV schema table columns indexColumns
        (genColumnList columns) (genColumnPlaceholders (length columns)) (good ++ rest) sqls keys values seeds
      = genInsertSQLs_loop FF SV schema table columns indexColumns
          (genColumnList columns) (genColumnPlaceholders (length columns)) rest sqls' keys' values' seeds'
      ∧ length sqls' = (length sqls + length good)%nat.
Proof.
  induction 1 as [|data good Hlen _ IH]; intros sqls keys values seeds.
  - exists sqls, keys, values, seeds. simpl. split; [done|lia].
  - change ((data :: good) ++ rest) with (data :: (good ++ rest)).
    cbn [genInsertSQLs_loop].
    rewrite Hlen, Nat.eqb_refl. cbn [negb].
    destruct (castValues_total columns data Hlen) as (value & Hvalue & HvalueL).
    rewrite (mbind_liftRes _ _ _ _ Hvalue).
    destruct (genMultipleKeys_total FF SV columns value indexColumns seeds)
      as (ks & seeds1 & Hks); [by rewrite HvalueL|].
    rewrite (mbind_Ret _ _ _ _ _ Hks).
    edestruct IH as (sqls' & keys' & values' & seeds' & Heq & Hcount).
    exists sqls', keys', values', seeds'. split; [exact Heq|].
    rewrite Hcount, length_app. simpl. lia.
Qed.

Lemma genDeleteSQLs_loop_prefix (good rest : list (list Value)) :
  Forall (λ data, length data = length columns) good →
  ∀ d sqls keys values seeds,
    carried indexColumns d →
    ∃ d' sqls' keys' values' seeds',
      carried indexColumns d'
      ∧ genDeleteSQLs_loop FF SV schema table columns indexColumns
          (good ++ rest) d sqls keys values seeds
        = genDeleteSQLs_loop FF SV schema table columns indexColumns
            rest d' sqls' keys' values' seeds'
      ∧ length sqls' = (length sqls + length good)%nat.
Proof.
  induction 1 as [|data good Hlen _ IH]; intros d sqls keys values seeds Hd.
  - exists d, sqls, keys, values, seeds. simpl. split; [done|]. split; [done|lia].
  - change ((data :: good) ++ rest) with (data :: (good ++ rest)).
    cbn [genDeleteSQLs_loop].
    rewrite Hlen, Nat.eqb_refl. cbn [negb].
    destruct (castValues_total columns data Hlen) as (value & Hvalue & HvalueL).
    rewrite (mbind_liftRes _ _ _ _ Hvalue).
    destruct (fallback_in_effect columns indexColumns Hrange d value seeds HvalueL Hd)
      as (d1 & seeds1 & Hd1 & _ & Hcar1).
    pose proof (proj1 Hcar1) as Hsel1.
    rewrite (mbind_Ret _ _ _ _ _ Hd1).
    destruct (genMultipleKeys_total FF SV columns value indexColumns seeds1)
      as (ks & seeds2 & Hks); [by rewrite HvalueL|].
    rewrite (mbind_Ret _ _ _ _ _ Hks).
    destruct (genDeleteSQL_run schema table columns indexColumns Hrange d1 value
                HvalueL Hsel1) as (wc & wv & Hdel & _).
    rewrite (mbind_liftRes _ _ _ _ Hdel). cbv beta iota.
    edestruct (IH d1) as (d' & sqls' & keys' & values' & seeds' & Hsel' & Heq & Hcount);
      [exact Hcar1|].
    exists d', sqls', keys', values', seeds'. split; [done|]. split; [exact Heq|].
    rewrite Hcount, length_app. simpl. lia.
Qed.

End LoopFacts.

Lemma flat_map_singleton {A B} (f : A → B) (l : list A) :
  flat_map (λ x, [f x]) l = map f l.
Proof. induction l as [|x l IH]; simpl; [done|]. by rewrite IH. Qed.

Lemma genUpdateSQLs_run (FF : Z → Z → string) (SV : Value → string)
    (schema table : string) (columns : list column)
    (indexColumns : gmap string (list column))
    (pairs : list (list Value * list Value)) (safeMode : bool) (seeds : Sched) :
  indexes_in_range (length columns) indexColumns →
  Forall (λ p, length p.1 = length columns ∧ length p.2 = length columns) pairs →
  ∃ runs seeds',
    Forall2 (pairRunOf FF SV columns indexColumns) pairs runs
    ∧ genUpdateSQLs FF SV schema table columns indexColumns
        (flattenPairs pairs) safeMode seeds
      = Ret ((Some (flat_map (pairSQLs schema table columns safeMode) runs),
              Some (flat_map (pairKeyLists columns safeMode) runs),
              Some (flat_map (pairValues columns safeMode) runs),
              None), seeds').
Proof.
  intros Hrange Hpairs. unfold genUpdateSQLs.
  destruct (findFitIndex_carried indexColumns seeds) as (d & seeds0 & Hd & Hsel).
  rewrite (mbind_Ret _ _ _ _ _ Hd).
  destruct (genUpdateSQLs_loop_prefix FF SV schema table columns indexColumns Hrange
              safeMode pairs [] Hpairs d [] [] [] seeds0 Hsel)
    as (runs & d' & seeds' & Hruns & _ & Heq).
  exists runs, seeds'. split; [done|].
  rewrite app_nil_r in Heq. rewrite Heq. reflexivity.
Qed.

(** C3: in non-safe mode, over a catalog with at least one column, every
    update pair yields one UPDATE statement whose SET clause lists every
    column of the catalog, bound to the casted after-state: no pair is
    skipped. *)
Theorem nonsafe_update_sets_every_column
    (FF : Z → Z → string) (SV : Value → string)
    (schema table : string) (columns : list column)
    (indexColumns : gmap string (list column))
    (pairs : list (list Value * list Value)) (seeds : Sched) :
  (0 < length columns)%nat →
  indexes_in_range (length columns) indexColumns →
  Forall (λ p, length p.1 = length columns ∧ length p.2 = length columns) pairs →
  ∃ runs seeds',
    Forall2 (pairRunOf FF SV columns indexColumns) pairs runs
    ∧ genUpdateSQLs FF SV schema table columns indexColumns
        (flattenPairs pairs) false seeds
      = Ret ((Some (map (updateText schema table columns) runs),
              Some (map pairKeys runs),
              Some (map (λ f, changedValues f ++ whereValues f) runs),
              None), seeds')
    ∧ length (map (updateText schema table columns) runs) = length pairs.
Proof.
  intros Hpos Hrange Hpairs.
  destruct (genUpdateSQLs_run FF SV schema table columns indexColumns pairs false seeds
              Hrange Hpairs) as (runs & seeds' & Hruns & Heq).
  exists runs, seeds'. split; [done|]. split.
  - rewrite Heq. unfold pairSQLs, pairKeyLists, pairValues.
    destruct (Nat.eqb_spec (length columns) 0) as [Hzero|_]; [lia|].
    by rewrite !flat_map_singleton.
  - rewrite length_map. symmetry. by eapply Forall2_length.
Qed.

Lemma nonsafe_update_sets_every_column_witness :
  (0 < length t_columns)%nat
  ∧ indexes_in_range (length t_columns) t_indexes
  ∧ ∃ runs seeds',
      Forall2 (pairRunOf sampleFormatFloat sampleSprint_v t_columns t_indexes)
        [([VInt32 5; VString "alice"], [VInt32 5; VString "bob"])] runs
      ∧ genUpdateSQLs sampleFormatFloat sampleSprint_v "db" "t" t_columns t_indexes
          (flattenPairs [([VInt32 5; VString "alice"], [VInt32 5; VString "bob"])])
          false []
        = Ret ((Some (map (updateText "db" "t" t_columns) runs),
                Some (map pairKeys runs),
                Some (map (λ f, changedValues f ++ whereValues f) runs),
                None), seeds')
      ∧ length (map (updateText "db" "t" t_columns) runs) = 1%nat.
Proof.
  assert (0 < length t_columns)%nat as Hpos by (simpl; lia).
  assert (indexes_in_range (length t_columns) t_indexes) as Hr by solve_in_range.
  split; [exact Hpos|]. split; [exact Hr|].
  apply (nonsafe_update_sets_every_column sampleFormatFloat sampleSprint_v
           "db" "t" t_columns t_indexes
           [([VInt32 5; VString "alice"], [VInt32 5; VString "bob"])] []);
    [exact Hpos|exact Hr|].
  repeat constructor.
Defined.

(** ** Structural mismatch *)

Lemma first_bad {A} (good bad : A → Prop) (l : list A) :
  (∀ x, good x ∨ bad x) → Exists bad l →
  ∃ l1 x l2, l = l1 ++ x :: l2 ∧ Forall good l1 ∧ bad x.
Proof.
  intros Hdec. induction l as [|a l IH]; intros Hex; [by inversion Hex|].
  destruct (Hdec a) as [Hgood|Hbad].
  - inversion Hex as [? ? Hbad|? ? Hex']; subst.
    + exists [], a, l. by repeat split.
    + destruct (IH Hex') as (l1 & x & l2 & -> & Hl1 & Hx).
      exists (a :: l1), x, l2. split; [done|]. split; [by constructor|done].
  - exists [], a, l. by repeat split.
Qed.

Lemma flattenPairs_app (l1 l2 : list (list Value * list Value)) :
  flattenPairs (l1 ++ l2) = flattenPairs l1 ++ flattenPairs l2.
Proof. unfold flattenPairs. by rewrite flat_map_app. Qed.

Section NoPartialOutput.

Variable FF : Z → Z → string.
Variable SV : Value → string.
Variables (schema table : string).
Variable columns : list column.
Variable indexColumns : gmap string (list column).

Lemma genInsertSQLs_loop_no_partial cl cp (dataSeq : list (list Value)) :
  Exists (λ data, length data ≠ length columns) dataSeq →
  ∀ sqls keys values seeds out seeds',
    genInsertSQLs_loop FF SV schema table columns indexColumns cl cp
      dataSeq sqls keys values seeds = Ret (out, seeds') →
    isMismatch out.
Proof.
  induction dataSeq as [|data rest IH]; intros Hex; [by inversion Hex|].
  intros sqls keys values seeds out seeds'. cbn [genInsertSQLs_loop].
  destruct (Nat.eqb_spec (length data) (length columns)) as [Heq|Hne]; cbn [negb].
  - inversion Hex as [|? ? Hex']; subst; [done|].
    unfold mbind', liftRes.
    destruct (castValues columns data) as [value|]; [|done].
    destruct (genMultipleKeys FF SV columns value indexColumns seeds) as [[ks s]|];
      [|done].
    by apply IH.
  - intros [= <- <-]. by eexists.
Qed.

Lemma genDeleteSQLs_loop_no_partial (dataSeq : list (list Value)) :
  Exists (λ data, length data ≠ length columns) dataSeq →
  ∀ d sqls keys values seeds out seeds',
    genDeleteSQLs_loop FF SV schema table columns indexColumns
      dataSeq d sqls keys values seeds = Ret (out, seeds') →
    isMismatch out.
Proof.
  induction dataSeq as [|data rest IH]; intros Hex; [by inversion Hex|].
  intros d sqls keys values seeds out seeds'. cbn [genDeleteSQLs_loop].
  destruct (Nat.eqb_spec (length data) (length columns)) as [Heq|Hne]; cbn [negb].
  - inversion Hex as [|? ? Hex']; subst; [done|].
    unfold mbind', liftRes.
    destruct (castValues columns data) as [value|]; [|done].
    destruct ((if (len d =? 0)%nat
               then getAvailableIndexColumn indexColumns value else mret d) seeds)
      as [[d1 s1]|]; [|done].
    destruct (genMultipleKeys FF SV columns value indexColumns s1) as [[ks s2]|];
      [|done].
    destruct (genDeleteSQL schema table value columns d1) as [[sql wv]|]; [|done].
    by apply IH.
  - intros [= <- <-]. by eexists.
Qed.

Lemma genUpdateSQLs_loop_no_partial safeMode cl cp
    (pairs : list (list Value * list Value)) :
  Exists (λ p, length p.1 ≠ length p.2
               ∨ length p.1 ≠ length columns
               ∨ length p.2 ≠ length columns) pairs →
  ∀ d sqls keys values seeds out seeds',
    genUpdateSQLs_loop FF SV schema table columns indexColumns safeMode cl cp
      (flattenPairs pairs) d sqls keys values seeds = Ret (out, seeds') →
    isMismatch out.
Proof.
  induction pairs as [|[old changed] rest IH]; intros Hex; [by inversion Hex|].
  intros d sqls keys values seeds out seeds'.
  change (flattenPairs ((old, changed) :: rest))
    with (old :: changed :: flattenPairs rest).
  cbn [genUpdateSQLs_loop].
  destruct (Nat.eqb_spec (length old) (length changed)) as [Heq1|Hne1]; cbn [negb];
    [|intros [= <- <-]; by eexists].
  destruct (Nat.eqb_spec (length old) (length columns)) as [Heq2|Hne2]; cbn [negb];
    [|intros [= <- <-]; by eexists].
  inversion Hex as [? ? Hbad|? ? Hex']; subst; [simpl in Hbad; lia|].
  unfold mbind', liftRes.
  destruct (castValues columns old) as [oldV|]; [|done].
  destruct (castValues columns changed) as [newV|]; [|done].
  destruct ((if (len d =? 0)%nat
             then getAvailableIndexColumn indexColumns oldV else mret d) seeds)
    as [[d1 s1]|]; [|done].
  destruct (genMultipleKeys FF SV columns oldV indexColumns s1) as [[k1 s2]|]; [|done].
  destruct (genMultipleKeys FF SV columns newV indexColumns s2) as [[k2 s3]|]; [|done].
  destruct safeMode.
  - destruct (genDeleteSQL schema table oldV columns d1) as [[sql wv]|]; [|done].
    by apply IH.
  - destruct (forRange oldV _) as [updates|]; [|done].
    destruct (length updates.*1 =? 0)%nat; [by apply IH|].
    destruct (if (0 <? len d1)%nat then _ else _) as [[wc wv]|]; [|done].
    destruct (genWhere wc wv) as [w|]; [|done].
    by apply IH.
Qed.

End NoPartialOutput.

(** C6: when a row of an insert or delete batch has not the length of the
    column catalog, or a row of a pair of an update batch has not, or the two
    rows of a pair differ in length, whatever rows came before: a result the
    generator returns is the mismatch error with nil statements, keys and
    values, never a partial output; and the generator returns it when the
    ordinals of the index columns are positions of the catalog. *)
Theorem mismatch_aborts_batch
    (FF : Z → Z → string) (SV : Value → string)
    (schema table : string) (columns : list column)
    (indexColumns : gmap string (list column)) (seeds : Sched) :
  (∀ dataSeq,
     Exists (λ data, length data ≠ length columns) dataSeq →
     (∀ out seeds',
        genInsertSQLs FF SV schema table columns indexColumns dataSeq seeds
        = Ret (out, seeds') → isMismatch out)
     ∧ (indexes_in_range (length columns) indexColumns →
        ∃ msg seeds',
          genInsertSQLs FF SV schema table columns indexColumns dataSeq seeds
          = Ret ((None, None, None, Some msg), seeds')))
  ∧ (∀ pairs safeMode,
       Exists (λ p, length p.1 ≠ length p.2
                    ∨ length p.1 ≠ length columns
                    ∨ length p.2 ≠ length columns) pairs →
       (∀ out seeds',
          genUpdateSQLs FF SV schema table columns indexColumns
            (flattenPairs pairs) safeMode seeds
          = Ret (out, seeds') → isMismatch out)
       ∧ (indexes_in_range (length columns) indexColumns →
          ∃ msg seeds',
            genUpdateSQLs FF SV schema table columns indexColumns
              (flattenPairs pairs) safeMode seeds
            = Ret ((None, None, None, Some msg), seeds')))
  ∧ (∀ dataSeq,
       Exists (λ data, length data ≠ length columns) dataSeq →
       (∀ out seeds',
          genDeleteSQLs FF SV schema table columns indexColumns dataSeq seeds
          = Ret (out, seeds') → isMismatch out)
       ∧ (indexes_in_range (length columns) indexColumns →
          ∃ msg seeds',
            genDeleteSQLs FF SV schema table columns indexColumns dataSeq seeds
            = Ret ((None, None, None, Some msg), seeds'))).
Proof.
  split; [|split].
  - intros dataSeq Hbad. split.
    { intros out seeds'. by apply genInsertSQLs_loop_no_partial. }
    intros Hrange.
    destruct (first_bad (λ data : list Value, length data = length columns)
                (λ data, length data ≠ length columns) dataSeq)
      as (good & data & rest & -> & Hgood & Hdata); [intros x; lia|done|].
    unfold genInsertSQLs.
    destruct (genInsertSQLs_loop_prefix FF SV schema table columns indexColumns Hrange
                good (data :: rest) Hgood [] [] [] seeds)
      as (sqls' & keys' & values' & seeds' & -> & _).
    cbn [genInsertSQLs_loop].
    destruct (Nat.eqb_spec (length data) (length columns)); [done|].
    by do 2 eexists.
  - intros pairs safeMode Hbad. split.
    { intros out seeds'. unfold genUpdateSQLs, mbind'.
      destruct (findFitIndex indexColumns seeds) as [[d s]|]; [|done].
      by apply genUpdateSQLs_loop_no_partial. }
    intros Hrange.
    destruct (first_bad
                (λ p : list Value * list Value,
                   length p.1 = length columns ∧ length p.2 = length columns)
                (λ p, length p.1 ≠ length p.2
                      ∨ length p.1 ≠ length columns
                      ∨ length p.2 ≠ length columns) pairs)
      as (good & [old changed] & rest & -> & Hgood & Hpair); [intros x; lia|done|].
    simpl in Hpair. unfold genUpdateSQLs.
    destruct (findFitIndex_carried indexColumns seeds) as (d & seeds0 & Hd & Hcar).
    rewrite (mbind_Ret _ _ _ _ _ Hd).
    rewrite flattenPairs_app.
    destruct (genUpdateSQLs_loop_prefix FF SV schema table columns indexColumns Hrange
                safeMode good (flattenPairs ((old, changed) :: rest)) Hgood
                d [] [] [] seeds0 Hcar)
      as (runs & d' & seeds' & _ & _ & ->).
    change (flattenPairs ((old, changed) :: rest))
      with (old :: changed :: flattenPairs rest).
    cbn [genUpdateSQLs_loop].
    destruct (Nat.eqb_spec (length old) (length changed)); [|by do 2 eexists].
    destruct (Nat.eqb_spec (length old) (length columns)); [lia|by do 2 eexists].
  - intros dataSeq Hbad. split.
    { intros out seeds'. unfold genDeleteSQLs, mbind'.
      destruct (findFitIndex indexColumns seeds) as [[d s]|]; [|done].
      by apply genDeleteSQLs_loop_no_partial. }
    intros Hrange.
    destruct (first_bad (λ data : list Value, length data = length columns)
                (λ data, length data ≠ length columns) dataSeq)
      as (good & data & rest & -> & Hgood & Hdata); [intros x; lia|done|].
    unfold genDeleteSQLs.
    destruct (findFitIndex_carried indexColumns seeds) as (d & seeds0 & Hd & Hcar).
    rewrite (mbind_Ret _ _ _ _ _ Hd).
    destruct (genDeleteSQLs_loop_prefix FF SV schema table columns indexColumns Hrange
                good (data :: rest) Hgood d [] [] [] seeds0 Hcar)
      as (d' & sqls' & keys' & values' & seeds' & _ & -> & _).
    cbn [genDeleteSQLs_loop].
    destruct (Nat.eqb_spec (length data) (length columns)); [done|].
    by do 2 eexists.
Qed.

Lemma mismatch_aborts_batch_witness :
  indexes_in_range (length t_columns) t_indexes
  ∧ (∃ msg seeds',
       genInsertSQLs sampleFormatFloat sampleSprint_v "db" "t" t_columns t_indexes
         [[VInt32 5; VString "alice"]; [VInt32 6]] []
       = Ret ((None, None, None, Some msg), seeds'))
  ∧ (∃ msg seeds',
       genUpdateSQLs sampleFormatFloat sampleSprint_v "db" "t" t_columns t_indexes
         (flattenPairs [([VInt32 5; VString "alice"], [VInt32 5; VString "bob"]);
                        ([VInt32 6; VString "carol"], [VInt32 6])]) true []
       = Ret ((None, None, None, Some msg), seeds'))
  ∧ (∃ msg seeds',
       genDeleteSQLs sampleFormatFloat sampleSprint_v "db" "t" t_columns t_indexes
         [[VInt32 5; VString "alice"]; [VInt32 6]] []
       = Ret ((None, None, None, Some msg), seeds'))
  ∧ isMismatch
      (None, None, None,
       Some "insert columns and data mismatch in length: 2 (columns) vs 1 (data)").
Proof.
  assert (indexes_in_range (length t_columns) t_indexes) as Hr by solve_in_range.
  assert (Exists (λ data : list Value, length data ≠ length t_columns)
            [[VInt32 5; VString "alice"]; [VInt32 6]]) as Hrows.
  { apply Exists_cons_tl, Exists_cons_hd. simpl. lia. }
  assert (Exists (λ p : list Value * list Value,
                    length p.1 ≠ length p.2
                    ∨ length p.1 ≠ length t_columns
                    ∨ length p.2 ≠ length t_columns)
            [([VInt32 5; VString "alice"], [VInt32 5; VString "bob"]);
             ([VInt32 6; VString "carol"], [VInt32 6])]) as Hpairs.
  { apply Exists_cons_tl, Exists_cons_hd. simpl. lia. }
  destruct (mismatch_aborts_batch sampleFormatFloat sampleSprint_v "db" "t"
              t_columns t_indexes []) as (Hins & Hupd & Hdel).
  destruct (Hins _ Hrows) as [Hins1 Hins2].
  destruct (Hupd _ true Hpairs) as [_ Hupd2].
  destruct (Hdel _ Hrows) as [_ Hdel2].
  split; [exact Hr|]. split; [exact (Hins2 Hr)|].
  split; [exact (Hupd2 Hr)|]. split; [exact (Hdel2 Hr)|].
  apply (Hins1 _ []). reflexivity.
Defined.

(** ** The fallback index and the rows after it *)

(** C4: over a catalog with no schema-fit index, the delete and update
    generators select a row-available index for the first row and keep it for
    the rows after it.  For the batch of the rows [1, NULL] and [NULL, 2] of a
    table with the unique keys [ua] on [a] and [ub] on [b]: alone, the second
    row is deleted by [b], the index available in it; after the first row it
    is deleted by [a], whose value in it is nil, under either order of visit
    of the indexes. *)
Theorem row_fallback_kept_for_later_rows :
  findFitIndex ab_indexes [] = Ret (None, [])
  ∧ rowAvailable [VNil; VInt32 2] [col_b]
  ∧ ¬ rowAvailable [VNil; VInt32 2] [col_a]
  ∧ genDeleteSQLs sampleFormatFloat sampleSprint_v "db" "t" ab_columns ab_indexes
      [[VNil; VInt32 2]] []
    = Ret (Some ["DELETE FROM `db`.`t` WHERE `b` = ? LIMIT 1;"],
           Some [["null"; "2"]], Some [[VInt32 2]], None, [])
  ∧ genDeleteSQLs sampleFormatFloat sampleSprint_v "db" "t" ab_columns ab_indexes
      [[VInt32 1; VNil]; [VNil; VInt32 2]] []
    = Ret (Some ["DELETE FROM `db`.`t` WHERE `a` = ? LIMIT 1;";
                 "DELETE FROM `db`.`t` WHERE `a` IS ? LIMIT 1;"],
           Some [["1"; "null"]; ["null"; "2"]], Some [[VInt32 1]; [VNil]], None, [])
  ∧ genDeleteSQLs sampleFormatFloat sampleSprint_v "db" "t" ab_columns ab_indexes
      [[VInt32 1; VNil]; [VNil; VInt32 2]] [1; 1; 1; 1]%nat
    = Ret (Some ["DELETE FROM `db`.`t` WHERE `a` = ? LIMIT 1;";
                 "DELETE FROM `db`.`t` WHERE `a` IS ? LIMIT 1;"],
           Some [["null"; "1"]; ["2"; "null"]], Some [[VInt32 1]; [VNil]], None, [])
  ∧ genUpdateSQLs sampleFormatFloat sampleSprint_v "db" "t" ab_columns ab_indexes
      [[VInt32 1; VNil]; [VInt32 3; VNil]; [VNil; VInt32 2]; [VNil; VInt32 4]] false []
    = Ret (Some ["UPDATE `db`.`t` SET `a` = ?, `b` = ? WHERE `a` = ? LIMIT 1;";
                 "UPDATE `db`.`t` SET `a` = ?, `b` = ? WHERE `a` IS ? LIMIT 1;"],
           Some [["1"; "null"; "3"; "null"]; ["null"; "2"; "null"; "4"]],
           Some [[VInt32 3; VNil; VInt32 1]; [VNil; VInt32 4; VNil]], None, []).
Proof.
  split; [reflexivity|]. split.
  { split; [done|]. repeat constructor. by exists (VInt32 2). }
  split.
  { intros [_ Hall]. apply Forall_inv in Hall as (d & Hd & Hne).
    simpl in Hd. by simplify_eq. }
  repeat split; reflexivity.
Qed.

(** ** The examples of the specification *)

Example insert_alice :
  genInsertSQLs sampleFormatFloat sampleSprint_v "db" "t" t_columns t_indexes
    [[VInt32 5; VString "alice"]] []
  = Ret (Some ["REPLACE INTO `db`.`t` (`id`,`name`) VALUES (?,?);"],
         Some [["5"]], Some [[VUint32 5; VString "alice"]], None, []).
Proof. reflexivity. Qed.

Example delete_alice :
  genDeleteSQLs sampleFormatFloat sampleSprint_v "db" "t" t_columns t_indexes
    [[VInt32 5; VString "alice"]] []
  = Ret (Some ["DELETE FROM `db`.`t` WHERE `id` = ? LIMIT 1;"],
         Some [["5"]], Some [[VUint32 5]], None, []).
Proof. reflexivity. Qed.

Example update_alice_to_bob :
  genUpdateSQLs sampleFormatFloat sampleSprint_v "db" "t" t_columns t_indexes
    [[VInt32 5; VString "alice"]; [VInt32 5; VString "bob"]] false []
  = Ret (Some ["UPDATE `db`.`t` SET `id` = ?, `name` = ? WHERE `id` = ? LIMIT 1;"],
         Some [["5"; "5"]], Some [[VUint32 5; VString "bob"; VUint32 5]], None, []).
Proof. reflexivity. Qed.

Example safe_update_alice_to_bob :
  genUpdateSQLs sampleFormatFloat sampleSprint_v "db" "t" t_columns t_indexes
    [[VInt32 5; VString "alice"]; [VInt32 5; VString "bob"]] true []
  = Ret (Some ["DELETE FROM `db`.`t` WHERE `id` = ? LIMIT 1;";
               "REPLACE INTO `db`.`t` (`id`,`name`) VALUES (?,?);"],
         Some [["5"; "5"]; ["5"; "5"]],
         Some [[VUint32 5]; [VUint32 5; VString "bob"]], None, []).
Proof. reflexivity. Qed.

(** Over an empty column catalog the SET list is empty and the non-safe
    update of a pair of empty rows is skipped. *)
Example update_skipped_without_columns :
  genUpdateSQLs sampleFormatFloat sampleSprint_v "db" "t" [] ∅ [[]; []] false []
  = Ret (Some [], Some [], Some [], None, []).
Proof. reflexivity. Qed.

Example castUnsigned_int32 :
  castUnsigned (VInt32 (-4692783)) true "int(11) unsigned" = VUint32 4290274513.
Proof. reflexivity. Qed.

Example castUnsigned_bigint :
  castUnsigned (VInt64 (-1)) true "bigint(20) unsigned" = VString "18446744073709551615".
Proof. vm_compute. reflexivity. Qed.

(** * Further properties of dml.go *)

(** ** Casting twice *)

Lemma castUnsigned_unsigned_fixed (d : Value) (tp1 : string) (u2 : bool) (tp2 : string) :
  castUnsigned (castUnsigned d true tp1) u2 tp2 = castUnsigned d true tp1.
Proof.
  destruct u2; [|reflexivity].
  destruct d; try reflexivity.
  remember (castUnsigned (VInt32 v) true tp1) as r eqn:Hr.
  unfold castUnsigned in Hr. cbn [negb] in Hr. cbv iota in Hr.
  destruct (Contains (ToLower tp1) "mediumint"); subst r; reflexivity.
Qed.

Lemma castUnsigned_idempotent (d : Value) (u : bool) (tp : string) :
  castUnsigned (castUnsigned d u tp) u tp = castUnsigned d u tp.
Proof.
  destruct u; [apply castUnsigned_unsigned_fixed|reflexivity].
Qed.

(** X1: a value that went through the unsigned cast is left as it is by any
    later cast, so casting is idempotent and the text [columnValue] gives for
    a casted value is the text it gives for the raw one: the keys, which the
    generators compute on casted rows, are those of the raw values. *)
Theorem cast_once_is_enough (FF : Z → Z → string) (SV : Value → string)
    (d : Value) (u : bool) (tp tp' : string) (u' : bool) :
  castUnsigned (castUnsigned d true tp) u' tp' = castUnsigned d true tp
  ∧ castUnsigned (castUnsigned d u tp) u tp = castUnsigned d u tp
  ∧ columnValue FF SV (castUnsigned d u tp) u tp = columnValue FF SV d u tp.
Proof.
  split; [apply castUnsigned_unsigned_fixed|]. split; [apply castUnsigned_idempotent|].
  unfold columnValue. by rewrite castUnsigned_idempotent.
Qed.

(** ** The numbers of the unsigned cast *)

Lemma wrap_mod (w v : Z) :
  (0 < w)%Z → (- 2 ^ (w - 1) ≤ v < 2 ^ (w - 1))%Z →
  v mod 2 ^ w = if (v <? 0)%Z then v + 2 ^ w else v.
Proof.
  intros Hw Hv.
  assert (2 ^ w = 2 * 2 ^ (w - 1)) as Hpow.
  { rewrite <- Z.pow_succ_r by lia. f_equal. lia. }
  destruct (Z.ltb_spec v 0).
  - rewrite <- (Z.mod_add v 1 (2 ^ w)) by lia.
    rewrite Z.mod_small; lia.
  - rewrite Z.mod_small; lia.
Qed.

(** X2: on an unsigned column a signed integer of width 8, 16, 32 or 64 bits
    (24 bits under a mediumint type) keeps its number when it is not negative
    and is raised by two to the width when it is negative; a 64-bit one is
    returned as the decimal text of that number.  The 32-bit case is stated
    for a declared type written in ASCII bytes that does not hold mediumint
    in any letter case. *)
Theorem castUnsigned_twos_complement (v : Z) (tp : string) :
  ((- 2 ^ 7 ≤ v < 2 ^ 7)%Z →
   castUnsigned (VInt8 v) true tp = VUint8 (if (v <? 0)%Z then v + 2 ^ 8 else v))
  ∧ ((- 2 ^ 15 ≤ v < 2 ^ 15)%Z →
     castUnsigned (VInt16 v) true tp = VUint16 (if (v <? 0)%Z then v + 2 ^ 16 else v))
  ∧ ((- 2 ^ 31 ≤ v < 2 ^ 31)%Z → isASCII tp = true →
     Contains (ToLower tp) "mediumint" = false →
     castUnsigned (VInt32 v) true tp = VUint32 (if (v <? 0)%Z then v + 2 ^ 32 else v))
  ∧ ((- 2 ^ 23 ≤ v < 2 ^ 23)%Z → Contains (ToLower tp) "mediumint" = true →
     castUnsigned (VInt32 v) true tp = VUint32 (if (v <? 0)%Z then v + 2 ^ 24 else v))
  ∧ ((- 2 ^ 63 ≤ v < 2 ^ 63)%Z →
     castUnsigned (VInt v) true tp = VUint (if (v <? 0)%Z then v + 2 ^ 64 else v)
     ∧ castUnsigned (VInt64 v) true tp
       = VString (FormatUint (if (v <? 0)%Z then v + 2 ^ 64 else v))).
Proof.
  repeat split.
  - intros Hv. unfold castUnsigned, to_uint8. cbn [negb]. cbv iota.
    by rewrite (wrap_mod 8) by lia.
  - intros Hv. unfold castUnsigned, to_uint16. cbn [negb]. cbv iota.
    by rewrite (wrap_mod 16) by lia.
  - intros Hv _ Htp. unfold castUnsigned. cbn [negb]. cbv iota. rewrite Htp.
    unfold to_uint32. by rewrite (wrap_mod 32) by lia.
  - intros Hv Htp. unfold castUnsigned. cbn [negb]. cbv iota. rewrite Htp.
    unfold PutUint32. cbn [lookup_total list_lookup_total].
    rewrite low_three_bytes, mod_24_of_uint32. by rewrite (wrap_mod 24) by lia.
  - unfold castUnsigned, to_uint64. cbn [negb]. cbv iota.
    by rewrite (wrap_mod 64) by lia.
  - unfold castUnsigned, to_uint64. cbn [negb]. cbv iota.
    by rewrite (wrap_mod 64) by lia.
Qed.

Lemma castUnsigned_twos_complement_witness :
  castUnsigned (VInt8 (-1)) true "tinyint(3) unsigned" = VUint8 255
  ∧ castUnsigned (VInt16 (-2)) true "smallint(5) unsigned" = VUint16 65534
  ∧ castUnsigned (VInt32 7) true "int(10) unsigned" = VUint32 7
  ∧ castUnsigned (VInt32 (-1)) true "mediumint(8) unsigned" = VUint32 16777215
  ∧ castUnsigned (VInt64 (-1)) true "bigint(20) unsigned"
    = VString (FormatUint 18446744073709551615).
Proof.
  split; [|split; [|split; [|split]]].
  - destruct (castUnsigned_twos_complement (-1) "tinyint(3) unsigned") as (H & _).
    apply H. lia.
  - destruct (castUnsigned_twos_complement (-2) "smallint(5) unsigned")
      as (_ & H & _).
    apply H. lia.
  - destruct (castUnsigned_twos_complement 7 "int(10) unsigned") as (_ & _ & H & _).
    apply H; [lia|reflexivity|reflexivity].
  - destruct (castUnsigned_twos_complement (-1) "mediumint(8) unsigned")
      as (_ & _ & _ & H & _).
    apply H; [lia|reflexivity].
  - destruct (castUnsigned_twos_complement (-1) "bigint(20) unsigned")
      as (_ & _ & _ & _ & H).
    apply H. lia.
Defined.

(** The mediumint branch is taken in every letter case, also for the
    capital I with a dot above (U+0130), which [strings.ToLower] lowers to
    the letter i. *)
Example castUnsigned_mediumint_dotted_capital :
  isASCII "MEDİUMINT(8) unsigned" = false
  ∧ Contains (ToLower "MEDİUMINT(8) unsigned") "mediumint" = true
  ∧ castUnsigned (VInt32 (-1)) true "MEDİUMINT(8) unsigned" = VUint32 16777215.
Proof. repeat split; reflexivity. Qed.

(** ** What the selections return *)

Lemma getSpecifiedIndexColumn_Some
    (indexColumns : gmap string (list column)) fn seeds cols seeds' :
  getSpecifiedIndexColumn indexColumns fn seeds = Ret (Some cols, seeds') →
  qualifies fn cols ∧ ∃ name, indexColumns !! name = Some cols.
Proof.
  intros H. apply getSpecifiedIndexColumn_inv in H as (entries & Hp & Hscan).
  apply scanIndexes_Some in Hscan as [Hq [nm Hin]].
  split; [done|]. exists nm. rewrite Hp in Hin. by apply elem_of_map_to_list.
Qed.

Lemma getSpecifiedIndexColumn_None
    (indexColumns : gmap string (list column)) fn seeds seeds' :
  getSpecifiedIndexColumn indexColumns fn seeds = Ret (None, seeds') →
  ∀ name cols, indexColumns !! name = Some cols → ¬ qualifies fn cols.
Proof.
  intros H nm cols Hin.
  apply getSpecifiedIndexColumn_inv in H as (entries & Hp & Hscan).
  eapply scanIndexes_None; [exact Hscan|].
  rewrite Hp. by apply elem_of_map_to_list.
Qed.

Lemma getSpecifiedIndexColumn_may_select
    (indexColumns : gmap string (list column)) fn name cols :
  indexColumns !! name = Some cols → qualifies fn cols →
  ∃ seed, ∀ seeds,
    getSpecifiedIndexColumn indexColumns fn (seed :: seeds) = Ret (Some cols, seeds).
Proof.
  intros Hin [Hne Hall].
  destruct (range_any_order indexColumns
              ((name, cols) :: map_to_list (delete name indexColumns)))
    as [seed Hseed]; [by apply map_to_list_delete|].
  exists seed. intros seeds.
  unfold getSpecifiedIndexColumn, mbind'. rewrite Hseed. simpl.
  destruct cols as [|c cols]; [done|]. cbn [length Nat.eqb].
  apply anyColumn_false in Hall. by rewrite Hall.
Qed.

(** X3: [findFitIndex] returns a result under every order of visit.  A
    primary index with a column is returned whatever the other indexes are;
    any other result is an index of the catalog whose columns are all
    declared not null; the result is nil exactly when the catalog has no
    primary index with a column and no index whose columns are all declared
    not null. *)
Theorem findFitIndex_primary_then_not_null
    (indexColumns : gmap string (list column)) (seeds : Sched) :
  ∃ r seeds',
    findFitIndex indexColumns seeds = Ret (r, seeds')
    ∧ (∀ c cols, indexColumns !! "primary" = Some (c :: cols) → r = Some (c :: cols))
    ∧ (∀ cols, r = Some cols →
         indexColumns !! "primary" = Some cols
         ∨ ∃ name, indexColumns !! name = Some cols ∧ schemaFit cols)
    ∧ (r = None ↔
       (∀ c cols, indexColumns !! "primary" ≠ Some (c :: cols))
       ∧ noFitIndex indexColumns).
Proof.
  destruct (findFitIndex_total indexColumns seeds) as (r & seeds' & Hr).
  exists r, seeds'. split; [done|].
  rewrite findFitIndex_unfold in Hr.
  assert (getSpecifiedIndexColumn indexColumns fitFn seeds = Ret (r, seeds') →
          (∀ cols, r = Some cols →
             ∃ name, indexColumns !! name = Some cols ∧ schemaFit cols)
          ∧ (r = None ↔ noFitIndex indexColumns)) as Hscan.
  { intros H. split.
    - intros cols ->. apply getSpecifiedIndexColumn_Some in H as [Hq [nm Hin]].
      exists nm. split; [done|]. by apply qualifies_fitFn.
    - split.
      + intros ->. intros nm cols Hin Hfit.
        eapply getSpecifiedIndexColumn_None; [exact H|exact Hin|].
        by apply qualifies_fitFn.
      + intros Hnone. destruct r as [cols|]; [|done].
        apply getSpecifiedIndexColumn_Some in H as [Hq [nm Hin]].
        destruct (Hnone nm cols Hin). by apply qualifies_fitFn. }
  destruct (indexColumns !! "primary") as [[|c cols]|] eqn:Hprim; simpl in Hr.
  - destruct (Hscan Hr) as [Hsome Hnone].
    split; [done|]. split; [intros cols' ?; right; by apply Hsome|].
    rewrite Hnone. split; [by split|]. by intros [_ ?].
  - unfold mret in Hr. injection Hr as <- <-.
    split; [by intros c' cols' [= -> ->]|]. split; [intros cols' [= <-]; by left|].
    split; [done|]. intros [Hno _]. by destruct (Hno c cols).
  - destruct (Hscan Hr) as [Hsome Hnone].
    split; [done|]. split; [intros cols' ?; right; by apply Hsome|].
    rewrite Hnone. split; [by split|]. by intros [_ ?].
Qed.

(** X4: when the ordinals of the index columns are positions of the row,
    [getAvailableIndexColumn] returns a result under every order of visit:
    an index of the catalog that has a column and whose columns all hold a
    non-nil value in the row, or nil, and nil exactly when the catalog has no
    such index. *)
Theorem getAvailableIndexColumn_finds_available
    (indexColumns : gmap string (list column)) (data : list Value) (seeds : Sched) :
  indexes_in_range (length data) indexColumns →
  ∃ r seeds',
    getAvailableIndexColumn indexColumns data seeds = Ret (r, seeds')
    ∧ (∀ cols, r = Some cols →
         ∃ name, indexColumns !! name = Some cols ∧ rowAvailable data cols)
    ∧ (r = None ↔ noAvailableIndex indexColumns data).
Proof.
  intros Hrange.
  destruct (getSpecifiedIndexColumn_total indexColumns (availableFn data) seeds)
    as (r & seeds' & Hr); [by apply availableFn_total|].
  exists r, seeds'. split; [exact Hr|]. split.
  - intros cols ->. apply getSpecifiedIndexColumn_Some in Hr as [Hq [nm Hin]].
    exists nm. split; [done|]. by apply qualifies_availableFn.
  - split.
    + intros ->. intros nm cols Hin Havail.
      eapply getSpecifiedIndexColumn_None; [exact Hr|exact Hin|].
      by apply qualifies_availableFn.
    + intros Hnone. destruct r as [cols|]; [|done].
      apply getSpecifiedIndexColumn_Some in Hr as [Hq [nm Hin]].
      destruct (Hnone nm cols Hin). by apply qualifies_availableFn.
Qed.

Lemma getAvailableIndexColumn_finds_available_witness :
  indexes_in_range (length [VInt32 1; VNil]) ab_indexes
  ∧ ∃ r seeds',
      getAvailableIndexColumn ab_indexes [VInt32 1; VNil] [1%nat] = Ret (r, seeds')
      ∧ (∀ cols, r = Some cols →
           ∃ name, ab_indexes !! name = Some cols ∧ rowAvailable [VInt32 1; VNil] cols)
      ∧ (r = None ↔ noAvailableIndex ab_indexes [VInt32 1; VNil]).
Proof.
  assert (indexes_in_range (length [VInt32 1; VNil]) ab_indexes) as Hr
    by solve_in_range.
  split; [exact Hr|].
  exact (getAvailableIndexColumn_finds_available ab_indexes [VInt32 1; VNil]
           [1%nat] Hr).
Defined.

(** X5: which qualifying index is selected is left to the order of visit:
    every index available in the row is what [getAvailableIndexColumn]
    returns under some order, and, when the catalog has no primary index,
    every index whose columns are all declared not null is what
    [findFitIndex] returns under some order. *)
Theorem every_qualifying_index_may_be_selected
    (indexColumns : gmap string (list column)) (data : list Value)
    (name : string) (cols : list column) :
  indexColumns !! name = Some cols →
  (rowAvailable data cols →
   ∃ seed, ∀ seeds,
     getAvailableIndexColumn indexColumns data (seed :: seeds) = Ret (Some cols, seeds))
  ∧ (schemaFit cols → indexColumns !! "primary" = None →
     ∃ seed, ∀ seeds,
       findFitIndex indexColumns (seed :: seeds) = Ret (Some cols, seeds)).
Proof.
  intros Hin. split.
  - intros Havail.
    apply (getSpecifiedIndexColumn_may_select indexColumns (availableFn data) name cols);
      [done|by apply qualifies_availableFn].
  - intros Hfit Hprim.
    destruct (getSpecifiedIndexColumn_may_select indexColumns fitFn name cols)
      as [seed Hseed]; [done|by apply qualifies_fitFn|].
    exists seed. intros seeds. rewrite findFitIndex_unfold, Hprim. apply Hseed.
Qed.

Lemma every_qualifying_index_may_be_selected_witness :
  xy_indexes !! "ux" = Some [col_x]
  ∧ (∃ seed, ∀ seeds,
       getAvailableIndexColumn xy_indexes [VInt32 1; VInt32 2] (seed :: seeds)
       = Ret (Some [col_x], seeds))
  ∧ (∃ seed, ∀ seeds,
       findFitIndex xy_indexes (seed :: seeds) = Ret (Some [col_x], seeds)).
Proof.
  assert (xy_indexes !! "ux" = Some [col_x]) as Hin by reflexivity.
  destruct (every_qualifying_index_may_be_selected xy_indexes [VInt32 1; VInt32 2]
              "ux" [col_x] Hin) as [Havail Hfit].
  split; [exact Hin|]. split.
  - apply Havail. split; [done|]. repeat constructor. by exists (VInt32 1).
  - apply Hfit; [|reflexivity]. split; [done|]. by repeat constructor.
Defined.

(** ** Keys *)

Lemma forRange_from_lookup {A B} (i : nat) (l : list A) (body : nat → A → res B)
    (bs : list B) (j : nat) (a : A) :
  forRange_from i l body = Ret bs → l !! j = Some a →
  ∃ b, bs !! j = Some b ∧ body (i + j)%nat a = Ret b.
Proof.
  revert i bs j. induction l as [|x l IH]; intros i bs j; simpl; [done|].
  destruct (body i x) as [b|] eqn:Hb; simpl; [|done].
  destruct (forRange_from (S i) l body) as [bs'|] eqn:E; simpl; [|done].
  intros [= <-] Hj. destruct j as [|j]; simpl in Hj.
  - injection Hj as ->. exists b. by rewrite Nat.add_0_r.
  - destruct (IH (S i) bs' j E Hj) as (b' & Hb' & Hbody).
    exists b'. split; [done|]. by replace (i + S j)%nat with (S i + j)%nat by lia.
Qed.

Lemma castValues_lookup (columns : list column) (data value : list Value) :
  castValues columns data = Ret value →
  length value = length data
  ∧ ∀ i d, data !! i = Some d →
      ∃ c, columns !! i = Some c
           ∧ value !! i = Some (castUnsigned d (unsigned c) (tp c)).
Proof.
  intros H. split; [by apply forRange_length in H|].
  intros i d Hd.
  destruct (forRange_from_lookup 0 data _ value i d H Hd) as (b & Hb & Hbody).
  simpl in Hbody. unfold index in Hbody.
  destruct (columns !! i) as [c|]; simpl in Hbody; [|done].
  injection Hbody as <-. by exists c.
Qed.

Section KeyTexts.

Variable FF : Z → Z → string.
Variable SV : Value → string.

Lemma genKeyList_joined (columns : list column) (dataSeq : list Value) :
  (length dataSeq ≤ length columns)%nat →
  genKeyList FF SV columns dataSeq
  = Ret (Join (zip_with (λ c d, columnValue FF SV d (unsigned c) (tp c))
                 columns dataSeq) ",").
Proof.
  intros Hlen. unfold genKeyList.
  rewrite (forRange_ext dataSeq _
             (λ i d, columnValue FF SV d (unsigned (columns !!! i)) (tp (columns !!! i)))).
  - simpl. do 2 f_equal. apply list_eq. intros i.
    rewrite list_lookup_imap, lookup_zip_with.
    destruct (dataSeq !! i) as [d|] eqn:Hd; simpl.
    + apply lookup_lt_Some in Hd.
      destruct (lookup_lt_is_Some_2 columns i) as [c Hc]; [lia|].
      rewrite Hc. simpl. by rewrite (list_lookup_total_correct _ _ _ Hc).
    + by destruct (columns !! i).
  - intros j d Hd. apply lookup_lt_Some in Hd.
    destruct (index_lt columns j) as (c & -> & Hc); [lia|]. simpl.
    by rewrite (list_lookup_total_correct _ _ _ Hc).
Qed.

Lemma genKeyList_too_many_values (columns : list column) (dataSeq : list Value) :
  (length columns < length dataSeq)%nat →
  ∃ msg, genKeyList FF SV columns dataSeq = Panic msg.
Proof.
  intros Hlen. unfold genKeyList.
  destruct (forRange dataSeq _) as [vs|msg] eqn:E; [|by eexists].
  destruct (lookup_lt_is_Some_2 dataSeq (length columns) Hlen) as [d Hd].
  destruct (forRange_from_lookup 0 dataSeq _ vs _ d E Hd) as (b & _ & Hbody).
  simpl in Hbody. unfold index in Hbody.
  by rewrite (proj2 (lookup_ge_None columns (length columns))) in Hbody by lia.
Qed.

Lemma genMultipleKeys_loop_keyOf columns value entries keys :
  genMultipleKeys_loop FF SV columns value entries = Ret keys →
  Forall2 (λ e k, keyOf FF SV columns value e.2 = Ret k) entries keys.
Proof.
  revert keys. induction entries as [|[nm indexCols] entries IH]; intros keys; simpl.
  - intros [= <-]. constructor.
  - destruct (getColumnData columns indexCols value) as [[cols vals]|] eqn:Hdata;
      simpl; [|done].
    destruct (genKeyList FF SV cols vals) as [key|] eqn:Hkey; simpl; [|done].
    destruct (genMultipleKeys_loop FF SV columns value entries) as [ks|]; simpl; [|done].
    intros [= <-]. constructor; [|by apply IH].
    unfold keyOf. simpl. by rewrite Hdata.
Qed.

Lemma genMultipleKeys_loop_map columns value entries keys :
  genMultipleKeys_loop FF SV columns value entries = Ret keys →
  keys = map (λ e, match keyOf FF SV columns value e.2 with
                   | Ret k => k
                   | Panic _ => ""
                   end) entries.
Proof.
  intros H. apply genMultipleKeys_loop_keyOf in H.
  induction H as [|e k entries keys Hk _ IH]; simpl; [done|].
  by rewrite Hk, IH.
Qed.

(** X6: the keys of a row are the same under every order of visit of the
    indexes, up to their order in the list: two results of [genMultipleKeys]
    on the same row and catalog are permutations of each other. *)
Theorem genMultipleKeys_keys_up_to_order
    (columns : list column) (value : list Value)
    (indexColumns : gmap string (list column))
    (seeds1 seeds2 seeds1' seeds2' : Sched) (keys1 keys2 : list string) :
  genMultipleKeys FF SV columns value indexColumns seeds1 = Ret (keys1, seeds1') →
  genMultipleKeys FF SV columns value indexColumns seeds2 = Ret (keys2, seeds2') →
  keys1 ≡ₚ keys2.
Proof.
  intros H1 H2.
  apply genMultipleKeys_inv in H1 as (entries1 & Hp1 & Hloop1).
  apply genMultipleKeys_inv in H2 as (entries2 & Hp2 & Hloop2).
  rewrite (genMultipleKeys_loop_map _ _ _ _ Hloop1),
          (genMultipleKeys_loop_map _ _ _ _ Hloop2).
  apply Permutation_map. by rewrite Hp1, Hp2.
Qed.

(** X7: the key of an index is the comma-joined text of the row's values at
    the ordinals of its columns, each rendered by [columnValue] under the
    flags of its column; with more values than columns [genKeyList] panics. *)
Theorem genKeyList_joins_column_values
    (columns : list column) (dataSeq : list Value) :
  ((length dataSeq ≤ length columns)%nat →
   genKeyList FF SV columns dataSeq
   = Ret (Join (zip_with (λ c d, columnValue FF SV d (unsigned c) (tp c))
                  columns dataSeq) ","))
  ∧ ((length columns < length dataSeq)%nat →
     ∃ msg, genKeyList FF SV columns dataSeq = Panic msg).
Proof.
  split; [apply genKeyList_joined|apply genKeyList_too_many_values].
Qed.

Lemma keyOf_casted (columns : list column) (data value : list Value)
    (indexCols : list column) :
  length data = length columns →
  castValues columns data = Ret value →
  Forall (λ c, columns !! idx c = Some c) indexCols →
  keyOf FF SV columns value indexCols = keyOf FF SV columns data indexCols.
Proof.
  intros Hlen Hcast Hcols.
  apply castValues_lookup in Hcast as [Hvlen Hvalue].
  assert (columns_in_range (length data) indexCols) as Hrange.
  { eapply Forall_impl; [exact Hcols|]. intros c Hc. simpl in Hc.
    apply lookup_lt_Some in Hc. simpl. lia. }
  destruct (getColumnData_values columns indexCols data Hrange)
    as (vals & Hvals & Hall).
  destruct (getColumnData_values columns indexCols value)
    as (vals' & Hvals' & Hall'); [by rewrite Hvlen|].
  unfold keyOf. rewrite Hvals, Hvals'. simpl.
  rewrite !genKeyList_joined
    by (erewrite <- Forall2_length by eassumption; done).
  do 2 f_equal.
  clear Hvals Hvals' Hrange. revert vals vals' Hall Hall'.
  induction Hcols as [|c cols Hc _ IH]; intros vals vals' Hall Hall'.
  - by inversion Hall; inversion Hall'.
  - inversion Hall as [|? d ? vs Hd Hrest]; subst.
    inversion Hall' as [|? d' ? vs' Hd' Hrest']; subst.
    simpl. f_equal; [|by apply IH].
    destruct (Hvalue _ _ Hd) as (c' & Hc' & Hcasted).
    rewrite Hc in Hc'. injection Hc' as <-.
    rewrite Hcasted in Hd'. injection Hd' as <-.
    unfold columnValue. by rewrite castUnsigned_idempotent.
Qed.

(** X8: when every index column is the column of the catalog at its
    ordinal, the keys of the casted row, which are those the generators
    emit, are the keys of the raw row: the second cast that [columnValue]
    applies changes nothing. *)
Theorem keys_of_casted_row_are_keys_of_raw_row
    (columns : list column) (data value : list Value)
    (indexColumns : gmap string (list column)) (seeds : Sched) :
  length data = length columns →
  indexes_of_catalog columns indexColumns →
  castValues columns data = Ret value →
  genMultipleKeys FF SV columns value indexColumns seeds
  = genMultipleKeys FF SV columns data indexColumns seeds
  ∧ ∃ keys seeds',
      genMultipleKeys FF SV columns value indexColumns seeds = Ret (keys, seeds').
Proof.
  intros Hlen Hcat Hcast.
  assert (indexes_in_range (length value) indexColumns) as Hrange.
  { apply castValues_lookup in Hcast as [-> _]. rewrite Hlen.
    intros nm cols Hin. specialize (Hcat nm cols Hin). simpl in Hcat.
    eapply Forall_impl; [exact Hcat|]. intros c Hc. simpl in Hc.
    by apply lookup_lt_Some in Hc. }
  split; [|by apply genMultipleKeys_total].
  unfold genMultipleKeys, mbind', liftRes.
  destruct (range_visits indexColumns seeds) as (entries & s & -> & Hp).
  assert (Forall (λ e, Forall (λ c, columns !! idx c = Some c) e.2) entries) as Hent.
  { rewrite Hp. apply map_Forall_to_list in Hcat.
    eapply Forall_impl; [exact Hcat|]. by intros [??]. }
  assert (genMultipleKeys_loop FF SV columns value entries
          = genMultipleKeys_loop FF SV columns data entries) as ->; [|done].
  clear Hp. induction Hent as [|[nm cols] entries Hcols _ IH]; simpl; [done|].
  pose proof (keyOf_casted columns data value cols Hlen Hcast Hcols) as Hkey.
  unfold keyOf in Hkey.
  assert (columns_in_range (length data) cols) as Hr.
  { eapply Forall_impl; [exact Hcols|]. intros c Hc. simpl in Hc.
    apply lookup_lt_Some in Hc. simpl. lia. }
  destruct (getColumnData_total columns cols data Hr) as [v2 E2].
  destruct (getColumnData_total columns cols value) as [v1 E1].
  { by apply castValues_lookup in Hcast as [-> _]. }
  rewrite E1, E2 in Hkey |- *. simpl in Hkey |- *. by rewrite Hkey, IH.
Qed.

End KeyTexts.

Ltac solve_of_catalog :=
  apply map_Forall_to_list; vm_compute map_to_list;
  repeat (first [apply Forall_nil_2 | apply Forall_cons_2]); reflexivity.

Lemma genMultipleKeys_keys_up_to_order_witness :
  ["1"; "null"] ≡ₚ ["null"; "1"].
Proof.
  apply (genMultipleKeys_keys_up_to_order sampleFormatFloat sampleSprint_v
           ab_columns [VInt32 1; VNil] ab_indexes [0%nat] [1%nat] [] []);
    reflexivity.
Defined.

Lemma genKeyList_joins_column_values_witness :
  genKeyList sampleFormatFloat sampleSprint_v t_columns [VInt32 5; VString "alice"]
  = Ret "5,alice"
  ∧ ∃ msg, genKeyList sampleFormatFloat sampleSprint_v t_columns
             [VInt32 5; VString "alice"; VNil] = Panic msg.
Proof.
  split.
  - apply (genKeyList_joins_column_values sampleFormatFloat sampleSprint_v
             t_columns [VInt32 5; VString "alice"]). simpl. lia.
  - apply (genKeyList_joins_column_values sampleFormatFloat sampleSprint_v
             t_columns [VInt32 5; VString "alice"; VNil]). simpl. lia.
Defined.

Lemma keys_of_casted_row_are_keys_of_raw_row_witness :
  indexes_of_catalog t_columns t_indexes
  ∧ genMultipleKeys sampleFormatFloat sampleSprint_v t_columns
      [VUint32 5; VString "alice"] t_indexes []
    = genMultipleKeys sampleFormatFloat sampleSprint_v t_columns
        [VInt32 5; VString "alice"] t_indexes [].
Proof.
  assert (indexes_of_catalog t_columns t_indexes) as Hcat by solve_of_catalog.
  split; [exact Hcat|].
  apply (keys_of_casted_row_are_keys_of_raw_row sampleFormatFloat sampleSprint_v
           t_columns [VInt32 5; VString "alice"] [VUint32 5; VString "alice"]
           t_indexes []); [reflexivity|exact Hcat|reflexivity].
Defined.

(** ** Resolving index column names *)

Lemma findColumn_Some (columns : list column) (n : string) (c : column) :
  findColumn columns n = Some c →
  name c = n
  ∧ ∃ i, columns !! i = Some c
         ∧ ∀ j c', (j < i)%nat → columns !! j = Some c' → name c' ≠ n.
Proof.
  induction columns as [|c0 columns IH]; simpl; [done|].
  case_bool_decide as Hname.
  - intros [= <-]. split; [done|]. exists 0%nat. split; [done|]. intros; lia.
  - intros H. destruct (IH H) as (Hn & i & Hi & Hbefore).
    split; [done|]. exists (S i). split; [done|].
    intros [|j] c' Hj Hc'; simpl in Hc'.
    + by injection Hc' as <-.
    + apply (Hbefore j); [lia|done].
Qed.

Lemma findColumn_None (columns : list column) (n : string) :
  findColumn columns n = None ↔ ∀ c, c ∈ columns → name c ≠ n.
Proof.
  induction columns as [|c0 columns IH]; simpl.
  - split; [|done]. intros _ c Hc. by apply elem_of_nil in Hc.
  - case_bool_decide as Hname.
    + split; [done|]. intros H. destruct (H c0); [by left|done].
    + rewrite IH. split.
      * intros H c Hc. apply elem_of_cons in Hc as [->|Hc]; [done|by apply H].
      * intros H c Hc. apply H. by right.
Qed.

(** X9: [findColumn] returns the first column of the catalog that bears the
    name, and the nil pointer exactly when no column bears it. *)
Theorem findColumn_first_of_that_name (columns : list column) (n : string) :
  (∀ c, findColumn columns n = Some c →
        name c = n
        ∧ ∃ i, columns !! i = Some c
               ∧ ∀ j c', (j < i)%nat → columns !! j = Some c' → name c' ≠ n)
  ∧ (findColumn columns n = None ↔ ∀ c, c ∈ columns → name c ≠ n).
Proof. split; [apply findColumn_Some|apply findColumn_None]. Qed.

Lemma findColumns_cols_omap (columns : list column) (indexCols : list string) :
  findColumns_cols columns indexCols = omap (findColumn columns) indexCols.
Proof.
  induction indexCols as [|n indexCols IH]; simpl; [done|].
  destruct (findColumn columns n); by rewrite IH.
Qed.

Lemma findColumns_loop_lookup (columns : list column)
    (entries : list (string * list string)) (result : gmap string (list column))
    (k : string) :
  NoDup entries.*1 →
  findColumns_loop columns entries result !! k
  = match (list_to_map entries : gmap string (list string)) !! k with
    | Some names => Some (findColumns_cols columns names)
    | None => result !! k
    end.
Proof.
  revert result. induction entries as [|[kn ns] entries IH]; intros result Hnd; simpl.
  - by rewrite lookup_empty.
  - apply NoDup_cons in Hnd as [Hnotin Hnd]. simpl in Hnotin.
    rewrite IH by done.
    destruct (decide (k = kn)) as [->|Hne].
    + rewrite lookup_insert_eq.
      rewrite (not_elem_of_list_to_map_1 _ _ Hnotin).
      by rewrite lookup_insert_eq.
    + by rewrite !lookup_insert_ne by done.
Qed.

Lemma findColumns_result (columns : list column)
    (indexColumns : gmap string (list string)) (seeds : Sched) :
  ∃ seeds',
    findColumns columns indexColumns seeds
    = Ret ((λ names : list string, omap (findColumn columns) names) <$> indexColumns, seeds').
Proof.
  unfold findColumns, mbind', mret.
  destruct (range_visits indexColumns seeds) as (entries & seeds' & -> & Hp).
  exists seeds'. do 2 f_equal. apply map_eq. intros k.
  assert (NoDup entries.*1) as Hnd.
  { rewrite Hp. apply NoDup_fst_map_to_list. }
  rewrite findColumns_loop_lookup by done.
  rewrite (list_to_map_proper entries (map_to_list indexColumns)) by done.
  rewrite list_to_map_to_list, lookup_empty, lookup_fmap.
  destruct (indexColumns !! k); simpl; [|done].
  by rewrite findColumns_cols_omap.
Qed.

Lemma omap_findColumn_facts (columns : list column) (names : list string) :
  Forall (λ c, c ∈ columns ∧ name c ∈ names) (omap (findColumn columns) names)
  ∧ (length (omap (findColumn columns) names) ≤ length names)%nat
  ∧ (Forall (λ n, ∃ c, c ∈ columns ∧ name c = n) names →
     name <$> omap (findColumn columns) names = names).
Proof.
  induction names as [|n names (IHall & IHlen & IHnames)]; simpl.
  - split; [constructor|]. split; [lia|done].
  - destruct (findColumn columns n) as [c|] eqn:Hc; simpl.
    + apply findColumn_Some in Hc as (Hn & i & Hi & _).
      split; [|split].
      * constructor.
        -- split; [by eapply list_elem_of_lookup_2|]. rewrite Hn. by left.
        -- eapply Forall_impl; [exact IHall|]. intros c' [? ?]. split; [done|by right].
      * cbn [length]. apply le_n_S, IHlen.
      * intros Hall. apply Forall_cons in Hall as [_ Hall].
        change (name c :: (name <$> omap (findColumn columns) names) = n :: names).
        by rewrite Hn, IHnames.
    + split; [|split].
      * eapply Forall_impl; [exact IHall|]. intros c' [? ?]. split; [done|by right].
      * cbn [length]. apply Nat.le_le_succ_r, IHlen.
      * intros Hall. apply Forall_cons in Hall as [(c & Hin & Hname) _].
        by destruct (proj1 (findColumn_None columns n) Hc c Hin).
Qed.

(** X10: [findColumns] returns the same map under every order of visit: each
    declared index keeps its name, also when none of its columns is found,
    and is given the columns found for its names, in the order of the names,
    the names absent from the catalog left out; when every name is in the
    catalog the columns bear exactly the declared names. *)
Theorem findColumns_resolves_each_index (columns : list column)
    (indexColumns : gmap string (list string)) (seeds : Sched) :
  ∃ result seeds',
    findColumns columns indexColumns seeds = Ret (result, seeds')
    ∧ result = (λ names : list string, omap (findColumn columns) names) <$> indexColumns
    ∧ dom result = dom indexColumns
    ∧ ∀ keyName names cols,
        indexColumns !! keyName = Some names → result !! keyName = Some cols →
        Forall (λ c, c ∈ columns ∧ name c ∈ names) cols
        ∧ (length cols ≤ length names)%nat
        ∧ (Forall (λ n, ∃ c, c ∈ columns ∧ name c = n) names → name <$> cols = names).
Proof.
  destruct (findColumns_result columns indexColumns seeds) as [seeds' H].
  exists ((λ names : list string, omap (findColumn columns) names) <$> indexColumns), seeds'.
  split; [done|]. split; [done|]. split; [apply dom_fmap_L|].
  intros keyName names cols Hin Hres.
  rewrite lookup_fmap, Hin in Hres. injection Hres as <-.
  apply omap_findColumn_facts.
Qed.

(** ** Outputs in step *)

Lemma list_pair_ind {A} (P : list A → Prop) :
  P [] → (∀ x, P [x]) → (∀ x y l, P l → P (x :: y :: l)) → ∀ l, P l.
Proof.
  intros Hnil Hone Hstep l.
  assert (P l ∧ ∀ x, P (x :: l)) as [H _]; [|exact H].
  induction l as [|a l [IH1 IH2]]; [by split|].
  split; [apply IH2|]. intros x. by apply Hstep.
Qed.

Section OutputsInStep.

Variable FF : Z → Z → string.
Variable SV : Value → string.
Variables (schema table : string).
Variable columns : list column.
Variable indexColumns : gmap string (list column).

Lemma genInsertSQLs_loop_aligned cl cp (dataSeq : list (list Value)) :
  ∀ sqls keys values seeds out seeds',
    length sqls = length keys → length keys = length values →
    genInsertSQLs_loop FF SV schema table columns indexColumns cl cp
      dataSeq sqls keys values seeds = Ret (out, seeds') →
    isMismatch out ∨ alignedOutput out.
Proof.
  induction dataSeq as [|data rest IH]; intros sqls keys values seeds out seeds' H1 H2.
  - simpl. intros [= <- <-]. right. by exists sqls, keys, values.
  - cbn [genInsertSQLs_loop].
    destruct (length data =? length columns)%nat; cbn [negb];
      [|intros [= <- <-]; left; by eexists].
    unfold mbind', liftRes.
    destruct (castValues columns data) as [value|]; [|done].
    destruct (genMultipleKeys FF SV columns value indexColumns seeds) as [[ks s]|];
      [|done].
    apply IH; rewrite !length_app; simpl; lia.
Qed.

Lemma genDeleteSQLs_loop_aligned (dataSeq : list (list Value)) :
  ∀ d sqls keys values seeds out seeds',
    length sqls = length keys → length keys = length values →
    genDeleteSQLs_loop FF SV schema table columns indexColumns
      dataSeq d sqls keys values seeds = Ret (out, seeds') →
    isMismatch out ∨ alignedOutput out.
Proof.
  induction dataSeq as [|data rest IH]; intros d sqls keys values seeds out seeds' H1 H2.
  - simpl. intros [= <- <-]. right. by exists sqls, keys, values.
  - cbn [genDeleteSQLs_loop].
    destruct (length data =? length columns)%nat; cbn [negb];
      [|intros [= <- <-]; left; by eexists].
    unfold mbind', liftRes.
    destruct (castValues columns data) as [value|]; [|done].
    destruct ((if (len d =? 0)%nat
               then getAvailableIndexColumn indexColumns value else mret d) seeds)
      as [[d1 s1]|]; [|done].
    destruct (genMultipleKeys FF SV columns value indexColumns s1) as [[ks s2]|];
      [|done].
    destruct (genDeleteSQL schema table value columns d1) as [[sql wv]|]; [|done].
    apply IH; rewrite !length_app; simpl; lia.
Qed.

Lemma genUpdateSQLs_loop_aligned safeMode cl cp (data : list (list Value)) :
  ∀ d sqls keys values seeds out seeds',
    length sqls = length keys → length keys = length values →
    genUpdateSQLs_loop FF SV schema table columns indexColumns safeMode cl cp
      data d sqls keys values seeds = Ret (out, seeds') →
    isMismatch out ∨ alignedOutput out.
Proof.
  induction data as [|x|old changed rest IH] using list_pair_ind;
    intros d sqls keys values seeds out seeds' H1 H2.
  - simpl. intros [= <- <-]. right. by exists sqls, keys, values.
  - simpl. done.
  - cbn [genUpdateSQLs_loop].
    destruct (length old =? length changed)%nat; cbn [negb];
      [|intros [= <- <-]; left; by eexists].
    destruct (length old =? length columns)%nat; cbn [negb];
      [|intros [= <- <-]; left; by eexists].
    unfold mbind', liftRes.
    destruct (castValues columns old) as [oldV|]; [|done].
    destruct (castValues columns changed) as [newV|]; [|done].
    destruct ((if (len d =? 0)%nat
               then getAvailableIndexColumn indexColumns oldV else mret d) seeds)
      as [[d1 s1]|]; [|done].
    destruct (genMultipleKeys FF SV columns oldV indexColumns s1) as [[k1 s2]|]; [|done].
    destruct (genMultipleKeys FF SV columns newV indexColumns s2) as [[k2 s3]|]; [|done].
    destruct safeMode.
    + destruct (genDeleteSQL schema table oldV columns d1) as [[sql wv]|]; [|done].
      apply IH; rewrite !length_app; simpl; lia.
    + destruct (forRange oldV _) as [updates|]; [|done].
      destruct (length updates.*1 =? 0)%nat; [by apply IH|].
      destruct (if (0 <? len d1)%nat then _ else _) as [[wc wv]|]; [|done].
      destruct (genWhere wc wv) as [w|]; [|done].
      apply IH; rewrite !length_app; simpl; lia.
Qed.

(** X11: whatever the batch, its rows and the catalog, what a batch
    generator returns is either the mismatch error with nil statements, keys
    and values, or no error with statements, keys and values of the same
    length: the three sequences are never out of step. *)
Theorem outputs_mismatch_or_in_step
    (dataSeq : list (list Value)) (safeMode : bool) (seeds : Sched) :
  (∀ out seeds',
     genInsertSQLs FF SV schema table columns indexColumns dataSeq seeds
     = Ret (out, seeds') → isMismatch out ∨ alignedOutput out)
  ∧ (∀ out seeds',
       genUpdateSQLs FF SV schema table columns indexColumns dataSeq safeMode seeds
       = Ret (out, seeds') → isMismatch out ∨ alignedOutput out)
  ∧ (∀ out seeds',
       genDeleteSQLs FF SV schema table columns indexColumns dataSeq seeds
       = Ret (out, seeds') → isMismatch out ∨ alignedOutput out).
Proof.
  split; [|split]; intros out seeds'.
  - by apply genInsertSQLs_loop_aligned.
  - unfold genUpdateSQLs, mbind'.
    destruct (findFitIndex indexColumns seeds) as [[d s]|]; [|done].
    by apply genUpdateSQLs_loop_aligned.
  - unfold genDeleteSQLs, mbind'.
    destruct (findFitIndex indexColumns seeds) as [[d s]|]; [|done].
    by apply genDeleteSQLs_loop_aligned.
Qed.

End OutputsInStep.

Lemma outputs_mismatch_or_in_step_witness :
  isMismatch (None, None, None,
              Some "insert columns and data mismatch in length: 2 (columns) vs 1 (data)")
  ∨ alignedOutput (None, None, None,
              Some "insert columns and data mismatch in length: 2 (columns) vs 1 (data)").
Proof.
  destruct (outputs_mismatch_or_in_step sampleFormatFloat sampleSprint_v "db" "t"
              t_columns t_indexes [[VInt32 5; VString "alice"]; [VInt32 6]] false [])
    as (Hins & _ & _).
  apply (Hins _ []). reflexivity.
Defined.

(** ** Delete batches, row by row *)

Lemma sticky_all (d : slice column) (ds : list (slice column)) :
  sticky d ds → d ≠ None → Forall (λ d1, d1 = d) ds.
Proof.
  revert d. induction ds as [|d1 ds IH]; intros d; simpl; [constructor|].
  intros [Hd1 Hrest] Hd. specialize (Hd1 Hd). subst d1.
  constructor; [done|]. by apply IH.
Qed.

Lemma sticky_later (d : slice column) (ds : list (slice column)) (i j : nat)
    (d1 d2 : slice column) :
  sticky d ds → (i ≤ j)%nat → ds !! i = Some d1 → ds !! j = Some d2 →
  d1 ≠ None → d2 = d1.
Proof.
  revert d i j. induction ds as [|d0 ds IH]; intros d i j; simpl; [done|].
  intros [Hd0 Hrest] Hij Hi Hj Hne.
  destruct i as [|i]; simpl in Hi.
  - injection Hi as ->. destruct j as [|j]; simpl in Hj; [by injection Hj|].
    pose proof (sticky_all _ _ Hrest Hne) as Hall.
    by apply (Forall_lookup_1 _ _ _ _ Hall Hj).
  - destruct j as [|j]; [lia|]. simpl in Hj.
    apply (IH d0 i j); [done|lia|done..].
Qed.

Section DeleteRuns.

Variable FF : Z → Z → string.
Variable SV : Value → string.
Variables (schema table : string).
Variable columns : list column.
Variable indexColumns : gmap string (list column).
Hypothesis Hrange : indexes_in_range (length columns) indexColumns.

Lemma fallback_keeps (d d1 : slice column) (value : list Value) (seeds seeds1 : Sched) :
  selected indexColumns d →
  (if (len d =? 0)%nat then getAvailableIndexColumn indexColumns value else mret d)
    seeds = Ret (d1, seeds1) →
  d ≠ None → d1 = d.
Proof.
  intros Hsel H Hne.
  destruct (len d =? 0)%nat eqn:Hzero.
  - apply (selected_len indexColumns d Hsel) in Hzero. done.
  - unfold mret in H. by injection H as <- _.
Qed.

Lemma genDeleteSQLs_loop_runs (good rest : list (list Value)) :
  Forall (λ data, length data = length columns) good →
  ∀ d sqls keys values seeds,
    carried indexColumns d →
    ∃ runs d' seeds',
      Forall2 (deleteRunOf FF SV columns indexColumns) good runs
      ∧ carried indexColumns d'
      ∧ sticky d (rowIndex <$> runs)
      ∧ genDeleteSQLs_loop FF SV schema table columns indexColumns
          (good ++ rest) d sqls keys values seeds
        = genDeleteSQLs_loop FF SV schema table columns indexColumns
            rest d'
            (sqls ++ map (deleteStmt schema table) runs)
            (keys ++ map rowKeys runs)
            (values ++ map rowWhereValues runs) seeds'.
Proof.
  induction 1 as [|data good Hlen _ IH]; intros d sqls keys values seeds Hd.
  - exists [], d, seeds. simpl. rewrite !app_nil_r.
    split; [constructor|]. split; [done|]. by split.
  - change ((data :: good) ++ rest) with (data :: (good ++ rest)).
    cbn [genDeleteSQLs_loop].
    rewrite Hlen, Nat.eqb_refl. cbn [negb].
    destruct (castValues_total columns data Hlen) as (value & Hvalue & HvalueL).
    rewrite (mbind_liftRes _ _ _ _ Hvalue).
    destruct (fallback_in_effect columns indexColumns Hrange d value seeds HvalueL Hd)
      as (d1 & seeds1 & Hd1 & Heff1 & Hcar1).
    pose proof (proj1 Hcar1) as Hsel1.
    rewrite (mbind_Ret _ _ _ _ _ Hd1).
    destruct (genMultipleKeys_total FF SV columns value indexColumns seeds1)
      as (ks & seeds2 & Hks); [by rewrite HvalueL|].
    rewrite (mbind_Ret _ _ _ _ _ Hks).
    destruct (where_basis_total columns indexColumns Hrange d1 value HvalueL Hsel1)
      as (wc & wv & Hdata & Hbasis & Hwlen).
    assert (genDeleteSQL schema table value columns d1
            = Ret (deleteStmt schema table (RowRun value d1 wc wv ks), wv)) as Hdel.
    { unfold genDeleteSQL. rewrite Hdata. simpl.
      by rewrite genWhere_clause by lia. }
    rewrite (mbind_liftRes _ _ _ _ Hdel). cbv beta iota.
    edestruct (IH d1) as (runs & d' & seeds' & Hruns & Hcar' & Hsticky & Heq);
      [exact Hcar1|].
    exists (RowRun value d1 wc wv ks :: runs), d', seeds'.
    split.
    { constructor; [|done]. unfold deleteRunOf. simpl.
      do 4 (split; [done|]). by exists seeds1, seeds2. }
    split; [done|]. split.
    { simpl. split; [|done]. intros Hne.
      by apply (fallback_keeps d d1 value seeds seeds1 (proj1 Hd) Hd1). }
    rewrite Heq. simpl. by rewrite <- !app_assoc.
Qed.

Lemma genDeleteSQLs_runs (dataSeq : list (list Value)) (seeds : Sched) :
  Forall (λ data, length data = length columns) dataSeq →
  ∃ d0 seeds0 runs seeds',
    findFitIndex indexColumns seeds = Ret (d0, seeds0)
    ∧ Forall2 (deleteRunOf FF SV columns indexColumns) dataSeq runs
    ∧ sticky d0 (rowIndex <$> runs)
    ∧ genDeleteSQLs FF SV schema table columns indexColumns dataSeq seeds
      = Ret ((Some (map (deleteStmt schema table) runs),
              Some (map rowKeys runs),
              Some (map rowWhereValues runs), None), seeds').
Proof.
  intros Hrows. unfold genDeleteSQLs.
  destruct (findFitIndex_carried indexColumns seeds) as (d0 & seeds0 & Hd0 & Hcar).
  rewrite (mbind_Ret _ _ _ _ _ Hd0).
  destruct (genDeleteSQLs_loop_runs dataSeq [] Hrows d0 [] [] [] seeds0 Hcar)
    as (runs & d' & seeds' & Hruns & _ & Hsticky & Heq).
  exists d0, seeds0, runs, seeds'. split; [done|]. split; [done|]. split; [done|].
  rewrite app_nil_r in Heq. by rewrite Heq.
Qed.

(** X12: a delete batch whose rows have the length of the catalog, over
    indexes whose ordinals are positions of the catalog, is translated row by
    row, in order: each row yields one DELETE whose WHERE clause is built on
    the casted row, over the columns of the index in effect with the values at
    their ordinals or over all columns when no index is in effect, with one
    bound value per column of the clause, and the keys of the casted row. *)
Theorem delete_batch_row_by_row (dataSeq : list (list Value)) (seeds : Sched) :
  Forall (λ data, length data = length columns) dataSeq →
  ∃ runs seeds',
    Forall2 (deleteRunOf FF SV columns indexColumns) dataSeq runs
    ∧ genDeleteSQLs FF SV schema table columns indexColumns dataSeq seeds
      = Ret ((Some (map (deleteStmt schema table) runs),
              Some (map rowKeys runs),
              Some (map rowWhereValues runs), None), seeds').
Proof.
  intros Hrows.
  destruct (genDeleteSQLs_runs dataSeq seeds Hrows)
    as (d0 & seeds0 & runs & seeds' & _ & Hruns & _ & Heq).
  by exists runs, seeds'.
Qed.

(** X13: the index in effect is kept along a delete batch.  With a primary
    index that has a column, every row is deleted by the primary index; in
    general, from the first row for which an index is in effect on, every
    row is deleted by that same index. *)
Theorem delete_batch_keeps_its_index (dataSeq : list (list Value)) (seeds : Sched) :
  Forall (λ data, length data = length columns) dataSeq →
  ∃ runs seeds',
    Forall2 (deleteRunOf FF SV columns indexColumns) dataSeq runs
    ∧ genDeleteSQLs FF SV schema table columns indexColumns dataSeq seeds
      = Ret ((Some (map (deleteStmt schema table) runs),
              Some (map rowKeys runs),
              Some (map rowWhereValues runs), None), seeds')
    ∧ (∀ c cols, indexColumns !! "primary" = Some (c :: cols) →
         Forall (λ r, rowIndex r = Some (c :: cols)
                      ∧ rowWhereColumns r = c :: cols) runs)
    ∧ (∀ i j r1 r2, (i ≤ j)%nat → runs !! i = Some r1 → runs !! j = Some r2 →
         rowIndex r1 ≠ None → rowIndex r2 = rowIndex r1).
Proof.
  intros Hrows.
  destruct (genDeleteSQLs_runs dataSeq seeds Hrows)
    as (d0 & seeds0 & runs & seeds' & Hd0 & Hruns & Hsticky & Heq).
  exists runs, seeds'. split; [done|]. split; [done|]. split.
  - intros c cols Hprim.
    rewrite findFitIndex_unfold, Hprim in Hd0. simpl in Hd0.
    unfold mret in Hd0. injection Hd0 as <- <-.
    pose proof (sticky_all _ _ Hsticky ltac:(done)) as Hall.
    apply Forall_fmap in Hall.
    apply Forall_forall. intros r Hr.
    pose proof (proj1 (Forall_forall _ _) Hall r Hr) as Hidx. simpl in Hidx.
    split; [done|].
    apply list_elem_of_lookup_1 in Hr as [i Hi].
    destruct (Forall2_lookup_r _ _ _ _ _ Hruns Hi) as (data & _ & Hrun).
    destruct Hrun as (_ & _ & Hbasis & _).
    unfold whereBasis in Hbasis. rewrite Hidx in Hbasis. simpl in Hbasis.
    by destruct Hbasis.
  - intros i j r1 r2 Hij Hi Hj Hne.
    apply (sticky_later d0 (rowIndex <$> runs) i j); try done.
    + by rewrite list_lookup_fmap, Hi.
    + by rewrite list_lookup_fmap, Hj.
Qed.

End DeleteRuns.

Lemma delete_batch_row_by_row_witness :
  indexes_in_range (length ab_columns) ab_indexes
  ∧ ∃ runs seeds',
      Forall2 (deleteRunOf sampleFormatFloat sampleSprint_v ab_columns ab_indexes)
        [[VInt32 1; VNil]; [VNil; VInt32 2]] runs
      ∧ genDeleteSQLs sampleFormatFloat sampleSprint_v "db" "t" ab_columns ab_indexes
          [[VInt32 1; VNil]; [VNil; VInt32 2]] []
        = Ret ((Some (map (deleteStmt "db" "t") runs),
                Some (map rowKeys runs),
                Some (map rowWhereValues runs), None), seeds').
Proof.
  assert (indexes_in_range (length ab_columns) ab_indexes) as Hr by solve_in_range.
  split; [exact Hr|].
  apply (delete_batch_row_by_row sampleFormatFloat sampleSprint_v "db" "t"
           ab_columns ab_indexes Hr). by repeat constructor.
Defined.

Lemma delete_batch_keeps_its_index_witness :
  indexes_in_range (length t_columns) t_indexes
  ∧ ∃ runs seeds',
      Forall2 (deleteRunOf sampleFormatFloat sampleSprint_v t_columns t_indexes)
        [[VInt32 5; VString "alice"]; [VInt32 6; VNil]] runs
      ∧ genDeleteSQLs sampleFormatFloat sampleSprint_v "db" "t" t_columns t_indexes
          [[VInt32 5; VString "alice"]; [VInt32 6; VNil]] []
        = Ret ((Some (map (deleteStmt "db" "t") runs),
                Some (map rowKeys runs),
                Some (map rowWhereValues runs), None), seeds')
      ∧ Forall (λ r, rowIndex r = Some [col_id] ∧ rowWhereColumns r = [col_id]) runs.
Proof.
  assert (indexes_in_range (length t_columns) t_indexes) as Hr by solve_in_range.
  split; [exact Hr|].
  destruct (delete_batch_keeps_its_index sampleFormatFloat sampleSprint_v "db" "t"
              t_columns t_indexes Hr [[VInt32 5; VString "alice"]; [VInt32 6; VNil]] [])
    as (runs & seeds' & Hruns & Heq & Hprim & _); [by repeat constructor|].
  exists runs, seeds'. split; [done|]. split; [done|].
  apply (Hprim col_id []). reflexivity.
Defined.

(** ** Insert batches, row by row *)

Section InsertRuns.

Variable FF : Z → Z → string.
Variable SV : Value → string.
Variables (schema table : string).
Variable columns : list column.
Variable indexColumns : gmap string (list column).
Hypothesis Hrange : indexes_in_range (length columns) indexColumns.

Lemma genInsertSQLs_loop_runs cl cp (good rest : list (list Value)) :
  Forall (λ data, length data = length columns) good →
  ∀ sqls keys values seeds,
    ∃ (runs : list (list Value * list string)) seeds',
      Forall2 (λ data run,
                 castValues columns data = Ret run.1
                 ∧ length run.1 = length columns
                 ∧ ∃ s s', genMultipleKeys FF SV columns run.1 indexColumns s
                           = Ret (run.2, s')) good runs
      ∧ genInsertSQLs_loop FF SV schema table columns indexColumns cl cp
          (good ++ rest) sqls keys values seeds
        = genInsertSQLs_loop FF SV schema table columns indexColumns cl cp rest
            (sqls ++ replicate (length good) (replaceSQL schema table cl cp))
            (keys ++ runs.*2) (values ++ runs.*1) seeds'.
Proof.
  induction 1 as [|data good Hlen _ IH]; intros sqls keys values seeds.
  - exists [], seeds. simpl. rewrite !app_nil_r. split; [constructor|done].
  - change ((data :: good) ++ rest) with (data :: (good ++ rest)).
    cbn [genInsertSQLs_loop].
    rewrite Hlen, Nat.eqb_refl. cbn [negb].
    destruct (castValues_total columns data Hlen) as (value & Hvalue & HvalueL).
    rewrite (mbind_liftRes _ _ _ _ Hvalue).
    destruct (genMultipleKeys_total FF SV columns value indexColumns seeds)
      as (ks & seeds1 & Hks); [by rewrite HvalueL|].
    rewrite (mbind_Ret _ _ _ _ _ Hks).
    edestruct IH as (runs & seeds' & Hruns & Heq).
    exists ((value, ks) :: runs), seeds'. split.
    { constructor; [|done]. simpl. do 2 (split; [done|]). by exists seeds, seeds1. }
    rewrite Heq. simpl. by rewrite <- !app_assoc.
Qed.

(** X14: an insert batch whose rows have the length of the catalog, over
    indexes whose ordinals are positions of the catalog, yields one statement
    per row, in order: the same text for every row, REPLACE INTO the table,
    named by schema and table between backticks, with the name of every
    column between backticks and one placeholder per column, both separated
    by single commas; the casted row as bound values, as many as the catalog
    has columns; and the keys of the casted row. *)
Theorem insert_batch_row_by_row (dataSeq : list (list Value)) (seeds : Sched) :
  Forall (λ data, length data = length columns) dataSeq →
  ∃ (runs : list (list Value * list string)) seeds',
    Forall2 (λ data run,
               castValues columns data = Ret run.1
               ∧ length run.1 = length columns
               ∧ ∃ s s', genMultipleKeys FF SV columns run.1 indexColumns s
                         = Ret (run.2, s')) dataSeq runs
    ∧ genInsertSQLs FF SV schema table columns indexColumns dataSeq seeds
      = Ret ((Some (replicate (length dataSeq)
                      ("REPLACE INTO `" +:+ schema +:+ "`.`" +:+ table +:+ "` ("
                       +:+ Join ((λ c, "`" +:+ name c +:+ "`") <$> columns) ","
                       +:+ ") VALUES ("
                       +:+ Join (replicate (length columns) "?") "," +:+ ");")),
              Some runs.*2, Some runs.*1, None), seeds').
Proof.
  intros Hrows. unfold genInsertSQLs.
  destruct (genInsertSQLs_loop_runs (genColumnList columns)
              (genColumnPlaceholders (length columns)) dataSeq [] Hrows [] [] [] seeds)
    as (runs & seeds' & Hruns & Heq).
  exists runs, seeds'. split; [done|].
  rewrite app_nil_r in Heq. rewrite Heq, replaceSQL_text. reflexivity.
Qed.

End InsertRuns.

Lemma insert_batch_row_by_row_witness :
  indexes_in_range (length t_columns) t_indexes
  ∧ ∃ (runs : list (list Value * list string)) seeds',
      Forall2 (λ data run,
                 castValues t_columns data = Ret run.1
                 ∧ length run.1 = length t_columns
                 ∧ ∃ s s', genMultipleKeys sampleFormatFloat sampleSprint_v
                             t_columns run.1 t_indexes s = Ret (run.2, s'))
        [[VInt32 5; VString "alice"]] runs
      ∧ genInsertSQLs sampleFormatFloat sampleSprint_v "db" "t" t_columns t_indexes
          [[VInt32 5; VString "alice"]] []
        = Ret ((Some ["REPLACE INTO `db`.`t` (`id`,`name`) VALUES (?,?);"],
                Some runs.*2, Some runs.*1, None), seeds').
Proof.
  assert (indexes_in_range (length t_columns) t_indexes) as Hr by solve_in_range.
  split; [exact Hr|].
  apply (insert_batch_row_by_row sampleFormatFloat sampleSprint_v "db" "t"
           t_columns t_indexes Hr [[VInt32 5; VString "alice"]] []).
  by repeat constructor.
Defined.

(** ** Batches at their edges *)

(** On an empty batch each generator returns empty, non-nil statements,
    keys and values and no error, whatever the catalog. *)
Lemma empty_batch_empty_output
    (FF : Z → Z → string) (SV : Value → string) (schema table : string)
    (columns : list column) (indexColumns : gmap string (list column))
    (safeMode : bool) (seeds : Sched) :
  genInsertSQLs FF SV schema table columns indexColumns [] seeds
  = Ret ((Some [], Some [], Some [], None), seeds)
  ∧ (∃ seeds',
       genUpdateSQLs FF SV schema table columns indexColumns [] safeMode seeds
       = Ret ((Some [], Some [], Some [], None), seeds'))
  ∧ (∃ seeds',
       genDeleteSQLs FF SV schema table columns indexColumns [] seeds
       = Ret ((Some [], Some [], Some [], None), seeds')).
Proof.
  split; [reflexivity|].
  destruct (findFitIndex_total indexColumns seeds) as (d & seeds' & Hd).
  split; exists seeds'.
  - unfold genUpdateSQLs. by rewrite (mbind_Ret _ _ _ _ _ Hd).
  - unfold genDeleteSQLs. by rewrite (mbind_Ret _ _ _ _ _ Hd).
Qed.

(** X15: an update batch with an odd number of rows, whose pairs are well
    formed, is not answered with an error: after the last pair the loop reads
    the missing after-state of the row left over and the generator panics. *)
Theorem update_batch_odd_panics
    (FF : Z → Z → string) (SV : Value → string) (schema table : string)
    (columns : list column) (indexColumns : gmap string (list column))
    (pairs : list (list Value * list Value)) (last : list Value)
    (safeMode : bool) (seeds : Sched) :
  indexes_in_range (length columns) indexColumns →
  Forall (λ p, length p.1 = length columns ∧ length p.2 = length columns) pairs →
  ∃ msg,
    genUpdateSQLs FF SV schema table columns indexColumns
      (flattenPairs pairs ++ [last]) safeMode seeds = Panic msg.
Proof.
  intros Hrange Hpairs. unfold genUpdateSQLs.
  destruct (findFitIndex_carried indexColumns seeds) as (d & seeds0 & Hd & Hcar).
  rewrite (mbind_Ret _ _ _ _ _ Hd).
  destruct (genUpdateSQLs_loop_prefix FF SV schema table columns indexColumns Hrange
              safeMode pairs [last] Hpairs d [] [] [] seeds0 Hcar)
    as (runs & d' & seeds' & _ & _ & ->).
  by eexists.
Qed.

Lemma update_batch_odd_panics_witness :
  indexes_in_range (length t_columns) t_indexes
  ∧ ∃ msg,
      genUpdateSQLs sampleFormatFloat sampleSprint_v "db" "t" t_columns t_indexes
        (flattenPairs [([VInt32 5; VString "alice"], [VInt32 5; VString "bob"])]
         ++ [[VInt32 6; VString "carol"]]) true [] = Panic msg.
Proof.
  assert (indexes_in_range (length t_columns) t_indexes) as Hr by solve_in_range.
  split; [exact Hr|].
  apply (update_batch_odd_panics sampleFormatFloat sampleSprint_v "db" "t"
           t_columns t_indexes); [exact Hr|]. by repeat constructor.
Defined.

(** ** Keys and values per statement *)

Lemma genMultipleKeys_length (FF : Z → Z → string) (SV : Value → string)
    (columns : list column) (value : list Value)
    (indexColumns : gmap string (list column)) (seeds seeds' : Sched)
    (keys : list string) :
  genMultipleKeys FF SV columns value indexColumns seeds = Ret (keys, seeds') →
  length keys = size indexColumns.
Proof.
  intros H. apply genMultipleKeys_inv in H as (entries & Hp & Hloop).
  apply genMultipleKeys_loop_length in Hloop. rewrite Hloop, Hp.
  apply length_map_to_list.
Qed.

(** X16: on a well-formed batch every statement comes with one key per
    declared index, an update with two, the keys of the before-state and
    those of the after-state; an insert binds as many values as the catalog
    has columns, and a delete as many as its WHERE clause has columns. *)
Theorem keys_per_statement
    (FF : Z → Z → string) (SV : Value → string) (schema table : string)
    (columns : list column) (indexColumns : gmap string (list column))
    (seeds : Sched) :
  indexes_in_range (length columns) indexColumns →
  (∀ dataSeq,
     Forall (λ data, length data = length columns) dataSeq →
     ∃ sqls keys values seeds',
       genInsertSQLs FF SV schema table columns indexColumns dataSeq seeds
       = Ret ((Some sqls, Some keys, Some values, None), seeds')
       ∧ length sqls = length dataSeq
       ∧ Forall (λ ks, length ks = size indexColumns) keys
       ∧ Forall (λ v, length v = length columns) values)
  ∧ (∀ pairs safeMode,
       Forall (λ p, length p.1 = length columns ∧ length p.2 = length columns) pairs →
       ∃ sqls keys values seeds',
         genUpdateSQLs FF SV schema table columns indexColumns
           (flattenPairs pairs) safeMode seeds
         = Ret ((Some sqls, Some keys, Some values, None), seeds')
         ∧ Forall (λ ks, length ks = (2 * size indexColumns)%nat) keys)
  ∧ (∀ dataSeq,
       Forall (λ data, length data = length columns) dataSeq →
       ∃ runs seeds',
         genDeleteSQLs FF SV schema table columns indexColumns dataSeq seeds
         = Ret ((Some (map (deleteStmt schema table) runs), Some (map rowKeys runs),
                 Some (map rowWhereValues runs), None), seeds')
         ∧ length runs = length dataSeq
         ∧ Forall (λ r, length (rowKeys r) = size indexColumns
                        ∧ length (rowWhereValues r) = length (rowWhereColumns r)) runs).
Proof.
  intros Hrange. split; [|split].
  - intros dataSeq Hrows. unfold genInsertSQLs.
    destruct (genInsertSQLs_loop_runs FF SV schema table columns indexColumns Hrange
                (genColumnList columns) (genColumnPlaceholders (length columns))
                dataSeq [] Hrows [] [] [] seeds) as (runs & seeds' & Hruns & Heq).
    rewrite app_nil_r in Heq. rewrite Heq. simpl.
    do 4 eexists. split; [reflexivity|]. split; [apply length_replicate|].
    split.
    + apply Forall_fmap, Forall_forall. intros run Hin.
      apply list_elem_of_lookup_1 in Hin as [i Hi].
      destruct (Forall2_lookup_r _ _ _ _ _ Hruns Hi) as (data & _ & _ & _ & s & s' & Hk).
      simpl. by eapply genMultipleKeys_length.
    + apply Forall_fmap, Forall_forall. intros run Hin.
      apply list_elem_of_lookup_1 in Hin as [i Hi].
      by destruct (Forall2_lookup_r _ _ _ _ _ Hruns Hi) as (data & _ & _ & ? & _).
  - intros pairs safeMode Hpairs.
    destruct (genUpdateSQLs_run FF SV schema table columns indexColumns pairs safeMode
                seeds Hrange Hpairs) as (runs & seeds' & Hruns & Heq).
    do 4 eexists. split; [exact Heq|].
    apply Forall_flat_map, Forall_forall. intros f Hin.
    apply list_elem_of_lookup_1 in Hin as [i Hi].
    destruct (Forall2_lookup_r _ _ _ _ _ Hruns Hi)
      as (p & _ & _ & _ & _ & k1 & k2 & s1 & s1' & s2 & s2' & Hk1 & Hk2 & Hks).
    apply genMultipleKeys_length in Hk1, Hk2.
    assert (length (pairKeys f) = (2 * size indexColumns)%nat) as Hlen.
    { rewrite Hks, length_app. lia. }
    unfold pairKeyLists.
    destruct safeMode; [by repeat constructor|].
    destruct (length columns =? 0)%nat; by repeat constructor.
  - intros dataSeq Hrows.
    destruct (genDeleteSQLs_runs FF SV schema table columns indexColumns Hrange
                dataSeq seeds Hrows)
      as (d0 & seeds0 & runs & seeds' & _ & Hruns & _ & Heq).
    exists runs, seeds'. split; [exact Heq|].
    split; [symmetry; by eapply Forall2_length|].
    apply Forall_forall. intros r Hin.
    apply list_elem_of_lookup_1 in Hin as [i Hi].
    destruct (Forall2_lookup_r _ _ _ _ _ Hruns Hi)
      as (data & _ & _ & _ & _ & Hwlen & s & s' & Hk).
    split; [by eapply genMultipleKeys_length|done].
Qed.

Lemma keys_per_statement_witness :
  indexes_in_range (length t_columns) t_indexes
  ∧ ∃ sqls keys values seeds',
      genUpdateSQLs sampleFormatFloat sampleSprint_v "db" "t" t_columns t_indexes
        (flattenPairs [([VInt32 5; VString "alice"], [VInt32 5; VString "bob"])])
        true []
      = Ret ((Some sqls, Some keys, Some values, None), seeds')
      ∧ Forall (λ ks, length ks = (2 * size t_indexes)%nat) keys.
Proof.
  assert (indexes_in_range (length t_columns) t_indexes) as Hr by solve_in_range.
  split; [exact Hr|].
  destruct (keys_per_statement sampleFormatFloat sampleSprint_v "db" "t"
              t_columns t_indexes [] Hr) as (_ & Hupd & _).
  apply Hupd. by repeat constructor.
Defined.

(** ** From index names to batches *)

Lemma catalog_ordered_lookup (columns : list column) (c : column) :
  catalog_ordered columns → c ∈ columns → columns !! idx c = Some c.
Proof.
  intros Hord Hin. apply list_elem_of_lookup_1 in Hin as [i Hi].
  by rewrite (Hord i c Hi).
Qed.

(** X17: when the columns of the catalog sit at their ordinals, the indexes
    [findColumns] resolves hold columns of the catalog at their ordinals, so
    that every ordinal is a position of a row of the catalog's length, and
    the three generators translate every well-formed batch over them: they
    return no error and do not panic. *)
Theorem resolved_indexes_translate
    (FF : Z → Z → string) (SV : Value → string) (schema table : string)
    (columns : list column) (indexNames : gmap string (list string))
    (seeds : Sched) :
  catalog_ordered columns →
  ∃ indexColumns seeds',
    findColumns columns indexNames seeds = Ret (indexColumns, seeds')
    ∧ indexes_of_catalog columns indexColumns
    ∧ indexes_in_range (length columns) indexColumns
    ∧ ∀ dataSeq pairs safeMode seeds1,
        Forall (λ data, length data = length columns) dataSeq →
        Forall (λ p, length p.1 = length columns ∧ length p.2 = length columns) pairs →
        (∃ out s, genInsertSQLs FF SV schema table columns indexColumns dataSeq seeds1
                  = Ret (out, s) ∧ alignedOutput out)
        ∧ (∃ out s, genUpdateSQLs FF SV schema table columns indexColumns
                      (flattenPairs pairs) safeMode seeds1
                    = Ret (out, s) ∧ alignedOutput out)
        ∧ (∃ out s, genDeleteSQLs FF SV schema table columns indexColumns dataSeq seeds1
                    = Ret (out, s) ∧ alignedOutput out).
Proof.
  intros Hord.
  destruct (findColumns_result columns indexNames seeds) as [seeds' Hfind].
  exists ((λ names : list string, omap (findColumn columns) names) <$> indexNames), seeds'.
  split; [done|].
  assert (indexes_of_catalog columns
            ((λ names : list string, omap (findColumn columns) names) <$> indexNames))
    as Hcat.
  { intros nm cols Hin. simpl.
    rewrite lookup_fmap in Hin.
    destruct (indexNames !! nm) as [names|]; simpl in Hin; [|done].
    injection Hin as <-.
    destruct (omap_findColumn_facts columns names) as (Hall & _).
    eapply Forall_impl; [exact Hall|]. intros c [Hc _].
    by apply catalog_ordered_lookup. }
  assert (indexes_in_range (length columns)
            ((λ names : list string, omap (findColumn columns) names) <$> indexNames))
    as Hrange.
  { intros nm cols Hin. specialize (Hcat nm cols Hin). simpl in Hcat |- *.
    eapply Forall_impl; [exact Hcat|]. intros c Hc. simpl in Hc.
    by apply lookup_lt_Some in Hc. }
  split; [done|]. split; [done|].
  intros dataSeq pairs safeMode seeds1 Hrows Hpairs.
  set (indexColumns :=
         (λ names : list string, omap (findColumn columns) names) <$> indexNames) in *.
  split; [|split].
  - destruct (genInsertSQLs_loop_runs FF SV schema table columns indexColumns Hrange
                (genColumnList columns) (genColumnPlaceholders (length columns))
                dataSeq [] Hrows [] [] [] seeds1) as (runs & s & Hruns & Heq).
    rewrite app_nil_r in Heq. unfold genInsertSQLs. rewrite Heq. simpl.
    do 2 eexists. split; [reflexivity|].
    do 3 eexists. split; [reflexivity|].
    rewrite length_replicate, !length_fmap.
    split; [by eapply Forall2_length|done].
  - destruct (genUpdateSQLs_run FF SV schema table columns indexColumns pairs safeMode
                seeds1 Hrange Hpairs) as (runs & s & Hruns & Heq).
    do 2 eexists. split; [exact Heq|].
    do 3 eexists. split; [reflexivity|].
    clear Heq Hruns. unfold pairSQLs, pairKeyLists, pairValues.
    induction runs as [|f runs [IH1 IH2]]; [done|].
    simpl. rewrite !length_app, IH1, IH2.
    destruct safeMode; [done|]. by destruct (length columns =? 0)%nat.
  - destruct (genDeleteSQLs_runs FF SV schema table columns indexColumns Hrange
                dataSeq seeds1 Hrows)
      as (d0 & seeds0 & runs & s & _ & Hruns & _ & Heq).
    do 2 eexists. split; [exact Heq|].
    do 3 eexists. split; [reflexivity|]. by rewrite !length_map.
Qed.

Lemma resolved_indexes_translate_witness :
  catalog_ordered t_columns
  ∧ ∃ indexColumns seeds',
      findColumns t_columns t_index_names [] = Ret (indexColumns, seeds')
      ∧ indexes_of_catalog t_columns indexColumns
      ∧ indexes_in_range (length t_columns) indexColumns.
Proof.
  assert (catalog_ordered t_columns) as Hord.
  { intros [|[|i]] c Hc; simpl in Hc; [by simplify_eq..|done]. }
  split; [exact Hord|].
  destruct (resolved_indexes_translate sampleFormatFloat sampleSprint_v "db" "t"
              t_columns t_index_names [] Hord)
    as (indexColumns & seeds' & Hfind & Hcat & Hrange & _).
  exists indexColumns, seeds'.
  split; [exact Hfind|]. split; [exact Hcat|exact Hrange].
Defined.

(** ** Column lists and placeholders *)

Lemma countChar_app (c : Ascii.ascii) (a b : string) :
  countChar c (a +:+ b) = (countChar c a + countChar c b)%nat.
Proof.
  induction a as [|x a IH]; [done|].
  change (countChar c (String x (a +:+ b))
          = (countChar c (String x a) + countChar c b)%nat).
  simpl. rewrite IH. lia.
Qed.

Lemma length_append (a b : string) :
  String.length (a +:+ b) = (String.length a + String.length b)%nat.
Proof.
  induction a as [|x a IH]; [done|].
  change (String.length (String x (a +:+ b))
          = (String.length (String x a) + String.length b)%nat).
  simpl. by rewrite IH.
Qed.

Lemma Join_replicate_S (n : nat) (e sep : string) :
  Join (replicate (S (S n)) e) sep = e +:+ sep +:+ Join (replicate (S n) e) sep.
Proof. reflexivity. Qed.

(** X18: [genColumnPlaceholders] writes as many placeholders as asked,
    separated by single commas and nothing else: the text holds [length]
    question marks and [length - 1] commas, and is empty for no column. *)
Theorem genColumnPlaceholders_count (n : nat) :
  countChar "?"%char (genColumnPlaceholders n) = n
  ∧ countChar ","%char (genColumnPlaceholders n) = (n - 1)%nat
  ∧ String.length (genColumnPlaceholders n) = (2 * n - 1)%nat.
Proof.
  unfold genColumnPlaceholders.
  destruct n as [|n]; [done|].
  induction n as [|n (IH1 & IH2 & IH3)]; [done|].
  rewrite Join_replicate_S.
  rewrite !countChar_app, !length_append, IH1, IH2, IH3. simpl.
  repeat split; lia.
Qed.

(** X19: [genColumnList] is the names of the columns, each between
    backticks, joined by commas with no space and no comma at the end. *)
Theorem genColumnList_joined (columns : list column) :
  genColumnList columns
  = Join ((λ c, "`" +:+ name c +:+ "`") <$> columns) ",".
Proof.
  unfold genColumnList.
  rewrite <- (Join_trailing "," _ 0). f_equal.
  rewrite imap_fmap. apply imap_ext. intros i c _. simpl.
  rewrite length_fmap.
  destruct (i =? length columns - 1)%nat; simpl; [done|].
  by rewrite !append_assoc.
Qed.

(** ** Column mapping *)

Section MappingFacts.

Variable error : Type.
Variable Trace : error → error.
Variable Aux : Type.
Variable h : Mapping error Aux.
Variables (schema table : string).
Variable columns : list string.

Lemma mappingDML_loop_ok (data : list (list Value)) :
  Forall (λ row, (h schema table columns row).2 = None) data →
  ∀ i rows,
    length rows = (i + length data)%nat →
    mappingDML_loop error Trace Aux h schema table columns i data rows
    = Ret (Some (take i rows ++ map (λ row, (h schema table columns row).1.1) data),
           None).
Proof.
  induction 1 as [|row data Hrow _ IH]; intros i rows Hlen; simpl in *.
  - rewrite app_nil_r, firstn_all2 by lia. done.
  - destruct (h schema table columns row) as [[mapped aux] err] eqn:Hh.
    simpl in Hrow. subst err. unfold assign.
    destruct (Nat.ltb_spec i (length rows)) as [Hi|Hi]; [|lia]. simpl.
    rewrite IH by (rewrite length_insert; lia).
    do 2 f_equal.
    rewrite (take_S_r _ _ mapped) by (apply list_lookup_insert_eq; lia).
    rewrite take_insert_ge by lia. by rewrite <- app_assoc.
Qed.

Lemma mappingDML_loop_error (good : list (list Value)) (bad : list Value)
    (rest : list (list Value)) (e : error) :
  Forall (λ row, (h schema table columns row).2 = None) good →
  (h schema table columns bad).2 = Some e →
  ∀ i rows,
    length rows = (i + length (good ++ bad :: rest))%nat →
    mappingDML_loop error Trace Aux h schema table columns i (good ++ bad :: rest) rows
    = Ret (None, Some (Trace e)).
Proof.
  intros Hgood Hbad.
  induction Hgood as [|row good Hrow _ IH]; intros i rows Hlen; simpl in *.
  - destruct (h schema table columns bad) as [[mapped aux] err] eqn:Hh.
    simpl in Hbad. subst err. unfold assign.
    destruct (Nat.ltb_spec i (length rows)) as [Hi|Hi]; [|lia]. done.
  - destruct (h schema table columns row) as [[mapped aux] err] eqn:Hh.
    simpl in Hrow. subst err. unfold assign.
    destruct (Nat.ltb_spec i (length rows)) as [Hi|Hi]; [|lia]. simpl.
    apply IH. rewrite length_insert. lia.
Qed.

(** X20: [mappingDML] never panics.  Without a column mapping it returns the
    batch as it is.  With one, when no row fails it returns the mapped rows,
    as many as the batch has and in its order; when a row fails it returns
    nil rows and the traced error of the first row that fails. *)
Theorem mappingDML_all_or_first_error (data : list (list Value)) :
  mappingDML error Trace Aux None schema table columns data = Ret (Some data, None)
  ∧ (Forall (λ row, (h schema table columns row).2 = None) data →
     mappingDML error Trace Aux (Some h) schema table columns data
     = Ret (Some (map (λ row, (h schema table columns row).1.1) data), None))
  ∧ (∀ good bad rest e,
       data = good ++ bad :: rest →
       Forall (λ row, (h schema table columns row).2 = None) good →
       (h schema table columns bad).2 = Some e →
       mappingDML error Trace Aux (Some h) schema table columns data
       = Ret (None, Some (Trace e))).
Proof.
  split; [reflexivity|]. split.
  - intros Hok. unfold mappingDML.
    rewrite mappingDML_loop_ok; [done|done|].
    by rewrite length_replicate.
  - intros good bad rest e -> Hgood Hbad. unfold mappingDML.
    apply mappingDML_loop_error; [done..|].
    by rewrite length_replicate.
Qed.

End MappingFacts.

Lemma mappingDML_all_or_first_error_witness :
  mappingDML string (λ e, "traced: " +:+ e) unit (Some sampleMapping) "db" "t"
    ["id"; "name"] [[VInt32 5; VString "alice"]; [VInt32 6; VNil]]
  = Ret (Some [[VNil; VInt32 5; VString "alice"]; [VNil; VInt32 6; VNil]], None)
  ∧ mappingDML string (λ e, "traced: " +:+ e) unit (Some sampleMapping) "db" "t"
      ["id"; "name"] [[VInt32 5; VString "alice"]; []; [VInt32 6; VNil]]
    = Ret (None, Some "traced: empty row").
Proof.
  split.
  - apply (mappingDML_all_or_first_error string (λ e, "traced: " +:+ e) unit
             sampleMapping "db" "t" ["id"; "name"]
             [[VInt32 5; VString "alice"]; [VInt32 6; VNil]]).
    by repeat constructor.
  - destruct (mappingDML_all_or_first_error string (λ e, "traced: " +:+ e) unit
                sampleMapping "db" "t" ["id"; "name"]
                [[VInt32 5; VString "alice"]; []; [VInt32 6; VNil]])
      as (_ & _ & Herr).
    apply (Herr [[VInt32 5; VString "alice"]] [] [[VInt32 6; VNil]] "empty row");
      [reflexivity|by repeat constructor|reflexivity].
Defined.

(** ** Update batches and the index in effect *)

Section UpdateIndexes.

Variable FF : Z → Z → string.
Variable SV : Value → string.
Variables (schema table : string).
Variable columns : list column.
Variable indexColumns : gmap string (list column).
Hypothesis Hrange : indexes_in_range (length columns) indexColumns.

Lemma genUpdateSQLs_loop_indexed (safeMode : bool)
    (pairs : list (list Value * list Value)) (rest : list (list Value)) :
  Forall (λ p, length p.1 = length columns ∧ length p.2 = length columns) pairs →
  ∀ d sqls keys values seeds,
    carried indexColumns d →
    ∃ runs ds d' seeds',
      Forall2 (pairRunOf FF SV columns indexColumns) pairs runs
      ∧ Forall2 (λ f d1,
                   inEffect indexColumns (oldValues f) d1
                   ∧ whereBasis columns d1 (oldValues f) (whereColumns f)
                       (whereValues f)) runs ds
      ∧ carried indexColumns d'
      ∧ sticky d ds
      ∧ genUpdateSQLs_loop FF SV schema table columns indexColumns safeMode
          (genColumnList columns) (genColumnPlaceholders (length columns))
          (flattenPairs pairs ++ rest) d sqls keys values seeds
        = genUpdateSQLs_loop FF SV schema table columns indexColumns safeMode
            (genColumnList columns) (genColumnPlaceholders (length columns)) rest d'
            (sqls ++ flat_map (pairSQLs schema table columns safeMode) runs)
            (keys ++ flat_map (pairKeyLists columns safeMode) runs)
            (values ++ flat_map (pairValues columns safeMode) runs) seeds'.
Proof.
  induction 1 as [|[old changed] pairs [Hold Hnew] _ IH];
    intros d sqls keys values seeds Hd.
  - exists [], [], d, seeds. simpl. rewrite !app_nil_r.
    split; [constructor|]. split; [constructor|]. split; [done|]. by split.
  - simpl in Hold, Hnew.
    change (flattenPairs ((old, changed) :: pairs) ++ rest)
      with (old :: changed :: (flattenPairs pairs ++ rest)).
    cbn [genUpdateSQLs_loop].
    rewrite Hold, Hnew, Nat.eqb_refl. cbn [negb].
    destruct (castValues_total columns old Hold) as (oldV & HoldV & HoldL).
    destruct (castValues_total columns changed Hnew) as (newV & HnewV & HnewL).
    rewrite (mbind_liftRes _ _ _ _ HoldV), (mbind_liftRes _ _ _ _ HnewV).
    destruct (fallback_in_effect columns indexColumns Hrange d oldV seeds HoldL Hd)
      as (d1 & seeds1 & Hd1 & Heff1 & Hcar1).
    pose proof (proj1 Hcar1) as Hsel1.
    rewrite (mbind_Ret _ _ _ _ _ Hd1).
    destruct (genMultipleKeys_total FF SV columns oldV indexColumns seeds1)
      as (k1 & seeds2 & Hk1); [by rewrite HoldL|].
    rewrite (mbind_Ret _ _ _ _ _ Hk1).
    destruct (genMultipleKeys_total FF SV columns newV indexColumns seeds2)
      as (k2 & seeds3 & Hk2); [by rewrite HnewL|].
    rewrite (mbind_Ret _ _ _ _ _ Hk2).
    destruct (where_basis_total columns indexColumns Hrange d1 oldV HoldL Hsel1)
      as (wc & wv & Hdata & Hbasis & Hwlen).
    assert (pairRunOf FF SV columns indexColumns (old, changed)
              (PairRun oldV newV wc wv (k1 ++ k2))) as Hrun.
    { repeat split; simpl; try done.
      - by exists d1.
      - by exists k1, k2, seeds1, seeds2, seeds2, seeds3. }
    assert (d ≠ None → d1 = d) as Hkeep.
    { by apply (fallback_keeps indexColumns d d1 oldV seeds seeds1 (proj1 Hd) Hd1). }
    destruct safeMode.
    + assert (genDeleteSQL schema table oldV columns d1
              = Ret (deleteText schema table (PairRun oldV newV wc wv (k1 ++ k2)), wv))
        as Hdel.
      { unfold genDeleteSQL. rewrite Hdata. simpl.
        by rewrite genWhere_clause by lia. }
      rewrite (mbind_liftRes _ _ _ _ Hdel). cbv beta iota.
      edestruct (IH d1)
        as (runs & ds & d' & seeds' & Hruns & Hds & Hsel' & Hsticky & Heq);
        [exact Hcar1|].
      exists (PairRun oldV newV wc wv (k1 ++ k2) :: runs), (d1 :: ds), d', seeds'.
      split; [by constructor|]. split; [by constructor|]. split; [done|].
      split; [by split|].
      rewrite Heq. simpl. by rewrite <- !app_assoc.
    + rewrite (mbind_liftRes _ _ _ _ (update_targets columns oldV newV HoldL HnewL)).
      rewrite fst_zip, snd_zip by lia.
      destruct (Nat.eqb_spec (length columns) 0) as [Hzero|Hpos].
      * edestruct (IH d1) as (runs & ds & d' & seeds' & Hruns & Hds & Hsel' & Hsticky & Heq); [exact Hcar1|].
        exists (PairRun oldV newV wc wv (k1 ++ k2) :: runs), (d1 :: ds), d', seeds'.
        split; [by constructor|]. split; [by constructor|]. split; [done|].
        split; [by split|].
        rewrite Heq. unfold pairSQLs, pairKeyLists, pairValues. simpl.
        destruct (Nat.eqb_spec (length columns) 0); [done|lia].
      * rewrite (mbind_liftRes _ _ _ _ Hdata). cbv beta iota.
        rewrite (mbind_liftRes _ _ _ _ (genWhere_clause wc wv ltac:(lia))).
        edestruct (IH d1)
        as (runs & ds & d' & seeds' & Hruns & Hds & Hsel' & Hsticky & Heq);
        [exact Hcar1|].
        exists (PairRun oldV newV wc wv (k1 ++ k2) :: runs), (d1 :: ds), d', seeds'.
        split; [by constructor|]. split; [by constructor|]. split; [done|].
        split; [by split|].
        rewrite Heq. unfold pairSQLs, pairKeyLists, pairValues, updateText. simpl.
        destruct (Nat.eqb_spec (length columns) 0); [lia|].
        rewrite <- (genKVs_clause columns newV) by lia.
        by rewrite <- !app_assoc.
Qed.

(** X21: the index in effect is kept along an update batch, in safe mode
    and not.  With a primary index that has a column, the WHERE clause of
    every pair is over the primary index; in general, from the first pair
    for which an index is in effect on, every pair is matched by that same
    index. *)
Theorem update_batch_keeps_its_index
    (pairs : list (list Value * list Value)) (safeMode : bool) (seeds : Sched) :
  Forall (λ p, length p.1 = length columns ∧ length p.2 = length columns) pairs →
  ∃ runs ds seeds',
    Forall2 (pairRunOf FF SV columns indexColumns) pairs runs
    ∧ Forall2 (λ f d1,
                 inEffect indexColumns (oldValues f) d1
                 ∧ whereBasis columns d1 (oldValues f) (whereColumns f)
                     (whereValues f)) runs ds
    ∧ genUpdateSQLs FF SV schema table columns indexColumns
        (flattenPairs pairs) safeMode seeds
      = Ret ((Some (flat_map (pairSQLs schema table columns safeMode) runs),
              Some (flat_map (pairKeyLists columns safeMode) runs),
              Some (flat_map (pairValues columns safeMode) runs),
              None), seeds')
    ∧ (∀ c cols, indexColumns !! "primary" = Some (c :: cols) →
         Forall (λ d1, d1 = Some (c :: cols)) ds
         ∧ Forall (λ f, whereColumns f = c :: cols) runs)
    ∧ (∀ i j d1 d2, (i ≤ j)%nat → ds !! i = Some d1 → ds !! j = Some d2 →
         d1 ≠ None → d2 = d1).
Proof.
  intros Hpairs. unfold genUpdateSQLs.
  destruct (findFitIndex_carried indexColumns seeds) as (d0 & seeds0 & Hd0 & Hcar).
  rewrite (mbind_Ret _ _ _ _ _ Hd0).
  destruct (genUpdateSQLs_loop_indexed safeMode pairs [] Hpairs d0 [] [] [] seeds0 Hcar)
    as (runs & ds & d' & seeds' & Hruns & Hds & _ & Hsticky & Heq).
  exists runs, ds, seeds'. split; [done|]. split; [done|].
  split; [rewrite app_nil_r in Heq; by rewrite Heq|]. split.
  - intros c cols Hprim.
    rewrite findFitIndex_unfold, Hprim in Hd0. simpl in Hd0.
    unfold mret in Hd0. injection Hd0 as <- <-.
    pose proof (sticky_all _ _ Hsticky ltac:(done)) as Hall.
    split; [done|].
    apply Forall_forall. intros f Hf.
    apply list_elem_of_lookup_1 in Hf as [i Hi].
    destruct (Forall2_lookup_l _ _ _ _ _ Hds Hi) as (d1 & Hd1 & _ & Hbasis).
    rewrite (Forall_lookup_1 _ _ _ _ Hall Hd1) in Hbasis.
    unfold whereBasis in Hbasis. simpl in Hbasis. by destruct Hbasis.
  - intros i j d1 d2 Hij Hi Hj Hne. by apply (sticky_later d0 ds i j).
Qed.

End UpdateIndexes.

Lemma update_batch_keeps_its_index_witness :
  indexes_in_range (length t_columns) t_indexes
  ∧ ∃ runs ds seeds',
      Forall2 (pairRunOf sampleFormatFloat sampleSprint_v t_columns t_indexes)
        [([VInt32 5; VString "alice"], [VInt32 5; VString "bob"])] runs
      ∧ genUpdateSQLs sampleFormatFloat sampleSprint_v "db" "t" t_columns t_indexes
          (flattenPairs [([VInt32 5; VString "alice"], [VInt32 5; VString "bob"])])
          false []
        = Ret ((Some (flat_map (pairSQLs "db" "t" t_columns false) runs),
                Some (flat_map (pairKeyLists t_columns false) runs),
                Some (flat_map (pairValues t_columns false) runs),
                None), seeds')
      ∧ Forall (λ d1, d1 = Some [col_id]) ds
      ∧ Forall (λ f, whereColumns f = [col_id]) runs.
Proof.
  assert (indexes_in_range (length t_columns) t_indexes) as Hr by solve_in_range.
  split; [exact Hr|].
  destruct (update_batch_keeps_its_index sampleFormatFloat sampleSprint_v "db" "t"
              t_columns t_indexes Hr
              [([VInt32 5; VString "alice"], [VInt32 5; VString "bob"])] false [])
    as (runs & ds & seeds' & Hruns & _ & Heq & Hprim & _); [by repeat constructor|].
  exists runs, ds, seeds'. split; [exact Hruns|]. split; [exact Heq|].
  apply (Hprim col_id []). reflexivity.
Defined.

(** ** Bounds of the projection *)

Lemma getColumnData_out_of_range (columns indexCols : list column) (data : list Value) :
  Exists (λ c, (length data ≤ idx c)%nat) indexCols →
  ∃ msg, getColumnData columns indexCols data = Panic msg.
Proof.
  intros Hex. unfold getColumnData.
  destruct (forRange indexCols (λ _ column, index data (idx column))) as [vs|msg] eqn:E;
    [|by eexists].
  apply Exists_exists in Hex as (c & Hin & Hc).
  apply list_elem_of_lookup_1 in Hin as [i Hi].
  destruct (forRange_from_lookup 0 indexCols _ vs i c E Hi) as (b & _ & Hbody).
  simpl in Hbody. unfold index in Hbody.
  by rewrite (proj2 (lookup_ge_None data (idx c)) Hc) in Hbody.
Qed.

(** X22: [getColumnData] returns exactly when every ordinal of the index is
    a position of the row, and panics otherwise; what it returns is the
    columns of the index as given and, in their order, the values of the row
    at their ordinals. *)
Theorem getColumnData_in_bounds_or_panics
    (columns indexCols : list column) (data : list Value) :
  (columns_in_range (length data) indexCols →
   ∃ vals, getColumnData columns indexCols data = Ret (indexCols, vals)
           ∧ Forall2 (λ c d, data !! idx c = Some d) indexCols vals)
  ∧ (Exists (λ c, (length data ≤ idx c)%nat) indexCols →
     ∃ msg, getColumnData columns indexCols data = Panic msg).
Proof.
  split; [apply getColumnData_values|apply getColumnData_out_of_range].
Qed.

Lemma getColumnData_in_bounds_or_panics_witness :
  (∃ vals, getColumnData ab_columns [col_b; col_a] [VInt32 1; VNil]
           = Ret ([col_b; col_a], vals)
           ∧ Forall2 (λ c d, [VInt32 1; VNil] !! idx c = Some d) [col_b; col_a] vals)
  ∧ ∃ msg, getColumnData ab_columns [col_a; col_b] [VInt32 1] = Panic msg.
Proof.
  split.
  - apply (getColumnData_in_bounds_or_panics ab_columns [col_b; col_a]
             [VInt32 1; VNil]).
    repeat constructor.
  - apply (getColumnData_in_bounds_or_panics ab_columns [col_a; col_b] [VInt32 1]).
    apply Exists_cons_tl, Exists_cons_hd. simpl. lia.
Defined.

(** ** Nil under the cast *)

Lemma castUnsigned_nil (d : Value) (u : bool) (tp : string) :
  castUnsigned d u tp = VNil ↔ d = VNil.
Proof.
  destruct u; [|done].
  destruct d; try done.
  unfold castUnsigned. cbn [negb]. cbv iota.
  by destruct (Contains (ToLower tp) "mediumint").
Qed.

(** X23: the cast keeps nil and only nil as nil, so an index is available
    in the casted row, on which the generators select it, exactly when it is
    available in the raw row. *)
Theorem availability_survives_cast
    (columns : list column) (data value : list Value) (cols : list column) :
  castValues columns data = Ret value →
  (∀ d u tp, castUnsigned d u tp = VNil ↔ d = VNil)
  ∧ (rowAvailable value cols ↔ rowAvailable data cols).
Proof.
  intros Hcast. split; [apply castUnsigned_nil|].
  apply castValues_lookup in Hcast as [Hlen Hvalue].
  unfold rowAvailable. apply and_iff_compat_l.
  apply Forall_proper; [|done]. intros c. split.
  - intros (v & Hv & Hne).
    destruct (lookup_lt_is_Some_2 data (idx c)) as [d Hd].
    { rewrite <- Hlen. by eapply lookup_lt_Some. }
    exists d. split; [done|]. intros ->.
    destruct (Hvalue _ _ Hd) as (c' & _ & Hv').
    rewrite Hv in Hv'. injection Hv' as ->. by apply Hne, castUnsigned_nil.
  - intros (d & Hd & Hne).
    destruct (Hvalue _ _ Hd) as (c' & _ & Hv').
    eexists. split; [exact Hv'|]. intros Hnil. by apply castUnsigned_nil in Hnil.
Qed.

Lemma availability_survives_cast_witness :
  rowAvailable [VUint32 5; VNil] [col_id] ↔ rowAvailable [VInt32 5; VNil] [col_id].
Proof.
  apply (availability_survives_cast t_columns [VInt32 5; VNil] [VUint32 5; VNil]
           [col_id]).
  reflexivity.
Defined.

(** * Safe-mode updates and the index of the DELETE *)





Section SafeUpdates.

Variable FF : Z → Z → string.
Variable SV : Value → string.
Variables (schema table : string).
Variable columns : list column.
Variable indexColumns : gmap string (list column).
Hypothesis Hrange : indexes_in_range (length columns) indexColumns.



End SafeUpdates.


